(** * Incident service: lifecycle manager, repository and HTTP handlers

    A shallow embedding of the incident-tracking service
    (packages [models], [repository], [services] and [handlers]) together
    with the library routines its behaviour depends on
    ([strconv.Atoi], [encoding/hex], [primitive.ObjectIDFromHex],
    [strings.Trim]).

    Go strings are byte strings: they are modelled by [string] (a list of
    8-bit [ascii]).  Go's [int] is the 64-bit signed integer; it is modelled
    by [Z] with the wrap-around written out.  Functions that touch the
    document store, the object-id generator or the clock are written in a
    small state-and-error monad over [World]. *)

From Stdlib Require Import String Ascii List ZArith Lia Bool Arith.
From Stdlib Require Import Sorting.Permutation.
From Stdlib.Strings Require Import Byte.
Import ListNotations.
Open Scope string_scope.
Open Scope Z_scope.

Set Implicit Arguments.

(* ------------------------------------------------------------------ *)
(** ** Go errors *)

(** An [error] value is either a sentinel / library error or an error built
    by [fmt.Errorf].  [Errorf msg] is [fmt.Errorf(msg)] with the arguments
    already formatted in; [Wrapf msg err] is [fmt.Errorf(msg + ": %w", err)]. *)
Inductive error : Type :=
| ErrSyntax (fn num : string)      (* strconv.NumError{fn, num, ErrSyntax} *)
| ErrRange (fn num : string)       (* strconv.NumError{fn, num, ErrRange}  *)
| InvalidByteError (c : ascii)     (* encoding/hex                         *)
| ErrLength                        (* encoding/hex                         *)
| ErrInvalidHex                    (* bson/primitive                       *)
| ErrNoDocuments                   (* mongo                                *)
| ErrBadFormat                     (* checkmail                            *)
| Errorf (msg : string)
| Wrapf (msg : string) (err : error).

Inductive result (A : Type) : Type :=
| Ok (a : A)
| Err (e : error).
Arguments Ok {A} a.
Arguments Err {A} e.

Definition double_quote : ascii := "034"%char.

(** [err.Error()].  The library leaves are rendered in the manner of the
    libraries, with the quoting of the number and the naming of the byte
    simplified; the handlers only ever compare a rendered error with the
    service's own message. *)
Fixpoint Error (e : error) : string :=
  match e with
  | ErrSyntax fn num =>
      "strconv." ++ fn ++ ": parsing " ++ String double_quote num
        ++ String double_quote ": invalid syntax"
  | ErrRange fn num =>
      "strconv." ++ fn ++ ": parsing " ++ String double_quote num
        ++ String double_quote ": value out of range"
  | InvalidByteError c => "encoding/hex: invalid byte: " ++ String c ""
  | ErrLength => "encoding/hex: odd length hex string"
  | ErrInvalidHex => "the provided hex string is not a valid ObjectID"
  | ErrNoDocuments => "mongo: no documents in result"
  | ErrBadFormat => "invalid format"
  | Errorf msg => msg
  | Wrapf msg err => msg ++ ": " ++ Error err
  end.

(* ------------------------------------------------------------------ *)
(** ** Bytes and machine integers *)

Definition byte_val (c : ascii) : Z := Z.of_N (N_of_ascii c).

Definition maxUint64 : Z := 2 ^ 64 - 1.
Definition maxInt : Z := 2 ^ 63 - 1.
Definition minInt : Z := - 2 ^ 63.

(** Reduction of a mathematical integer to Go's 64-bit [int]. *)
Definition int_wrap (z : Z) : Z := (z + 2 ^ 63) mod 2 ^ 64 - 2 ^ 63.

Definition uint64_wrap (z : Z) : Z := z mod 2 ^ 64.

Definition int_add (a b : Z) : Z := int_wrap (a + b).

(* ------------------------------------------------------------------ *)
(** ** package strings *)

Module strings.

Fixpoint contains_char (cutset : string) (c : ascii) : bool :=
  match cutset with
  | "" => false
  | String d rest => if Ascii.eqb c d then true else contains_char rest c
  end.

Fixpoint TrimLeft (s cutset : string) : string :=
  match s with
  | "" => ""
  | String c rest => if contains_char cutset c then TrimLeft rest cutset else s
  end.

Fixpoint TrimRight (s cutset : string) : string :=
  match s with
  | "" => ""
  | String c rest =>
      match TrimRight rest cutset with
      | "" => if contains_char cutset c then "" else String c ""
      | kept => String c kept
      end
  end.

(** [strings.Trim] for an ASCII cutset: all leading and trailing bytes
    contained in [cutset] are removed. *)
Definition Trim (s cutset : string) : string :=
  TrimRight (TrimLeft s cutset) cutset.

End strings.

(* ------------------------------------------------------------------ *)
(** ** package strconv (64-bit platform) *)

Module strconv.

Definition intSize : Z := 64.

(** [lower(c)] is [c | ('x' - 'X')]. *)
Definition lower (c : Z) : Z := Z.lor c 32.

(** The loop of [ParseUint]: [n] is the [uint64] accumulator.
    [inl true] is a syntax error, [inl false] a range error. *)
Fixpoint ParseUint_loop (s : string) (base cutoff maxVal n : Z) : bool + Z :=
  match s with
  | "" => inr n
  | String ch rest =>
      let c := byte_val ch in
      let digit :=
        if (48 <=? c) && (c <=? 57) then Some (c - 48)
        else if (97 <=? lower c) && (lower c <=? 122) then Some (lower c - 97 + 10)
        else None in
      match digit with
      | None => inl true
      | Some d =>
          if d >=? base then inl true
          else if n >=? cutoff then inl false
          else
            let n' := uint64_wrap (n * base) in
            let n1 := uint64_wrap (n' + d) in
            if (n1 <? n') || (n1 >? maxVal) then inl false
            else ParseUint_loop rest base cutoff maxVal n1
      end
  end.

(** [ParseUint(s, base, bitSize)] for an explicit base between 2 and 36
    (base 0, the prefix-detecting mode, is never requested by [Atoi]).
    A range error carries the saturated value, as in Go. *)
Definition ParseUint (s : string) (base bitSize : Z) : Z * option error :=
  if String.eqb s "" then (0, Some (ErrSyntax "ParseUint" s))
  else
    let bitSize := if bitSize =? 0 then intSize else bitSize in
    let cutoff := maxUint64 / base + 1 in
    let maxVal := 2 ^ bitSize - 1 in
    match ParseUint_loop s base cutoff maxVal 0 with
    | inl true => (0, Some (ErrSyntax "ParseUint" s))
    | inl false => (maxVal, Some (ErrRange "ParseUint" s))
    | inr n => (n, None)
    end.

Definition is_range (e : error) : bool :=
  match e with ErrRange _ _ => true | _ => false end.

Definition ParseInt (s : string) (base bitSize : Z) : Z * option error :=
  match s with
  | "" => (0, Some (ErrSyntax "ParseInt" s))
  | String c0 rest =>
      let s0 := s in
      let '(neg, s) :=
        if Ascii.eqb c0 "+" then (false, rest)
        else if Ascii.eqb c0 "-" then (true, rest)
        else (false, s) in
      let '(un, err) := ParseUint s base bitSize in
      let syntax_failed :=
        match err with Some e => negb (is_range e) | None => false end in
      if syntax_failed then (0, Some (ErrSyntax "ParseInt" s0))
      else
        let bitSize := if bitSize =? 0 then intSize else bitSize in
        let cutoff := 2 ^ (bitSize - 1) in
        if negb neg && (un >=? cutoff) then (cutoff - 1, Some (ErrRange "ParseInt" s0))
        else if neg && (un >? cutoff) then (- cutoff, Some (ErrRange "ParseInt" s0))
        else ((if neg then - un else un), None)
  end.

(** The fast path of [Atoi]: [ch -= '0'] is a byte subtraction. *)
Fixpoint Atoi_fast_loop (s : string) (n : Z) : option Z :=
  match s with
  | "" => Some n
  | String ch rest =>
      let d := (byte_val ch - 48) mod 256 in
      if d >? 9 then None else Atoi_fast_loop rest (int_wrap (n * 10 + d))
  end.

Definition Atoi (s : string) : result Z :=
  let sLen := Z.of_nat (String.length s) in
  if (0 <? sLen) && (sLen <? 19) then
    match s with
    | "" => Err (ErrSyntax "Atoi" s)
    | String c0 rest =>
        let signed := Ascii.eqb c0 "-" || Ascii.eqb c0 "+" in
        let digits := if signed then rest else s in
        if signed && (Z.of_nat (String.length digits) <? 1) then Err (ErrSyntax "Atoi" s)
        else
          match Atoi_fast_loop digits 0 with
          | None => Err (ErrSyntax "Atoi" s)
          | Some n => Ok (if Ascii.eqb c0 "-" then int_wrap (- n) else n)
          end
    end
  else
    match ParseInt s 10 0 with
    | (_, Some (ErrRange _ num)) => Err (ErrRange "Atoi" num)
    | (_, Some (ErrSyntax _ num)) => Err (ErrSyntax "Atoi" num)
    | (_, Some e) => Err e
    | (i64, None) => Ok i64
    end.

End strconv.


(* ------------------------------------------------------------------ *)
(** ** package encoding/hex *)

Module hex.

Definition hextable : string := "0123456789abcdef".

Definition hexdigit (v : Z) : ascii :=
  match String.get (Z.to_nat v) hextable with
  | Some c => c
  | None => "0"%char
  end.

Definition byte_of_Z (z : Z) : byte :=
  match Byte.of_N (Z.to_N (z mod 256)) with
  | Some b => b
  | None => x00
  end.

Definition Z_of_byte (b : byte) : Z := Z.of_N (Byte.to_N b).

(** [Encode]: two lower-case digits per byte, high nibble first. *)
Fixpoint EncodeToString (src : list byte) : string :=
  match src with
  | [] => ""
  | v :: rest =>
      String (hexdigit (Z.shiftr (Z_of_byte v) 4))
        (String (hexdigit (Z.land (Z_of_byte v) 15)) (EncodeToString rest))
  end.

(** [reverseHexTable]: the value of a hexadecimal digit of either case. *)
Definition fromHexChar (ch : ascii) : option Z :=
  let c := byte_val ch in
  if (48 <=? c) && (c <=? 57) then Some (c - 48)
  else if (97 <=? c) && (c <=? 102) then Some (c - 97 + 10)
  else if (65 <=? c) && (c <=? 70) then Some (c - 65 + 10)
  else None.

Fixpoint DecodeString (src : string) : result (list byte) :=
  match src with
  | "" => Ok []
  | String p "" =>
      match fromHexChar p with
      | None => Err (InvalidByteError p)
      | Some _ => Err ErrLength
      end
  | String p (String q rest) =>
      match fromHexChar p with
      | None => Err (InvalidByteError p)
      | Some a =>
          match fromHexChar q with
          | None => Err (InvalidByteError q)
          | Some b =>
              match DecodeString rest with
              | Ok bytes => Ok (byte_of_Z (Z.lor (Z.shiftl a 4) b) :: bytes)
              | Err e => Err e
              end
          end
      end
  end.

End hex.

(* ------------------------------------------------------------------ *)
(** ** package bson/primitive: the 12-byte object id *)

Module primitive.

(** [type ObjectID [12]byte]. *)
Record ObjectID : Type := mkObjectID {
  b0 : byte; b1 : byte; b2 : byte; b3 : byte; b4 : byte; b5 : byte;
  b6 : byte; b7 : byte; b8 : byte; b9 : byte; b10 : byte; b11 : byte
}.

Definition bytes (id : ObjectID) : list byte :=
  [b0 id; b1 id; b2 id; b3 id; b4 id; b5 id;
   b6 id; b7 id; b8 id; b9 id; b10 id; b11 id].

Definition of_bytes (l : list byte) : option ObjectID :=
  match l with
  | [c0; c1; c2; c3; c4; c5; c6; c7; c8; c9; c10; c11] =>
      Some (mkObjectID c0 c1 c2 c3 c4 c5 c6 c7 c8 c9 c10 c11)
  | _ => None
  end.

Definition NilObjectID : ObjectID :=
  mkObjectID x00 x00 x00 x00 x00 x00 x00 x00 x00 x00 x00 x00.

Fixpoint bytes_eqb (l1 l2 : list byte) : bool :=
  match l1, l2 with
  | [], [] => true
  | c1 :: r1, c2 :: r2 => Byte.eqb c1 c2 && bytes_eqb r1 r2
  | _, _ => false
  end.

(** Equality of two object ids, as used by an [_id] filter. *)
Definition eqb (a b : ObjectID) : bool := bytes_eqb (bytes a) (bytes b).

Definition IsZero (id : ObjectID) : bool := eqb id NilObjectID.

Definition Hex (id : ObjectID) : string := hex.EncodeToString (bytes id).

Definition ObjectIDFromHex (s : string) : result ObjectID :=
  if negb (Nat.eqb (String.length s) 24) then Err ErrInvalidHex
  else
    match hex.DecodeString s with
    | Err e => Err e
    | Ok decoded =>
        match of_bytes decoded with
        | Some oid => Ok oid
        | None => Err ErrInvalidHex
        end
    end.

End primitive.


(* ------------------------------------------------------------------ *)
(** ** package models *)

Definition Time : Type := Z.

Module models.

Definition IncidentSeverity : Type := string.
Definition Low : IncidentSeverity := "low".
Definition Medium : IncidentSeverity := "medium".
Definition High : IncidentSeverity := "high".
Definition Critical : IncidentSeverity := "critical".

Definition IncidentStatus : Type := string.
Definition Open : IncidentStatus := "open".
Definition InProgress : IncidentStatus := "in_progress".
Definition Resolved : IncidentStatus := "resolved".
Definition Closed : IncidentStatus := "closed".

Definition NoteType : Type := string.
Definition Update : NoteType := "update".
Definition Investigation : NoteType := "investigation".
Definition Resolution : NoteType := "resolution".
Definition Communication : NoteType := "communication".

Module Note.
Record t : Type := mk {
  ID : primitive.ObjectID;
  Content : string;
  CreatedAt : Time;
  AuthorEmail : string;
  Type_ : NoteType
}.
End Note.

Module Watcher.
Record t : Type := mk { Email : string }.
Definition eqb (a b : t) : bool := String.eqb (Email a) (Email b).
End Watcher.

Module Incident.
Record t : Type := mk {
  ID : primitive.ObjectID;
  IncidentKey : Z;
  Title : string;
  Severity : IncidentSeverity;
  Status : IncidentStatus;
  CreatedAt : Time;
  UpdatedAt : Time;
  Notes : list Note.t;
  WatchList : list Watcher.t;
  CreatedBy : string;
  Description : string;
  Assignee : string
}.
End Incident.

(** [Notes] is a Go slice that may be [nil]: [None] is the nil slice. *)
Module CreateIncidentRequest.
Record t : Type := mk {
  Title : string;
  Severity : IncidentSeverity;
  Description : string;
  Notes : option (list Note.t);
  AuthorEmail : string;
  Assignee : string
}.
End CreateIncidentRequest.

Module UpdateIncidentStatusRequest.
Record t : Type := mk { Status : IncidentStatus; AuthorEmail : string }.
End UpdateIncidentStatusRequest.

Module UpdateIncidentSeverityRequest.
Record t : Type := mk { Severity : IncidentSeverity; AuthorEmail : string }.
End UpdateIncidentSeverityRequest.

Module AddNoteRequest.
Record t : Type := mk { Content : string; AuthorEmail : string; Type_ : NoteType }.
End AddNoteRequest.

Definition ValidSeverities : list IncidentSeverity := [Low; Medium; High; Critical].

Definition ValidStatuses : list IncidentStatus := [Open; InProgress; Resolved; Closed].

Definition IncidentSeverity_IsValid (s : IncidentSeverity) : bool :=
  existsb (fun severity => String.eqb s severity) ValidSeverities.

Definition IncidentStatus_IsValid (s : IncidentStatus) : bool :=
  existsb (fun status => String.eqb s status) ValidStatuses.

(** The four event payloads of [event.go]; the fields filled in by
    [GetPayload] are left out. *)
Inductive KafkaEvent : Type :=
| IncidentCreated (EventKey Id Title Severity : string)
| IncidentStatusUpdated (EventKey Id Title Status : string)
| IncidentSeverityUpdated (EventKey Id Title Severity : string)
| IncidentNoteAdded (EventKey Id Title Content : string).

Definition EVENT_TOPIC : string := "anchor.incident.events".

Definition GetTopic (e : KafkaEvent) : string := EVENT_TOPIC.

Definition GetVersion (e : KafkaEvent) : Z := 1.

Definition GetEventType (e : KafkaEvent) : string :=
  match e with
  | IncidentCreated _ _ _ _ => "incident.created"
  | IncidentStatusUpdated _ _ _ _ => "incident.status.updated"
  | IncidentSeverityUpdated _ _ _ _ => "incident.severity.updated"
  | IncidentNoteAdded _ _ _ _ => "incident.notes.added"
  end.

End models.

Import models.

(* ------------------------------------------------------------------ *)
(** ** The world: document store, id generator, clock *)

(** [collection] is the [incidents] collection in natural order;
    [oid_calls] and [now_calls] count the calls made so far to
    [primitive.NewObjectID] and to [time.Now]. *)
Record World : Type := mkWorld {
  collection : list Incident.t;
  oid_calls : nat;
  now_calls : nat
}.

(** What the environment supplies: the object id returned by the n-th call
    of [primitive.NewObjectID], the instant returned by the n-th call of
    [time.Now], and [checkmail.ValidateFormat] ([true] when it returns
    [nil]). *)
Class Runtime : Type := {
  NewObjectID_at : nat -> primitive.ObjectID;
  Now_at : nat -> Time;
  checkmail_ValidateFormat : string -> bool
}.

(** State and error: a failing call keeps the effects made before the
    failure, as the Go code does. *)
Definition M (A : Type) : Type := World -> result A * World.

Definition ret {A : Type} (a : A) : M A := fun w => (Ok a, w).

Definition fail {A : Type} (e : error) : M A := fun w => (Err e, w).

Definition bind {A B : Type} (m : M A) (k : A -> M B) : M B :=
  fun w =>
    match m w with
    | (Ok a, w') => k a w'
    | (Err e, w') => (Err e, w')
    end.

(** [if err != nil { return nil, h(err) }]. *)
Definition on_error {A : Type} (m : M A) (h : error -> error) : M A :=
  fun w =>
    match m w with
    | (Ok a, w') => (Ok a, w')
    | (Err e, w') => (Err (h e), w')
    end.

Declare Scope go_scope.
Delimit Scope go_scope with go.
Notation "x <- m ;; k" := (bind m (fun x => k))
  (at level 100, m at next level, right associativity) : go_scope.
Notation "m ;;; k" := (bind m (fun _ => k))
  (at level 100, right associativity) : go_scope.
Open Scope go_scope.

Section Environment.

Context {R : Runtime}.

Definition NewObjectID : M primitive.ObjectID :=
  fun w => (Ok (NewObjectID_at (oid_calls w)),
            mkWorld (collection w) (S (oid_calls w)) (now_calls w)).

Definition time_Now : M Time :=
  fun w => (Ok (Now_at (now_calls w)),
            mkWorld (collection w) (oid_calls w) (S (now_calls w))).

End Environment.

(* ------------------------------------------------------------------ *)
(** ** The collaborators: document store and event producer *)

(** The collection is an in-memory store that answers every request: its
    only error is [ErrNoDocuments].  Failures of the driver (a lost
    connection, a timeout) are outside this model; the repository keeps the
    branches that wrap them. *)
Module mongo.

Fixpoint find_first (filter : Incident.t -> bool) (docs : list Incident.t)
  : option Incident.t :=
  match docs with
  | [] => None
  | d :: rest => if filter d then Some d else find_first filter rest
  end.

(** The first document with the greatest value of [key]. *)
Fixpoint find_greatest (key : Incident.t -> Z) (docs : list Incident.t)
  : option Incident.t :=
  match docs with
  | [] => None
  | d :: rest =>
      match find_greatest key rest with
      | Some m => if key m >? key d then Some m else Some d
      | None => Some d
      end
  end.

Fixpoint update_first (filter : Incident.t -> bool)
    (update : Incident.t -> Incident.t) (docs : list Incident.t)
  : option (Incident.t * list Incident.t) :=
  match docs with
  | [] => None
  | d :: rest =>
      if filter d then Some (update d, update d :: rest)
      else
        match update_first filter update rest with
        | Some (d', rest') => Some (d', d :: rest')
        | None => None
        end
  end.

(** [InsertOne]: the document carries its [_id]; it is appended and the
    id is reported as [InsertedID].  ([NewObjectID] never returns the
    zero id, so [omitempty] never drops the field.) *)
Definition InsertOne (doc : Incident.t) : M primitive.ObjectID :=
  fun w => (Ok (Incident.ID doc),
            mkWorld (collection w ++ [doc]) (oid_calls w) (now_calls w)).

Definition FindOne (filter : Incident.t -> bool) : M Incident.t :=
  fun w =>
    match find_first filter (collection w) with
    | Some d => (Ok d, w)
    | None => (Err ErrNoDocuments, w)
    end.

(** [FindOne] with [SetSort] on one key, descending. *)
Definition FindOne_sorted_desc (key : Incident.t -> Z) : M Incident.t :=
  fun w =>
    match find_greatest key (collection w) with
    | Some d => (Ok d, w)
    | None => (Err ErrNoDocuments, w)
    end.

(** [FindOneAndUpdate] with [ReturnDocument(After)]. *)
Definition FindOneAndUpdate (filter : Incident.t -> bool)
    (update : Incident.t -> Incident.t) : M Incident.t :=
  fun w =>
    match update_first filter update (collection w) with
    | Some (d, docs) => (Ok d, mkWorld docs (oid_calls w) (now_calls w))
    | None => (Err ErrNoDocuments, w)
    end.

(** Update operators on an incident document. *)
Definition set_status (status : IncidentStatus) (updated_at : Time)
    (d : Incident.t) : Incident.t :=
  Incident.mk (Incident.ID d) (Incident.IncidentKey d) (Incident.Title d)
    (Incident.Severity d) status (Incident.CreatedAt d) updated_at
    (Incident.Notes d) (Incident.WatchList d) (Incident.CreatedBy d)
    (Incident.Description d) (Incident.Assignee d).

Definition set_severity (severity : IncidentSeverity) (updated_at : Time)
    (d : Incident.t) : Incident.t :=
  Incident.mk (Incident.ID d) (Incident.IncidentKey d) (Incident.Title d)
    severity (Incident.Status d) (Incident.CreatedAt d) updated_at
    (Incident.Notes d) (Incident.WatchList d) (Incident.CreatedBy d)
    (Incident.Description d) (Incident.Assignee d).

Definition push_note (note : Note.t) (updated_at : Time)
    (d : Incident.t) : Incident.t :=
  Incident.mk (Incident.ID d) (Incident.IncidentKey d) (Incident.Title d)
    (Incident.Severity d) (Incident.Status d) (Incident.CreatedAt d) updated_at
    (Incident.Notes d ++ [note]) (Incident.WatchList d) (Incident.CreatedBy d)
    (Incident.Description d) (Incident.Assignee d).

(** [$addToSet]: the value is appended unless an equal one is present. *)
Definition addToSet (watcher : Watcher.t) (l : list Watcher.t) : list Watcher.t :=
  if existsb (Watcher.eqb watcher) l then l else l ++ [watcher].

Definition addToSet_watchlist (watcher : Watcher.t) (updated_at : Time)
    (d : Incident.t) : Incident.t :=
  Incident.mk (Incident.ID d) (Incident.IncidentKey d) (Incident.Title d)
    (Incident.Severity d) (Incident.Status d) (Incident.CreatedAt d) updated_at
    (Incident.Notes d) (addToSet watcher (Incident.WatchList d))
    (Incident.CreatedBy d) (Incident.Description d) (Incident.Assignee d).

(** [Find] with [SetSort] on one key, descending, read to the end by
    [cursor.All]: an insertion sort of the collection that keeps documents
    with equal keys in their natural order. *)
Fixpoint insert_desc (key : Incident.t -> Z) (d : Incident.t) (sorted : list Incident.t)
  : list Incident.t :=
  match sorted with
  | [] => [d]
  | x :: rest => if key x <=? key d then d :: sorted else x :: insert_desc key d rest
  end.

Definition sort_desc (key : Incident.t -> Z) (docs : list Incident.t) : list Incident.t :=
  fold_right (insert_desc key) [] docs.

Definition Find_sorted_desc (key : Incident.t -> Z) : M (list Incident.t) :=
  fun w => (Ok (sort_desc key (collection w)), w).

End mongo.

Module kafka.

(** [Producer.ProduceMessage] is a stub: it returns [nil]. *)
Definition ProduceMessage (event : KafkaEvent) : M unit := ret tt.

End kafka.

(* ------------------------------------------------------------------ *)
(** ** package repository *)

Module repository.
Section Repository.

Context {R : Runtime}.

Definition no_documents (e : error) : bool :=
  match e with ErrNoDocuments => true | _ => false end.

(** [if err == mongo.ErrNoDocuments { "incident not found" } else wrap]. *)
Definition not_found_or (msg : string) (e : error) : error :=
  if no_documents e then Errorf "incident not found" else Wrapf msg e.

(** A [nil] [Notes] slice and the empty one are the same list here, so the
    replacement of [nil] by the empty slice leaves nothing to do. *)
Definition Create (incident : Incident.t) : M Incident.t :=
  now <- time_Now ;;
  id <- NewObjectID ;;
  let incident :=
    Incident.mk id (Incident.IncidentKey incident) (Incident.Title incident)
      (Incident.Severity incident) (Incident.Status incident) now now
      (Incident.Notes incident) (Incident.WatchList incident)
      (Incident.CreatedBy incident) (Incident.Description incident)
      (Incident.Assignee incident) in
  insertedID <- on_error (mongo.InsertOne incident) (Wrapf "failed to create incident") ;;
  ret (Incident.mk insertedID (Incident.IncidentKey incident) (Incident.Title incident)
         (Incident.Severity incident) (Incident.Status incident)
         (Incident.CreatedAt incident) (Incident.UpdatedAt incident)
         (Incident.Notes incident) (Incident.WatchList incident)
         (Incident.CreatedBy incident) (Incident.Description incident)
         (Incident.Assignee incident)).

Definition UpdateStatus (id : string) (status : IncidentStatus) : M Incident.t :=
  match primitive.ObjectIDFromHex id with
  | Err e => fail (Wrapf "invalid incident ID format" e)
  | Ok objectID =>
      now <- time_Now ;;
      on_error
        (mongo.FindOneAndUpdate (fun d => primitive.eqb (Incident.ID d) objectID)
           (mongo.set_status status now))
        (not_found_or "failed to update incident status")
  end.

Definition UpdateSeverity (id : string) (severity : IncidentSeverity) : M Incident.t :=
  match primitive.ObjectIDFromHex id with
  | Err e => fail (Wrapf "invalid incident ID format" e)
  | Ok objectID =>
      now <- time_Now ;;
      on_error
        (mongo.FindOneAndUpdate (fun d => primitive.eqb (Incident.ID d) objectID)
           (mongo.set_severity severity now))
        (not_found_or "failed to update incident severity")
  end.

Definition AddNote (incidentID : string) (note : Note.t) : M Incident.t :=
  match primitive.ObjectIDFromHex incidentID with
  | Err e => fail (Wrapf "invalid incident ID format" e)
  | Ok objectID =>
      noteID <- NewObjectID ;;
      createdAt <- time_Now ;;
      let note :=
        Note.mk noteID (Note.Content note) createdAt (Note.AuthorEmail note)
          (Note.Type_ note) in
      now <- time_Now ;;
      on_error
        (mongo.FindOneAndUpdate (fun d => primitive.eqb (Incident.ID d) objectID)
           (mongo.push_note note now))
        (not_found_or "failed to add note to incident")
  end.

Definition GetByID (id : string) : M Incident.t :=
  match strconv.Atoi id with
  | Err e => fail (Wrapf "invalid incident ID format" e)
  | Ok incidentKey =>
      on_error
        (mongo.FindOne (fun d => Incident.IncidentKey d =? incidentKey))
        (not_found_or "failed to get incident")
  end.

Definition AddWatcherToIncident (incidentID : string) (watcher : Watcher.t)
  : M Incident.t :=
  match primitive.ObjectIDFromHex incidentID with
  | Err e => fail (Wrapf "invalid incident ID" e)
  | Ok objectID =>
      now <- time_Now ;;
      on_error
        (mongo.FindOneAndUpdate (fun d => primitive.eqb (Incident.ID d) objectID)
           (mongo.addToSet_watchlist watcher now))
        (not_found_or "failed to add watcher to incident")
  end.

Definition GetNextIncidentKey : M Z :=
  fun w =>
    match mongo.FindOne_sorted_desc Incident.IncidentKey w with
    | (Err e, w') =>
        if no_documents e then (Ok 1, w')
        else (Err (Wrapf "failed to get max incident key" e), w')
    | (Ok incident, w') => (Ok (int_add (Incident.IncidentKey incident) 1), w')
    end.

(** [Find] and [cursor.All] have an error branch each. *)
Definition GetAllIncidents : M (list Incident.t) :=
  incidents <- on_error (mongo.Find_sorted_desc Incident.CreatedAt)
                 (Wrapf "failed to get incidents") ;;
  on_error (ret incidents) (Wrapf "failed to decode incidents").

End Repository.
End repository.

(* ------------------------------------------------------------------ *)
(** ** package services *)

Module services.
Section Service.

Context {R : Runtime}.

(** The zero value of [time.Time], of a freshly built struct. *)
Definition zero_Time : Time := 0.

Definition allowedTransitions : list (IncidentStatus * list IncidentStatus) :=
  [ (Open, [InProgress; Resolved; Closed]);
    (InProgress, [Open; Resolved; Closed]);
    (Resolved, [Open; InProgress; Closed]);
    (Closed, [Open]) ].

(** Lookup in a Go map literal with distinct keys. *)
Fixpoint map_lookup (key : IncidentStatus)
    (m : list (IncidentStatus * list IncidentStatus)) : option (list IncidentStatus) :=
  match m with
  | [] => None
  | (k, v) :: rest => if String.eqb k key then Some v else map_lookup key rest
  end.

(** [nil] is [None]. *)
Definition validateStatusTransition (currentStatus newStatus : IncidentStatus)
  : option error :=
  let rejected :=
    Some (Errorf ("cannot transition from " ++ currentStatus ++ " to " ++ newStatus)) in
  match map_lookup currentStatus allowedTransitions with
  | Some allowedStatuses =>
      if existsb (fun allowed => String.eqb allowed newStatus) allowedStatuses
      then None else rejected
  | None => rejected
  end.

Definition validateEmail (email : string) : option error :=
  if checkmail_ValidateFormat email then None
  else Some (Wrapf "invalid email format" ErrBadFormat).

(** The loop over [req.Notes].  [notes] aliases [req.Notes], and each
    element is read before it is overwritten, so the loop maps the slice.
    Every note is rebuilt from its content and author only; [Type] is not
    listed in the struct literal and takes its zero value. *)
Fixpoint stamp_notes (notes : list Note.t) : M (list Note.t) :=
  match notes with
  | [] => ret []
  | note :: rest =>
      id <- NewObjectID ;;
      createdAt <- time_Now ;;
      rest' <- stamp_notes rest ;;
      ret (Note.mk id (Note.Content note) createdAt (Note.AuthorEmail note) "" :: rest')
  end.

Definition CreateIncident (req : CreateIncidentRequest.t) : M Incident.t :=
  if negb (IncidentSeverity_IsValid (CreateIncidentRequest.Severity req)) then
    fail (Errorf ("invalid severity: " ++ CreateIncidentRequest.Severity req))
  else
    notes <- match CreateIncidentRequest.Notes req with
             | Some supplied => stamp_notes supplied
             | None => ret []
             end ;;
    watcherList <-
      (if negb (String.eqb (strings.Trim (CreateIncidentRequest.AuthorEmail req) " ") "") then
         match validateEmail (CreateIncidentRequest.AuthorEmail req) with
         | Some conditionErr => fail (Wrapf "invalid email" conditionErr)
         | None => ret [Watcher.mk (CreateIncidentRequest.AuthorEmail req)]
         end
       else ret []) ;;
    nextKey <- on_error repository.GetNextIncidentKey
                 (Wrapf "failed to generate incident key") ;;
    let incident :=
      Incident.mk primitive.NilObjectID nextKey (CreateIncidentRequest.Title req)
        (CreateIncidentRequest.Severity req) Open zero_Time zero_Time
        notes watcherList (CreateIncidentRequest.AuthorEmail req)
        (CreateIncidentRequest.Description req) (CreateIncidentRequest.Assignee req) in
    createdIncident <- on_error (repository.Create incident)
                         (Wrapf "failed to create incident") ;;
    eventKey <- NewObjectID ;;
    kafka.ProduceMessage
      (IncidentCreated (primitive.Hex eventKey)
         (primitive.Hex (Incident.ID createdIncident))
         (Incident.Title createdIncident) (Incident.Severity createdIncident)) ;;;
    ret createdIncident.

Definition GetByID (id : string) : M Incident.t :=
  on_error (repository.GetByID id) (Wrapf "failed to get incident").

Definition AddWatcherToIncident (incidentID : string) (watcher : Watcher.t)
  : M Incident.t :=
  _ <- on_error (repository.GetByID incidentID) (Wrapf "incident not found") ;;
  match validateEmail (Watcher.Email watcher) with
  | Some conditionErr => fail (Wrapf "invalid email" conditionErr)
  | None =>
      on_error (repository.AddWatcherToIncident incidentID watcher)
        (Wrapf "failed to add watcher to incident")
  end.

Definition UpdateIncidentStatus (id : string) (req : UpdateIncidentStatusRequest.t)
  : M Incident.t :=
  if negb (IncidentStatus_IsValid (UpdateIncidentStatusRequest.Status req)) then
    fail (Errorf ("invalid status: " ++ UpdateIncidentStatusRequest.Status req))
  else
    existingIncident <- on_error (repository.GetByID id) (Wrapf "incident not found") ;;
    match validateStatusTransition (Incident.Status existingIncident)
            (UpdateIncidentStatusRequest.Status req) with
    | Some err => fail (Wrapf "invalid status transition" err)
    | None =>
        updatedIncident <-
          on_error
            (repository.UpdateStatus (primitive.Hex (Incident.ID existingIncident))
               (UpdateIncidentStatusRequest.Status req))
            (Wrapf "failed to update incident status") ;;
        (if negb (String.eqb (strings.Trim (UpdateIncidentStatusRequest.AuthorEmail req) " ") "")
         then
           _ <- on_error
                  (AddWatcherToIncident id
                     (Watcher.mk (UpdateIncidentStatusRequest.AuthorEmail req)))
                  (Wrapf "status updated but failed to add watcher to incident") ;;
           ret tt
         else ret tt) ;;;
        eventKey <- NewObjectID ;;
        kafka.ProduceMessage
          (IncidentStatusUpdated (primitive.Hex eventKey)
             (primitive.Hex (Incident.ID updatedIncident))
             (Incident.Title updatedIncident) (Incident.Status updatedIncident)) ;;;
        ret updatedIncident
    end.

Definition UpdateIncidentSeverity (id : string) (req : UpdateIncidentSeverityRequest.t)
  : M Incident.t :=
  if negb (IncidentSeverity_IsValid (UpdateIncidentSeverityRequest.Severity req)) then
    fail (Errorf ("invalid severity: " ++ UpdateIncidentSeverityRequest.Severity req))
  else
    _ <- on_error (repository.GetByID id) (Wrapf "incident not found") ;;
    updatedIncident <-
      on_error (repository.UpdateSeverity id (UpdateIncidentSeverityRequest.Severity req))
        (Wrapf "failed to update incident severity") ;;
    (if negb (String.eqb (strings.Trim (UpdateIncidentSeverityRequest.AuthorEmail req) " ") "")
     then
       _ <- on_error
              (AddWatcherToIncident id
                 (Watcher.mk (UpdateIncidentSeverityRequest.AuthorEmail req)))
              (Wrapf "updated incident severity but failed to add watcher to incident") ;;
       ret tt
     else ret tt) ;;;
    eventKey <- NewObjectID ;;
    kafka.ProduceMessage
      (IncidentSeverityUpdated (primitive.Hex eventKey)
         (primitive.Hex (Incident.ID updatedIncident))
         (Incident.Title updatedIncident) (Incident.Severity updatedIncident)) ;;;
    ret updatedIncident.

Definition AddNoteToIncident (incidentID : string) (req : AddNoteRequest.t)
  : M Incident.t :=
  existingIncident <- on_error (repository.GetByID incidentID)
                        (Wrapf "incident not found") ;;
  let note :=
    Note.mk primitive.NilObjectID (AddNoteRequest.Content req) zero_Time
      (AddNoteRequest.AuthorEmail req) (AddNoteRequest.Type_ req) in
  updatedIncident <-
    on_error (repository.AddNote (primitive.Hex (Incident.ID existingIncident)) note)
      (Wrapf "failed to add note to incident") ;;
  eventKey <- NewObjectID ;;
  kafka.ProduceMessage
    (IncidentNoteAdded (primitive.Hex eventKey)
       (primitive.Hex (Incident.ID updatedIncident))
       (Incident.Title updatedIncident) (Note.Content note)) ;;;
  ret updatedIncident.

Definition GetAllIncidents : M (list Incident.t) :=
  on_error repository.GetAllIncidents (Wrapf "failed to get incidents").

End Service.
End services.

(* ------------------------------------------------------------------ *)
(** ** package services, the test double *)

Module MockKafkaProducer.

Definition ProduceMessage (event : KafkaEvent) : M unit := ret tt.

End MockKafkaProducer.

(** [time.Time.IsZero]. *)
Definition Time_IsZero (t : Time) : bool := t =? 0.

Module MockIncidentRepository.
Section Mock.

Context {R : Runtime}.

(** The loop over [incident.Notes]: an id and an instant are drawn only for
    the notes that lack them. *)
Fixpoint fill_notes (notes : list Note.t) : M (list Note.t) :=
  match notes with
  | [] => ret []
  | note :: rest =>
      id <- (if primitive.IsZero (Note.ID note) then NewObjectID
             else ret (Note.ID note)) ;;
      createdAt <- (if Time_IsZero (Note.CreatedAt note) then time_Now
                    else ret (Note.CreatedAt note)) ;;
      rest' <- fill_notes rest ;;
      ret (Note.mk id (Note.Content note) createdAt (Note.AuthorEmail note)
             (Note.Type_ note) :: rest')
  end.

(** Nothing is stored, and the clock is read once for each of the two
    instants of the incident. *)
Definition Create (incident : Incident.t) : M Incident.t :=
  id <- NewObjectID ;;
  createdAt <- time_Now ;;
  updatedAt <- time_Now ;;
  notes <- fill_notes (Incident.Notes incident) ;;
  ret (Incident.mk id (Incident.IncidentKey incident) (Incident.Title incident)
         (Incident.Severity incident) (Incident.Status incident) createdAt updatedAt
         notes (Incident.WatchList incident) (Incident.CreatedBy incident)
         (Incident.Description incident) (Incident.Assignee incident)).

End Mock.
End MockIncidentRepository.

Module TestableIncidentService.
Section Testable.

Context {R : Runtime}.

(** The fields that the struct literal does not list take their zero
    values: the key is 0, the description and the assignee are empty. *)
Definition CreateIncident (req : CreateIncidentRequest.t) : M Incident.t :=
  if negb (IncidentSeverity_IsValid (CreateIncidentRequest.Severity req)) then
    fail (Errorf ("invalid severity: " ++ CreateIncidentRequest.Severity req))
  else
    notes <- match CreateIncidentRequest.Notes req with
             | Some supplied => services.stamp_notes supplied
             | None => ret []
             end ;;
    let incident :=
      Incident.mk primitive.NilObjectID 0 (CreateIncidentRequest.Title req)
        (CreateIncidentRequest.Severity req) Open services.zero_Time services.zero_Time
        notes [Watcher.mk (CreateIncidentRequest.AuthorEmail req)]
        (CreateIncidentRequest.AuthorEmail req) "" "" in
    createdIncident <- on_error (MockIncidentRepository.Create incident)
                         (Wrapf "failed to create incident") ;;
    eventKey <- NewObjectID ;;
    MockKafkaProducer.ProduceMessage
      (IncidentCreated (primitive.Hex eventKey)
         (primitive.Hex (Incident.ID createdIncident))
         (Incident.Title createdIncident) (Incident.Severity createdIncident)) ;;;
    ret createdIncident.

End Testable.
End TestableIncidentService.

(* ------------------------------------------------------------------ *)
(** ** package handlers *)

Module handlers.
Section Handler.

Context {R : Runtime}.

Definition StatusCreated : Z := 201.
Definition StatusBadRequest : Z := 400.
Definition StatusNotFound : Z := 404.
Definition StatusInternalServerError : Z := 500.

(** The JSON body: an error message with optional details, or the
    incident under ["data"]. *)
Inductive Body : Type :=
| ErrorJSON (message : string) (details : option string)
| SuccessJSON (data : Incident.t).

Record Response : Type := mkResponse { StatusCode : Z; JSON : Body }.

(** The handlers take the request as [BodyParser] decoded it and the
    [:id] route parameter. *)
Definition CreateIncident (req : CreateIncidentRequest.t) : World -> Response * World :=
  fun w =>
    if String.eqb (CreateIncidentRequest.Title req) "" then
      (mkResponse StatusBadRequest (ErrorJSON "Title is required" None), w)
    else if String.eqb (CreateIncidentRequest.Severity req) "" then
      (mkResponse StatusBadRequest (ErrorJSON "Severity is required" None), w)
    else
      match services.CreateIncident req w with
      | (Err err, w') =>
          (mkResponse StatusInternalServerError
             (ErrorJSON "Failed to create incident" (Some (Error err))), w')
      | (Ok incident, w') => (mkResponse StatusCreated (SuccessJSON incident), w')
      end.

Definition AddNoteToIncident (id : string) (req : AddNoteRequest.t)
  : World -> Response * World :=
  fun w =>
    if String.eqb id "" then
      (mkResponse StatusBadRequest (ErrorJSON "Incident ID is required" None), w)
    else if String.eqb (AddNoteRequest.Content req) "" then
      (mkResponse StatusBadRequest (ErrorJSON "Note content is required" None), w)
    else
      match services.AddNoteToIncident id req w with
      | (Err err, w') =>
          if String.eqb (Error err) "incident not found" then
            (mkResponse StatusNotFound (ErrorJSON "Incident not found" None), w')
          else
            (mkResponse StatusInternalServerError
               (ErrorJSON "Failed to add note to incident" (Some (Error err))), w')
      | (Ok incident, w') => (mkResponse StatusCreated (SuccessJSON incident), w')
      end.

Definition StatusOK : Z := 200.

(** The body of the listing: an error message with details, or the
    incidents under ["data"]. *)
Inductive ListBody : Type :=
| ErrorListJSON (message : string) (details : option string)
| SuccessListJSON (data : list Incident.t).

Record ListResponse : Type := mkListResponse { ListStatusCode : Z; ListJSON : ListBody }.

Definition GetAllIncidents : World -> ListResponse * World :=
  fun w =>
    match services.GetAllIncidents w with
    | (Err err, w') =>
        (mkListResponse StatusInternalServerError
           (ErrorListJSON "Failed to retrieve incidents" (Some (Error err))), w')
    | (Ok incidents, w') => (mkListResponse StatusOK (SuccessListJSON incidents), w')
    end.

Definition GetIncidentByID (id : string) : World -> Response * World :=
  fun w =>
    if String.eqb id "" then
      (mkResponse StatusBadRequest (ErrorJSON "Incident ID is required" None), w)
    else
      match services.GetByID id w with
      | (Err err, w') =>
          if String.eqb (Error err) "incident not found"
             || String.eqb (Error err) "no documents found" then
            (mkResponse StatusNotFound (ErrorJSON "Incident not found" None), w')
          else
            (mkResponse StatusInternalServerError
               (ErrorJSON "Failed to retrieve incident" (Some (Error err))), w')
      | (Ok incident, w') => (mkResponse StatusOK (SuccessJSON incident), w')
      end.

Definition UpdateIncidentStatus (id : string) (req : UpdateIncidentStatusRequest.t)
  : World -> Response * World :=
  fun w =>
    if String.eqb id "" then
      (mkResponse StatusBadRequest (ErrorJSON "Incident ID is required" None), w)
    else if String.eqb (UpdateIncidentStatusRequest.Status req) "" then
      (mkResponse StatusBadRequest (ErrorJSON "Status is required" None), w)
    else
      match services.UpdateIncidentStatus id req w with
      | (Err err, w') =>
          if String.eqb (Error err) "incident not found" then
            (mkResponse StatusNotFound (ErrorJSON "Incident not found" None), w')
          else
            (mkResponse StatusBadRequest
               (ErrorJSON "Failed to update incident status" (Some (Error err))), w')
      | (Ok incident, w') => (mkResponse StatusOK (SuccessJSON incident), w')
      end.

Definition UpdateIncidentSeverity (id : string) (req : UpdateIncidentSeverityRequest.t)
  : World -> Response * World :=
  fun w =>
    if String.eqb id "" then
      (mkResponse StatusBadRequest (ErrorJSON "Incident ID is required" None), w)
    else if String.eqb (UpdateIncidentSeverityRequest.Severity req) "" then
      (mkResponse StatusBadRequest (ErrorJSON "Severity is required" None), w)
    else
      match services.UpdateIncidentSeverity id req w with
      | (Err err, w') =>
          if String.eqb (Error err) "incident not found" then
            (mkResponse StatusNotFound (ErrorJSON "Incident not found" None), w')
          else
            (mkResponse StatusBadRequest
               (ErrorJSON "Failed to update incident severity" (Some (Error err))), w')
      | (Ok incident, w') => (mkResponse StatusOK (SuccessJSON incident), w')
      end.

Definition AddWatcherToIncident (id : string) (req : Watcher.t)
  : World -> Response * World :=
  fun w =>
    if String.eqb id "" then
      (mkResponse StatusBadRequest (ErrorJSON "Incident ID is required" None), w)
    else
      match services.AddWatcherToIncident id req w with
      | (Err err, w') =>
          if String.eqb (Error err) "incident not found" then
            (mkResponse StatusNotFound (ErrorJSON "Incident not found" None), w')
          else
            (mkResponse StatusInternalServerError
               (ErrorJSON "Failed to add watcher to incident" (Some (Error err))), w')
      | (Ok incident, w') => (mkResponse StatusCreated (SuccessJSON incident), w')
      end.

End Handler.
End handlers.

(* ------------------------------------------------------------------ *)
(** ** package config *)

(** [os.Getenv] is a function from names to values, the empty string for
    a variable that is not set. *)
Module config.

Definition getEnvWithDefault (getenv : string -> string) (key defaultValue : string)
  : string :=
  let value := getenv key in
  if negb (String.eqb value "") then value else defaultValue.

Definition maskURI (uri : string) : string :=
  if (20 <? String.length uri)%nat then substring 0 20 uri ++ "..." else uri.

End config.

(* ------------------------------------------------------------------ *)
(** ** Specification-side notions *)

(** The transition table of the lifecycle, row by row. *)
Inductive transition_table : IncidentStatus -> IncidentStatus -> Prop :=
| open_to_in_progress : transition_table "open" "in_progress"
| open_to_resolved : transition_table "open" "resolved"
| open_to_closed : transition_table "open" "closed"
| in_progress_to_open : transition_table "in_progress" "open"
| in_progress_to_resolved : transition_table "in_progress" "resolved"
| in_progress_to_closed : transition_table "in_progress" "closed"
| resolved_to_open : transition_table "resolved" "open"
| resolved_to_in_progress : transition_table "resolved" "in_progress"
| resolved_to_closed : transition_table "resolved" "closed"
| closed_to_open : transition_table "closed" "open".


(** The error of a chained watcher add that failed after the status was
    written. *)
Definition PartialFailure (cause : error) : error :=
  Wrapf "status updated but failed to add watcher to incident" cause.

(** An author e-mail that consists of blanks only is treated as absent. *)
Definition blank (email : string) : Prop := strings.Trim email " " = "".

(** Number of occurrences of an e-mail in a watch list. *)
Definition occurrences (email : string) (l : list Watcher.t) : nat :=
  List.length (filter (fun x => String.eqb (Watcher.Email x) email) l).

(** Every id in the store was handed out by an earlier call of the
    generator. *)
Definition ids_drawn {R : Runtime} (w : World) : Prop :=
  forall d, In d (collection w) ->
    exists i, (i < oid_calls w)%nat /\ Incident.ID d = NewObjectID_at i.

(** The generator has not repeated an id within its first [n] calls. *)
Definition distinct_upto {R : Runtime} (n : nat) : Prop :=
  forall i j, (i < j)%nat -> (j < n)%nat -> NewObjectID_at i <> NewObjectID_at j.

(** Every stored key is a Go [int] below the greatest one. *)
Definition keys_below_max (w : World) : Prop :=
  forall d, In d (collection w) ->
    minInt <= Incident.IncidentKey d < maxInt.

(** [m] is the highest incident key in the store. *)
Definition highest_key (docs : list Incident.t) (m : Z) : Prop :=
  (exists d, In d docs /\ Incident.IncidentKey d = m) /\
  (forall d, In d docs -> Incident.IncidentKey d <= m).

(** A creation request that passes the checks of the service: a severity
    of the enumeration and an author e-mail that is absent or well formed. *)
Definition valid_creation {R : Runtime} (req : CreateIncidentRequest.t) : Prop :=
  In (CreateIncidentRequest.Severity req) ValidSeverities /\
  (blank (CreateIncidentRequest.AuthorEmail req) \/
   checkmail_ValidateFormat (CreateIncidentRequest.AuthorEmail req) = true).

(** What the steps of [CreateIncident] compute, as pure functions of the
    world in which the call starts. *)
Fixpoint stamped {R : Runtime} (notes : list Note.t) (i j : nat) : list Note.t :=
  match notes with
  | [] => []
  | note :: rest =>
      Note.mk (NewObjectID_at i) (Note.Content note) (Now_at j) (Note.AuthorEmail note) ""
        :: stamped rest (S i) (S j)
  end.

Definition supplied_notes (req : CreateIncidentRequest.t) : list Note.t :=
  match CreateIncidentRequest.Notes req with
  | Some supplied => supplied
  | None => []
  end.

Definition initial_watchers (email : string) : list Watcher.t :=
  if negb (String.eqb (strings.Trim email " ") "") then [Watcher.mk email] else [].

Definition next_key (docs : list Incident.t) : Z :=
  match mongo.find_greatest Incident.IncidentKey docs with
  | Some incident => int_add (Incident.IncidentKey incident) 1
  | None => 1
  end.

Definition created_incident {R : Runtime} (req : CreateIncidentRequest.t) (w : World)
  : Incident.t :=
  let n := List.length (supplied_notes req) in
  Incident.mk (NewObjectID_at (oid_calls w + n)) (next_key (collection w))
    (CreateIncidentRequest.Title req) (CreateIncidentRequest.Severity req) Open
    (Now_at (now_calls w + n)) (Now_at (now_calls w + n))
    (stamped (supplied_notes req) (oid_calls w) (now_calls w))
    (initial_watchers (CreateIncidentRequest.AuthorEmail req))
    (CreateIncidentRequest.AuthorEmail req) (CreateIncidentRequest.Description req)
    (CreateIncidentRequest.Assignee req).

(** Strings of decimal digits, and the sign bytes that [Atoi] strips. *)
Fixpoint all_decimal (s : string) : bool :=
  match s with
  | "" => true
  | String c rest => (48 <=? byte_val c) && (byte_val c <=? 57) && all_decimal rest
  end.

Definition is_sign (c : ascii) : bool := Ascii.eqb c "-" || Ascii.eqb c "+".

(** The decimal rendering of an incident key, as a client writes it in the
    route: the digits are produced from the least significant one, and
    twenty of them are enough for a 64-bit integer. *)
Definition digit_char (d : Z) : ascii := ascii_of_N (Z.to_N (48 + d)).

Fixpoint decimal_digits (fuel : nat) (n : Z) (acc : string) : string :=
  match fuel with
  | O => acc
  | S fuel' =>
      let acc' := String (digit_char (n mod 10)) acc in
      if n <? 10 then acc' else decimal_digits fuel' (n / 10) acc'
  end.

Definition decimal (k : Z) : string :=
  if k <? 0 then String "-" (decimal_digits 20 (- k) "")
  else decimal_digits 20 k "".

(** [strings.Repeat] of a one-byte string. *)
Fixpoint Repeat (c : ascii) (count : nat) : string :=
  match count with
  | O => ""
  | S n => String c (Repeat c n)
  end.

(** How a stored incident may change over time: its id, key, title,
    creation instant, creator, description and assignee stay; notes are
    only appended; watchers are only added. *)
Definition evolves (d d' : Incident.t) : Prop :=
  Incident.ID d' = Incident.ID d /\
  Incident.IncidentKey d' = Incident.IncidentKey d /\
  Incident.Title d' = Incident.Title d /\
  Incident.CreatedAt d' = Incident.CreatedAt d /\
  Incident.CreatedBy d' = Incident.CreatedBy d /\
  Incident.Description d' = Incident.Description d /\
  Incident.Assignee d' = Incident.Assignee d /\
  (exists added, Incident.Notes d' = (Incident.Notes d ++ added)%list) /\
  (forall x, In x (Incident.WatchList d) -> In x (Incident.WatchList d')).

(** How the world may change: the stored incidents evolve in place, new
    ones come after them, and the counters of the generator and of the
    clock do not go back. *)
Definition store_evolves (w w' : World) : Prop :=
  (exists kept created,
     collection w' = (kept ++ created)%list /\
     Forall2 evolves (collection w) kept) /\
  (oid_calls w <= oid_calls w')%nat /\
  (now_calls w <= now_calls w')%nat.

(** A stored incident whose status and severity are of their enumerations
    and whose watch list is a set; a store of such incidents. *)
Definition doc_valid (d : Incident.t) : Prop :=
  In (Incident.Status d) ValidStatuses /\
  In (Incident.Severity d) ValidSeverities /\
  (forall email, (occurrences email (Incident.WatchList d) <= 1)%nat).

Definition fields_valid (w : World) : Prop :=
  forall d, In d (collection w) -> doc_valid d.

(** A computation under which the world only evolves, and one that keeps a
    property of the world, whatever they return. *)
Definition evolving {A : Type} (m : M A) : Prop :=
  forall w r w', m w = (r, w') -> store_evolves w w'.

Definition keeps {A : Type} (P : World -> Prop) (m : M A) : Prop :=
  forall w r w', P w -> m w = (r, w') -> P w'.

(** An error that the handlers would take for a missing incident: one that
    renders as one of the two bare messages they compare with.  A
    computation none of whose errors is such. *)
Definition bare (e : error) : bool :=
  String.eqb (Error e) "incident not found" || String.eqb (Error e) "no documents found".

Definition never_bare {A : Type} (m : M A) : Prop :=
  forall w e w', m w = (Err e, w') -> bare e = false.

Ltac case_eqb a b :=
  let E := fresh "E" in
  destruct (String.eqb a b) eqn:E;
  [apply String.eqb_eq in E; try subst b | apply String.eqb_neq in E].

(** Closes [never_bare] for a call wrapped under a message that is not one
    of the bare ones. *)
Ltac wrapped :=
  let w := fresh "w" in let e := fresh "e" in let w' := fresh "w'" in
  let r := fresh "r" in let w1 := fresh "w1" in let H := fresh "H" in
  intros w e w'; unfold on_error;
  match goal with
  | |- (match ?m w with _ => _ end) = _ -> _ =>
      destruct (m w) as [[r|r] w1]; intros H; inversion H; subst; reflexivity
  end.

(** The storage id and the key of each stored incident, in storage order. *)
Definition identities (w : World) : list (primitive.ObjectID * Z) :=
  map (fun d => (Incident.ID d, Incident.IncidentKey d)) (collection w).

(** A world with the given identities in which the generator has been
    called at least [n] times. *)
Definition identified (ids : list (primitive.ObjectID * Z)) (n : nat) (w : World)
  : Prop :=
  identities w = ids /\ (n <= oid_calls w)%nat.

(** No two stored incidents share a storage id, nor a key. *)
Definition unique_ids (w : World) : Prop :=
  NoDup (map Incident.ID (collection w)).

Definition unique_keys (w : World) : Prop :=
  NoDup (map Incident.IncidentKey (collection w)).

(** Every stored id came from the generator, and ids and keys identify. *)
Definition well_identified {R : Runtime} (w : World) : Prop :=
  ids_drawn w /\ unique_ids w /\ unique_keys w.

(** A clock that never goes back. *)
Definition monotone_clock {R : Runtime} : Prop :=
  forall i j, (i <= j)%nat -> Now_at i <= Now_at j.

(** The instants of a stored incident are in order when the clock has been
    read [n] times: it was not updated before it was created, none of its
    notes is later than its last update, and its last update is not later
    than any reading to come. *)
Definition doc_timely {R : Runtime} (n : nat) (d : Incident.t) : Prop :=
  Incident.CreatedAt d <= Incident.UpdatedAt d /\
  (forall note, In note (Incident.Notes d) ->
     Note.CreatedAt note <= Incident.UpdatedAt d) /\
  (forall k, (n <= k)%nat -> Incident.UpdatedAt d <= Now_at k).

Definition timely {R : Runtime} (w : World) : Prop :=
  forall d, In d (collection w) -> doc_timely (now_calls w) d.

(** [CreateIncident] called for each request in turn. *)
Fixpoint create_each {R : Runtime} (reqs : list CreateIncidentRequest.t)
  : M (list Incident.t) :=
  match reqs with
  | [] => ret []
  | req :: rest =>
      incident <- services.CreateIncident req ;;
      others <- create_each rest ;;
      ret (incident :: others)
  end.

(** Two statuses joined by a transition that the service accepts. *)
Definition step (from to : IncidentStatus) : Prop :=
  services.validateStatusTransition from to = None.

(* ------------------------------------------------------------------ *)
(** ** A concrete environment for worked examples *)

(** Ids that differ in their last three bytes, a clock that advances by one
    at each reading, and a format check that asks for one [@] with text on
    both sides. *)
Definition example_oid (n : nat) : primitive.ObjectID :=
  primitive.mkObjectID x65 xa1 xb2 xc3 xd4 xe5 xf6 x07 x18
    (hex.byte_of_Z (Z.of_nat n / 65536)) (hex.byte_of_Z (Z.of_nat n / 256))
    (hex.byte_of_Z (Z.of_nat n)).

Fixpoint count_at (s : string) : nat :=
  match s with
  | "" => O
  | String c rest => if Ascii.eqb c "@" then S (count_at rest) else count_at rest
  end.

Definition example_format (email : string) : bool :=
  match email with
  | "" => false
  | String c _ =>
      negb (Ascii.eqb c "@") && Nat.eqb (count_at email) 1
      && String.eqb (strings.TrimRight email "@") email
  end.

Definition example_runtime : Runtime :=
  {| NewObjectID_at := example_oid;
     Now_at := fun n => 1700000000 + Z.of_nat n;
     checkmail_ValidateFormat := example_format |}.

Definition empty_world : World := mkWorld [] 0 0.

(** An incident as [CreateIncident] stores it on the empty store. *)
Definition first_incident : Incident.t :=
  Incident.mk (example_oid 0) 1 "Database Connection Failed" Critical Open
    1700000000 1700000000 [] [Watcher.mk "a@b.com"] "a@b.com" "" "".

Definition one_incident_world : World := mkWorld [first_incident] 2 1.

(** An incident whose storage id, read as hexadecimal digits, is its own key
    padded with zeros. *)
Definition padded_incident : Incident.t :=
  Incident.mk (primitive.mkObjectID x00 x00 x00 x00 x00 x00 x00 x00 x00 x00 x00 x01)
    1 "Imported from the old tracker" Low Open 0 0 [] [] "" "" "".

(* ================================================================== *)
(** * Properties *)

Unset Implicit Arguments.

(** ** Worked evaluations of the library routines *)

Example Atoi_42 : strconv.Atoi "42" = Ok 42.
Proof. reflexivity. Qed.
Example Atoi_neg : strconv.Atoi "-17" = Ok (-17).
Proof. reflexivity. Qed.
Example Atoi_hex : strconv.Atoi "65a1b2c3d4e5f60718293a4b" = Err (ErrSyntax "Atoi" "65a1b2c3d4e5f60718293a4b").
Proof. reflexivity. Qed.
Example Atoi_big : strconv.Atoi "9223372036854775808" = Err (ErrRange "Atoi" "9223372036854775808").
Proof. reflexivity. Qed.
Example Atoi_max : strconv.Atoi "9223372036854775807" = Ok 9223372036854775807.
Proof. reflexivity. Qed.
Example Atoi_min : strconv.Atoi "-9223372036854775808" = Ok (-9223372036854775808).
Proof. reflexivity. Qed.
Example Atoi_empty : strconv.Atoi "" = Err (ErrSyntax "Atoi" "").
Proof. reflexivity. Qed.
Example Atoi_padded : strconv.Atoi "000000000000000000000001" = Ok 1.
Proof. reflexivity. Qed.
Example ObjectIDFromHex_sample :
  primitive.ObjectIDFromHex "65A1b2c3d4e5f60718293a4b"
  = Ok (primitive.mkObjectID x65 xa1 xb2 xc3 xd4 xe5 xf6 x07 x18 x29 x3a x4b).
Proof. reflexivity. Qed.
Example Hex_sample :
  primitive.Hex (primitive.mkObjectID x65 xa1 xb2 xc3 xd4 xe5 xf6 x07 x18 x29 x3a x4b)
  = "65a1b2c3d4e5f60718293a4b".
Proof. reflexivity. Qed.
Example ObjectIDFromHex_decimal : primitive.ObjectIDFromHex "1" = Err ErrInvalidHex.
Proof. reflexivity. Qed.
Example ObjectIDFromHex_badchar :
  primitive.ObjectIDFromHex "65a1b2c3d4e5f60718293a4g" = Err (InvalidByteError "g").
Proof. reflexivity. Qed.

(* ------------------------------------------------------------------ *)
(** ** Object ids and their hexadecimal form *)

Lemma bytes_eqb_refl (l : list byte) : primitive.bytes_eqb l l = true.
Proof.
  induction l as [|c l IH]; simpl; [reflexivity|].
  rewrite IH, andb_true_r. now apply Byte.byte_dec_lb.
Qed.

Lemma bytes_eqb_eq (l1 l2 : list byte) : primitive.bytes_eqb l1 l2 = true -> l1 = l2.
Proof.
  revert l2; induction l1 as [|c1 l1 IH]; intros [|c2 l2]; simpl; try easy.
  intros H. apply andb_true_iff in H as [Hc Hl].
  apply Byte.byte_dec_bl in Hc. f_equal; auto.
Qed.

Lemma of_bytes_bytes (id : primitive.ObjectID) :
  primitive.of_bytes (primitive.bytes id) = Some id.
Proof. destruct id; reflexivity. Qed.

Lemma oid_eqb_refl (id : primitive.ObjectID) : primitive.eqb id id = true.
Proof. apply bytes_eqb_refl. Qed.

Lemma oid_eqb_eq (a b : primitive.ObjectID) : primitive.eqb a b = true -> a = b.
Proof.
  intros H. apply bytes_eqb_eq in H.
  assert (E : Some a = Some b)
    by (rewrite <- (of_bytes_bytes a), <- (of_bytes_bytes b); now rewrite H).
  now inversion E.
Qed.

(** One byte survives encoding and decoding. *)
Lemma hex_byte_roundtrip (v : byte) :
  exists a b,
    hex.fromHexChar (hex.hexdigit (Z.shiftr (hex.Z_of_byte v) 4)) = Some a /\
    hex.fromHexChar (hex.hexdigit (Z.land (hex.Z_of_byte v) 15)) = Some b /\
    hex.byte_of_Z (Z.lor (Z.shiftl a 4) b) = v.
Proof.
  destruct v; vm_compute; eexists; eexists; repeat split; reflexivity.
Qed.

Lemma hex_roundtrip (l : list byte) :
  hex.DecodeString (hex.EncodeToString l) = Ok l.
Proof.
  induction l as [|v l IH]; [reflexivity|].
  destruct (hex_byte_roundtrip v) as (a & b & Ha & Hb & Hv).
  cbn [hex.EncodeToString hex.DecodeString].
  rewrite Ha, Hb, IH, Hv. reflexivity.
Qed.

Lemma hex_length (l : list byte) :
  String.length (hex.EncodeToString l) = (2 * List.length l)%nat.
Proof. induction l as [|v l IH]; simpl; [reflexivity|]. rewrite IH. lia. Qed.

(** [ObjectIDFromHex(id.Hex())] gives [id] back. *)
Lemma ObjectIDFromHex_Hex (id : primitive.ObjectID) :
  primitive.ObjectIDFromHex (primitive.Hex id) = Ok id.
Proof.
  unfold primitive.ObjectIDFromHex, primitive.Hex.
  rewrite hex_length, hex_roundtrip, of_bytes_bytes.
  destruct id; reflexivity.
Qed.

(** A string accepted as an object id has exactly 24 bytes. *)
Lemma ObjectIDFromHex_length (s : string) (id : primitive.ObjectID) :
  primitive.ObjectIDFromHex s = Ok id -> String.length s = 24%nat.
Proof.
  unfold primitive.ObjectIDFromHex.
  destruct (Nat.eqb (String.length s) 24) eqn:E; simpl; [|discriminate].
  intros _. now apply Nat.eqb_eq.
Qed.

Lemma ObjectIDFromHex_wrong_length (s : string) :
  String.length s <> 24%nat -> primitive.ObjectIDFromHex s = Err ErrInvalidHex.
Proof.
  intros H. unfold primitive.ObjectIDFromHex.
  apply Nat.eqb_neq in H. now rewrite H.
Qed.

(* ------------------------------------------------------------------ *)
(** ** The store primitives *)

Lemma find_first_In (filter : Incident.t -> bool) (docs : list Incident.t) (d : Incident.t) :
  mongo.find_first filter docs = Some d -> In d docs /\ filter d = true.
Proof.
  induction docs as [|x docs IH]; simpl; [discriminate|].
  destruct (filter x) eqn:E.
  - intros H; inversion H; subst; auto.
  - intros H; destruct (IH H); auto.
Qed.

Lemma find_first_exists (filter : Incident.t -> bool) (docs : list Incident.t) (d : Incident.t) :
  In d docs -> filter d = true -> exists d', mongo.find_first filter docs = Some d'.
Proof.
  induction docs as [|x docs IH]; simpl; [easy|].
  intros Hin Hf. destruct (filter x) eqn:E; [eauto|].
  destruct Hin as [->|Hin]; [congruence|auto].
Qed.

(** [update_first] rewrites the document that [find_first] selects. *)
Lemma update_first_found (filter : Incident.t -> bool) (update : Incident.t -> Incident.t)
    (docs : list Incident.t) (d : Incident.t) :
  mongo.find_first filter docs = Some d ->
  exists docs',
    mongo.update_first filter update docs = Some (update d, docs') /\
    In (update d) docs' /\
    (forall x, In x docs' -> x = update d \/ In x docs) /\
    List.length docs' = List.length docs.
Proof.
  induction docs as [|x docs IH]; simpl; [discriminate|].
  destruct (filter x) eqn:E.
  - intros H; inversion H; subst. eexists; split; [reflexivity|].
    simpl; repeat split; auto. intros y [<-|Hy]; auto.
  - intros H. destruct (IH H) as (docs' & -> & Hin & Hsub & Hlen).
    eexists; split; [reflexivity|]. simpl; repeat split; auto.
    intros y [<-|Hy]; auto. destruct (Hsub y Hy); auto.
Qed.

(** After the update, the same filter selects the updated document,
    provided the update keeps the filter true. *)
Lemma find_first_after_update (filter : Incident.t -> bool) (update : Incident.t -> Incident.t)
    (docs docs' : list Incident.t) (d : Incident.t) :
  (forall x, filter x = true -> filter (update x) = true) ->
  mongo.update_first filter update docs = Some (d, docs') ->
  mongo.find_first filter docs' = Some d.
Proof.
  intros Hkeep. revert docs' d.
  induction docs as [|x docs IH]; simpl; [discriminate|].
  intros docs' d. destruct (filter x) eqn:E.
  - intros H; inversion H; subst. simpl. now rewrite (Hkeep x E).
  - destruct (mongo.update_first filter update docs) as [[d0 rest]|] eqn:U; [|discriminate].
    intros H; inversion H; subst. simpl. rewrite E. now apply IH.
Qed.

(* ------------------------------------------------------------------ *)
(** ** Running the repository *)

Section RepositoryFacts.

Context {R : Runtime}.

(** [GetByID] reads only: it selects the first incident whose key is the
    decimal value of the id. *)
Lemma GetByID_found (id : string) (w w' : World) (existing : Incident.t) :
  repository.GetByID id w = (Ok existing, w') ->
  w' = w /\
  exists k, strconv.Atoi id = Ok k /\
    mongo.find_first (fun d => Incident.IncidentKey d =? k) (collection w) = Some existing.
Proof.
  unfold repository.GetByID.
  destruct (strconv.Atoi id) as [k|e]; [|discriminate].
  unfold on_error, mongo.FindOne.
  destruct (mongo.find_first _ (collection w)) as [d|] eqn:F; [|discriminate].
  intros H; inversion H; subst. eauto.
Qed.

Lemma GetByID_pure (id : string) (w w' : World) (r : result Incident.t) :
  repository.GetByID id w = (r, w') -> w' = w.
Proof.
  unfold repository.GetByID.
  destruct (strconv.Atoi id) as [k|e]; [|now inversion 1].
  unfold on_error, mongo.FindOne.
  destruct (mongo.find_first _ (collection w)); now inversion 1.
Qed.

Lemma GetByID_by_key (id : string) (k : Z) (w : World) (existing : Incident.t) :
  strconv.Atoi id = Ok k ->
  mongo.find_first (fun d => Incident.IncidentKey d =? k) (collection w) = Some existing ->
  repository.GetByID id w = (Ok existing, w).
Proof.
  intros HA HF. unfold repository.GetByID, on_error, mongo.FindOne.
  now rewrite HA, HF.
Qed.

(** A fetched incident is in the store, so is a document with its id. *)
Lemma fetched_has_id (id : string) (w : World) (existing : Incident.t) :
  repository.GetByID id w = (Ok existing, w) ->
  exists d,
    mongo.find_first (fun x => primitive.eqb (Incident.ID x) (Incident.ID existing))
      (collection w) = Some d /\
    Incident.ID d = Incident.ID existing.
Proof.
  intros H. apply GetByID_found in H as (_ & k & _ & HF).
  apply find_first_In in HF as [Hin _].
  destruct (find_first_exists (fun x => primitive.eqb (Incident.ID x) (Incident.ID existing))
              _ _ Hin (oid_eqb_refl _)) as [d Hd].
  exists d; split; [exact Hd|].
  apply find_first_In in Hd as [_ Hd]. now apply oid_eqb_eq.
Qed.

(** The status write, addressed by the hexadecimal form of a stored id. *)
Lemma UpdateStatus_by_hex (w : World) (oid : primitive.ObjectID)
    (status : IncidentStatus) (d : Incident.t) :
  mongo.find_first (fun x => primitive.eqb (Incident.ID x) oid) (collection w) = Some d ->
  exists docs',
    repository.UpdateStatus (primitive.Hex oid) status w
    = (Ok (mongo.set_status status (Now_at (now_calls w)) d),
       mkWorld docs' (oid_calls w) (S (now_calls w))) /\
    mongo.update_first (fun x => primitive.eqb (Incident.ID x) oid)
      (mongo.set_status status (Now_at (now_calls w))) (collection w)
    = Some (mongo.set_status status (Now_at (now_calls w)) d, docs').
Proof.
  intros HF.
  destruct (update_first_found _ (mongo.set_status status (Now_at (now_calls w))) _ _ HF)
    as (docs' & HU & _).
  exists docs'. split; [|exact HU].
  unfold repository.UpdateStatus. rewrite ObjectIDFromHex_Hex.
  unfold bind, on_error, time_Now, mongo.FindOneAndUpdate. simpl.
  now rewrite HU.
Qed.

End RepositoryFacts.

(* ------------------------------------------------------------------ *)
(** ** The transition rule *)

Lemma valid_status_cases (s : IncidentStatus) :
  In s ValidStatuses ->
  s = "open" \/ s = "in_progress" \/ s = "resolved" \/ s = "closed".
Proof. simpl. intuition auto. Qed.



(* ------------------------------------------------------------------ *)
(** ** Running the service *)

Section ServiceFacts.

Context {R : Runtime}.

(** Once the checks have passed, [UpdateIncidentStatus] writes the status
    and then, for a non-blank author, runs the watcher add. *)
Lemma UpdateIncidentStatus_after_checks (w : World) (id : string)
    (req : UpdateIncidentStatusRequest.t) (existing : Incident.t) :
  IncidentStatus_IsValid (UpdateIncidentStatusRequest.Status req) = true ->
  repository.GetByID id w = (Ok existing, w) ->
  services.validateStatusTransition (Incident.Status existing)
    (UpdateIncidentStatusRequest.Status req) = None ->
  exists d docs',
    Incident.ID d = Incident.ID existing /\
    In (mongo.set_status (UpdateIncidentStatusRequest.Status req) (Now_at (now_calls w)) d) docs' /\
    repository.UpdateStatus (primitive.Hex (Incident.ID existing))
      (UpdateIncidentStatusRequest.Status req) w
    = (Ok (mongo.set_status (UpdateIncidentStatusRequest.Status req) (Now_at (now_calls w)) d),
       mkWorld docs' (oid_calls w) (S (now_calls w))) /\
    services.UpdateIncidentStatus id req w
    = if negb (String.eqb (strings.Trim (UpdateIncidentStatusRequest.AuthorEmail req) " ") "")
      then
        match services.AddWatcherToIncident id
                (Watcher.mk (UpdateIncidentStatusRequest.AuthorEmail req))
                (mkWorld docs' (oid_calls w) (S (now_calls w))) with
        | (Ok _, w3) =>
            (Ok (mongo.set_status (UpdateIncidentStatusRequest.Status req)
                   (Now_at (now_calls w)) d),
             mkWorld (collection w3) (S (oid_calls w3)) (now_calls w3))
        | (Err e, w3) => (Err (PartialFailure e), w3)
        end
      else
        (Ok (mongo.set_status (UpdateIncidentStatusRequest.Status req)
               (Now_at (now_calls w)) d),
         mkWorld docs' (S (oid_calls w)) (S (now_calls w))).
Proof.
  intros HV HG Hyes.
  destruct (fetched_has_id _ _ _ HG) as (d & HFd & HId).
  destruct (UpdateStatus_by_hex w (Incident.ID existing)
              (UpdateIncidentStatusRequest.Status req) d HFd) as (docs' & HU & HUF).
  destruct (update_first_found _
              (mongo.set_status (UpdateIncidentStatusRequest.Status req)
                 (Now_at (now_calls w))) _ _ HFd) as (docs2 & HU2 & Hin2 & _).
  rewrite HU2 in HUF. inversion HUF; subst docs2. clear HUF.
  exists d, docs'. repeat split; auto.
  unfold services.UpdateIncidentStatus. rewrite HV. cbn [negb].
  unfold bind, on_error, ret, fail, kafka.ProduceMessage, NewObjectID.
  rewrite HG. cbv beta iota. rewrite Hyes, HU. cbv beta iota zeta.
  destruct (negb _); [|reflexivity].
  destruct (services.AddWatcherToIncident _ _ _) as [[a|e] w3]; reflexivity.
Qed.

(** A store write that fails leaves the collection as it was. *)
Lemma repository_AddWatcher_failure (incidentID : string) (watcher : Watcher.t)
    (w w' : World) (e : error) :
  repository.AddWatcherToIncident incidentID watcher w = (Err e, w') ->
  collection w' = collection w.
Proof.
  unfold repository.AddWatcherToIncident.
  destruct (primitive.ObjectIDFromHex incidentID) as [oid|e0]; [|now inversion 1].
  unfold bind, on_error, time_Now, mongo.FindOneAndUpdate. cbv beta iota.
  cbn [collection].
  destruct (mongo.update_first _ _ (collection w)) as [[d docs]|]; [discriminate|].
  now inversion 1.
Qed.

Lemma services_AddWatcher_failure (incidentID : string) (watcher : Watcher.t)
    (w w' : World) (e : error) :
  services.AddWatcherToIncident incidentID watcher w = (Err e, w') ->
  collection w' = collection w.
Proof.
  unfold services.AddWatcherToIncident, bind, on_error, fail.
  destruct (repository.GetByID incidentID w) as [[x|e0] w1] eqn:HG;
    apply GetByID_pure in HG; subst w1; [|now inversion 1].
  destruct (services.validateEmail (Watcher.Email watcher)); [now inversion 1|].
  destruct (repository.AddWatcherToIncident incidentID watcher w) as [[y|e1] w2] eqn:HA;
    [discriminate|].
  intros H; inversion H; subst. eapply repository_AddWatcher_failure; eauto.
Qed.

End ServiceFacts.

(* ------------------------------------------------------------------ *)
(** ** Running [CreateIncident] *)

Lemma find_greatest_spec (docs : list Incident.t) (m : Incident.t) :
  mongo.find_greatest Incident.IncidentKey docs = Some m ->
  In m docs /\ forall d, In d docs -> Incident.IncidentKey d <= Incident.IncidentKey m.
Proof.
  revert m; induction docs as [|x docs IH]; simpl; [discriminate|].
  intros m. destruct (mongo.find_greatest Incident.IncidentKey docs) as [g|] eqn:G.
  - destruct (IH g eq_refl) as [Hin Hmax].
    destruct (Incident.IncidentKey g >? Incident.IncidentKey x) eqn:C;
      intros H; inversion H; subst; split; auto.
    + intros d [<-|Hd]; [lia|auto].
    + intros d [<-|Hd]; [lia|]. specialize (Hmax d Hd). lia.
  - intros H; inversion H; subst. split; auto.
    destruct docs; [|simpl in G; destruct (mongo.find_greatest _ docs);
                      [destruct (_ >? _)|]; discriminate].
    intros d [<-|[]]; lia.
Qed.

Lemma find_greatest_none (docs : list Incident.t) :
  mongo.find_greatest Incident.IncidentKey docs = None -> docs = [].
Proof.
  destruct docs as [|x docs]; [reflexivity|]. simpl.
  destruct (mongo.find_greatest _ docs); [destruct (_ >? _)|]; discriminate.
Qed.

(** The key computed from the store is one more than the highest key. *)
Lemma next_key_highest (docs : list Incident.t) (m : Z) :
  highest_key docs m -> next_key docs = int_add m 1.
Proof.
  intros [(d & Hd & Hk) Hmax]. unfold next_key.
  destruct (mongo.find_greatest Incident.IncidentKey docs) as [g|] eqn:G.
  - destruct (find_greatest_spec _ _ G) as [Hin Hg].
    specialize (Hg d Hd). specialize (Hmax g Hin). f_equal. lia.
  - apply find_greatest_none in G. subst. destruct Hd.
Qed.

Lemma int_add_no_overflow (m : Z) : minInt <= m < maxInt -> int_add m 1 = m + 1.
Proof.
  unfold minInt, maxInt, int_add, int_wrap. intros H.
  rewrite Z.mod_small; lia.
Qed.

Section CreateFacts.

Context {R : Runtime}.

Lemma GetNextIncidentKey_run (w : World) :
  repository.GetNextIncidentKey w = (Ok (next_key (collection w)), w).
Proof.
  unfold repository.GetNextIncidentKey, mongo.FindOne_sorted_desc, next_key.
  destruct (mongo.find_greatest Incident.IncidentKey (collection w)); reflexivity.
Qed.

Lemma stamp_notes_run (notes : list Note.t) (w : World) :
  services.stamp_notes notes w
  = (Ok (stamped notes (oid_calls w) (now_calls w)),
     mkWorld (collection w) (oid_calls w + List.length notes)
       (now_calls w + List.length notes)).
Proof.
  revert w; induction notes as [|note rest IH]; intros w.
  - simpl. unfold ret. rewrite !Nat.add_0_r. now destruct w.
  - cbn [services.stamp_notes stamped List.length].
    unfold bind at 1. unfold NewObjectID at 1. cbv beta iota.
    unfold bind at 1. unfold time_Now at 1. cbv beta iota.
    unfold bind at 1. rewrite IH. cbn [collection oid_calls now_calls].
    unfold ret. rewrite <- !Nat.add_succ_comm. reflexivity.
Qed.

Lemma stamped_length (notes : list Note.t) (i j : nat) :
  List.length (stamped notes i j) = List.length notes.
Proof. revert i j; induction notes; intros; simpl; auto. Qed.

(** The note at position [k] of the stamped list. *)
Lemma stamped_nth (notes : list Note.t) (i j k : nat) (note : Note.t) :
  nth_error notes k = Some note ->
  nth_error (stamped notes i j) k
  = Some (Note.mk (NewObjectID_at (i + k)) (Note.Content note) (Now_at (j + k))
            (Note.AuthorEmail note) "").
Proof.
  revert i j k; induction notes as [|x rest IH]; intros i j [|k]; simpl; try discriminate.
  - intros H; inversion H; subst. now rewrite !Nat.add_0_r.
  - intros H. rewrite (IH (S i) (S j) k H). now rewrite <- !Nat.add_succ_comm.
Qed.

Lemma IsValid_of_In_severity (s : IncidentSeverity) :
  In s ValidSeverities -> IncidentSeverity_IsValid s = true.
Proof.
  simpl. intros [<-|[<-|[<-|[<-|[]]]]]; reflexivity.
Qed.

(** A valid request is stored: the call returns [created_incident] and
    appends it to the collection. *)
Lemma CreateIncident_run (req : CreateIncidentRequest.t) (w : World) :
  valid_creation req ->
  services.CreateIncident req w
  = (Ok (created_incident req w),
     mkWorld (collection w ++ [created_incident req w])
       (S (S (oid_calls w + List.length (supplied_notes req))))
       (S (now_calls w + List.length (supplied_notes req)))).
Proof.
  intros [Hsev Hmail].
  unfold services.CreateIncident. rewrite (IsValid_of_In_severity _ Hsev). cbn [negb].
  assert (Hnotes :
    (match CreateIncidentRequest.Notes req with
     | Some supplied => services.stamp_notes supplied
     | None => ret []
     end) w
    = (Ok (stamped (supplied_notes req) (oid_calls w) (now_calls w)),
       mkWorld (collection w) (oid_calls w + List.length (supplied_notes req))
         (now_calls w + List.length (supplied_notes req)))).
  { unfold supplied_notes. destruct (CreateIncidentRequest.Notes req).
    - apply stamp_notes_run.
    - unfold ret. simpl. rewrite !Nat.add_0_r. now destruct w. }
  unfold bind at 1. rewrite Hnotes. clear Hnotes.
  assert (Hwatch : forall w1,
    (if negb (String.eqb (strings.Trim (CreateIncidentRequest.AuthorEmail req) " ") "") then
       match services.validateEmail (CreateIncidentRequest.AuthorEmail req) with
       | Some conditionErr => fail (Wrapf "invalid email" conditionErr)
       | None => ret [Watcher.mk (CreateIncidentRequest.AuthorEmail req)]
       end
     else ret []) w1
    = (Ok (initial_watchers (CreateIncidentRequest.AuthorEmail req)), w1)).
  { intros w1. unfold initial_watchers.
    destruct (negb _) eqn:B; [|reflexivity].
    destruct Hmail as [Hb|Hv].
    - unfold blank in Hb. rewrite Hb in B. discriminate.
    - unfold services.validateEmail. now rewrite Hv. }
  unfold bind at 1. rewrite Hwatch. clear Hwatch.
  unfold bind at 1. unfold on_error at 1. rewrite GetNextIncidentKey_run.
  cbn [collection].
  unfold bind, on_error, repository.Create, time_Now, NewObjectID, mongo.InsertOne,
    kafka.ProduceMessage, ret.
  cbn. reflexivity.
Qed.

End CreateFacts.

(** The creation scenario on the empty store: key 1, status open, the
    author as the only watcher. *)
Example create_on_empty_store :
  @services.CreateIncident example_runtime
    (CreateIncidentRequest.mk "Database Connection Failed" Critical "" None "a@b.com" "")
    empty_world
  = (Ok first_incident, one_incident_world).
Proof. reflexivity. Qed.

(** Creation keeps the stored ids among those the generator has handed
    out; the empty store has none. *)
Lemma CreateIncident_keeps_ids_drawn {R : Runtime}
    (req : CreateIncidentRequest.t) (w w' : World) (incident : Incident.t) :
  valid_creation req ->
  ids_drawn w ->
  services.CreateIncident req w = (Ok incident, w') ->
  ids_drawn w'.
Proof.
  intros Hvalid Hdrawn Hrun.
  rewrite (CreateIncident_run req w Hvalid) in Hrun. inversion Hrun; subst. clear Hrun.
  intros d Hd. cbn [collection oid_calls] in *.
  apply in_app_or in Hd as [Hd|[<-|[]]].
  - destruct (Hdrawn d Hd) as (i & Hi & Hid). exists i. split; [lia|exact Hid].
  - exists (oid_calls w + List.length (supplied_notes req))%nat. split; [lia|reflexivity].
Qed.

Lemma empty_world_ids_drawn {R : Runtime} : ids_drawn empty_world.
Proof. intros d []. Qed.

(* ================================================================== *)
(** * The lifecycle claims *)

(** ** Status transitions *)




(** C8. When [UpdateIncidentStatus] has written the new status and the
    chained watcher add (run for an author e-mail that is not blank) then
    fails, the call returns the partial-failure error carrying the cause of
    the watcher failure, and the store keeps the status change: the
    collection is the one the status write produced, and the document with
    the incident's id carries the new status. *)
Theorem UpdateIncidentStatus_partial_failure {R : Runtime}
    (w w2 w3 : World) (id : string) (req : UpdateIncidentStatusRequest.t)
    (existing updated : Incident.t) (cause : error) :
  IncidentStatus_IsValid (UpdateIncidentStatusRequest.Status req) = true ->
  repository.GetByID id w = (Ok existing, w) ->
  services.validateStatusTransition (Incident.Status existing)
    (UpdateIncidentStatusRequest.Status req) = None ->
  repository.UpdateStatus (primitive.Hex (Incident.ID existing))
    (UpdateIncidentStatusRequest.Status req) w = (Ok updated, w2) ->
  ~ blank (UpdateIncidentStatusRequest.AuthorEmail req) ->
  services.AddWatcherToIncident id
    (Watcher.mk (UpdateIncidentStatusRequest.AuthorEmail req)) w2 = (Err cause, w3) ->
  services.UpdateIncidentStatus id req w = (Err (PartialFailure cause), w3) /\
  collection w3 = collection w2 /\
  In updated (collection w3) /\
  Incident.Status updated = UpdateIncidentStatusRequest.Status req /\
  Incident.ID updated = Incident.ID existing.
Proof.
  intros HV HG Hyes HU Hnb HA.
  destruct (UpdateIncidentStatus_after_checks w id req existing HV HG Hyes)
    as (d & docs' & HId & Hin & HU' & Hrun).
  rewrite HU in HU'. inversion HU'; subst updated w2. clear HU'.
  pose proof (services_AddWatcher_failure _ _ _ _ _ HA) as Hkeep.
  rewrite Hrun.
  assert (B : negb (String.eqb
                (strings.Trim (UpdateIncidentStatusRequest.AuthorEmail req) " ") "") = true).
  { apply negb_true_iff. apply String.eqb_neq. exact Hnb. }
  rewrite B, HA. repeat split; auto.
  rewrite Hkeep. exact Hin.
Qed.

Lemma UpdateIncidentStatus_partial_failure_witness :
  exists w3,
    @services.UpdateIncidentStatus example_runtime "1"
      (UpdateIncidentStatusRequest.mk "in_progress" "x@y.z") one_incident_world
    = (Err (PartialFailure
              (Wrapf "failed to add watcher to incident"
                 (Wrapf "invalid incident ID" ErrInvalidHex))), w3) /\
    In (mongo.set_status "in_progress" 1700000001 first_incident) (collection w3).
Proof.
  eexists.
  destruct (@UpdateIncidentStatus_partial_failure example_runtime one_incident_world
              (mkWorld [mongo.set_status "in_progress" 1700000001 first_incident] 2 2)
              (mkWorld [mongo.set_status "in_progress" 1700000001 first_incident] 2 2)
              "1" (UpdateIncidentStatusRequest.mk "in_progress" "x@y.z")
              first_incident (mongo.set_status "in_progress" 1700000001 first_incident)
              (Wrapf "failed to add watcher to incident"
                 (Wrapf "invalid incident ID" ErrInvalidHex)))
    as (Hrun & _ & Hin & _);
    [reflexivity | reflexivity | reflexivity | reflexivity
    | unfold blank; simpl; discriminate | reflexivity |].
  split; [exact Hrun | exact Hin].
Defined.

(** ** Creation *)

(** C2. For every valid creation request, [CreateIncident] returns and
    stores an incident whose status is open whatever the request holds,
    whose creation and update instants are equal, whose id is the one the
    generator hands out during the call (different from the id of every
    incident already stored, when the stored ids come from earlier calls
    of a generator that has not repeated itself), and whose key exceeds
    every stored key (when the stored keys are below the greatest [int]). *)
Theorem CreateIncident_initial_state {R : Runtime}
    (req : CreateIncidentRequest.t) (w : World) :
  valid_creation req ->
  exists incident w',
    services.CreateIncident req w = (Ok incident, w') /\
    Incident.Status incident = Open /\
    Incident.CreatedAt incident = Incident.UpdatedAt incident /\
    In incident (collection w') /\
    Incident.ID incident
    = NewObjectID_at (oid_calls w + List.length (supplied_notes req)) /\
    (ids_drawn w ->
     distinct_upto (S (oid_calls w + List.length (supplied_notes req))) ->
     forall d, In d (collection w) -> Incident.ID d <> Incident.ID incident) /\
    (keys_below_max w ->
     forall d, In d (collection w) ->
       Incident.IncidentKey d < Incident.IncidentKey incident).
Proof.
  intros Hvalid.
  exists (created_incident req w). eexists.
  split; [apply CreateIncident_run; exact Hvalid|].
  cbn [collection created_incident Incident.Status Incident.CreatedAt
         Incident.UpdatedAt Incident.ID Incident.IncidentKey].
  repeat split.
  - apply in_or_app. right. left. reflexivity.
  - intros Hdrawn Hdistinct d Hd Heq.
    destruct (Hdrawn d Hd) as (i & Hi & Hid).
    apply (Hdistinct i (oid_calls w + List.length (supplied_notes req))%nat);
      [lia | lia | congruence].
  - intros Hkeys d Hd. unfold next_key.
    destruct (mongo.find_greatest Incident.IncidentKey (collection w)) as [g|] eqn:G.
    + destruct (find_greatest_spec _ _ G) as [Hin Hmax].
      rewrite (int_add_no_overflow _ (Hkeys g Hin)).
      specialize (Hmax d Hd). lia.
    + apply find_greatest_none in G. rewrite G in Hd. destruct Hd.
Qed.

Lemma example_oid_distinct_3 : @distinct_upto example_runtime 3.
Proof.
  intros i j Hij Hj.
  destruct i as [|[|i]]; destruct j as [|[|[|j]]]; try lia;
    vm_compute; discriminate.
Defined.

Lemma one_incident_world_ids_drawn : @ids_drawn example_runtime one_incident_world.
Proof.
  intros d [<-|[]]. exists 0%nat. split; [simpl; lia | reflexivity].
Defined.

Lemma one_incident_world_keys : keys_below_max one_incident_world.
Proof.
  intros d [<-|[]]. simpl. unfold minInt, maxInt. lia.
Defined.

Lemma critical_request_valid :
  @valid_creation example_runtime
    (CreateIncidentRequest.mk "Cache eviction storm" Critical "" None "a@b.com" "").
Proof.
  split; [simpl; auto | right; reflexivity].
Defined.

Lemma CreateIncident_initial_state_witness :
  exists incident w',
    @services.CreateIncident example_runtime
      (CreateIncidentRequest.mk "Cache eviction storm" Critical "" None "a@b.com" "")
      one_incident_world = (Ok incident, w') /\
    Incident.Status incident = "open" /\
    Incident.CreatedAt incident = Incident.UpdatedAt incident /\
    Incident.ID first_incident <> Incident.ID incident /\
    Incident.IncidentKey first_incident < Incident.IncidentKey incident.
Proof.
  destruct (@CreateIncident_initial_state example_runtime
              (CreateIncidentRequest.mk "Cache eviction storm" Critical "" None "a@b.com" "")
              one_incident_world critical_request_valid)
    as (incident & w' & Hrun & Hst & Htime & _ & _ & Hid & Hkey).
  exists incident, w'. repeat split; auto.
  - apply (Hid one_incident_world_ids_drawn example_oid_distinct_3). simpl; auto.
  - apply (Hkey one_incident_world_keys). simpl; auto.
Defined.

(** C7. The key that [CreateIncident] assigns is 1 when the store holds no
    incident; otherwise it is the highest stored key plus one in 64-bit
    [int] arithmetic, which is the mathematical successor whenever the
    highest key is below the greatest [int]. *)
Theorem CreateIncident_next_key {R : Runtime}
    (req : CreateIncidentRequest.t) (w : World) :
  valid_creation req ->
  exists incident w',
    services.CreateIncident req w = (Ok incident, w') /\
    (collection w = [] -> Incident.IncidentKey incident = 1) /\
    (forall m, highest_key (collection w) m ->
       Incident.IncidentKey incident = int_add m 1 /\
       (minInt <= m < maxInt -> Incident.IncidentKey incident = m + 1)).
Proof.
  intros Hvalid.
  exists (created_incident req w). eexists.
  split; [apply CreateIncident_run; exact Hvalid|].
  cbn [created_incident Incident.IncidentKey]. split.
  - intros ->. reflexivity.
  - intros m Hm. rewrite (next_key_highest _ _ Hm). split; [reflexivity|].
    apply int_add_no_overflow.
Qed.

Lemma CreateIncident_next_key_witness :
  (exists incident w',
     @services.CreateIncident example_runtime
       (CreateIncidentRequest.mk "Cache eviction storm" Critical "" None "a@b.com" "")
       empty_world = (Ok incident, w') /\
     Incident.IncidentKey incident = 1) /\
  (exists incident w',
     @services.CreateIncident example_runtime
       (CreateIncidentRequest.mk "Cache eviction storm" Critical "" None "a@b.com" "")
       one_incident_world = (Ok incident, w') /\
     Incident.IncidentKey incident = 2).
Proof.
  split.
  - destruct (@CreateIncident_next_key example_runtime
                (CreateIncidentRequest.mk "Cache eviction storm" Critical "" None "a@b.com" "")
                empty_world critical_request_valid)
      as (incident & w' & Hrun & Hfirst & _).
    exists incident, w'. split; [exact Hrun | apply Hfirst; reflexivity].
  - destruct (@CreateIncident_next_key example_runtime
                (CreateIncidentRequest.mk "Cache eviction storm" Critical "" None "a@b.com" "")
                one_incident_world critical_request_valid)
      as (incident & w' & Hrun & _ & Hnext).
    exists incident, w'. split; [exact Hrun|].
    apply (Hnext 1).
    + split; [exists first_incident; simpl; auto|].
      intros d [<-|[]]. simpl. lia.
    + unfold minInt, maxInt. lia.
Defined.

(** C10. For every valid creation request that supplies notes, the stored
    incident has one note per supplied note, in the same order; each keeps
    the content and the author e-mail of the request, receives the id of
    the generator and the instant of the clock read for it during the call
    (pairwise different ids when the generator does not repeat itself), and
    has the empty note type, whatever id, instant and type the request
    supplied for it. *)
Theorem CreateIncident_notes {R : Runtime}
    (req : CreateIncidentRequest.t) (w : World) (supplied : list Note.t) :
  valid_creation req ->
  CreateIncidentRequest.Notes req = Some supplied ->
  exists incident w',
    services.CreateIncident req w = (Ok incident, w') /\
    In incident (collection w') /\
    List.length (Incident.Notes incident) = List.length supplied /\
    (forall k note, nth_error supplied k = Some note ->
       exists persisted,
         nth_error (Incident.Notes incident) k = Some persisted /\
         Note.Content persisted = Note.Content note /\
         Note.AuthorEmail persisted = Note.AuthorEmail note /\
         Note.Type_ persisted = "" /\
         Note.ID persisted = NewObjectID_at (oid_calls w + k) /\
         Note.CreatedAt persisted = Now_at (now_calls w + k)) /\
    (distinct_upto (oid_calls w + List.length supplied) ->
     forall k1 k2 p1 p2, k1 <> k2 ->
       nth_error (Incident.Notes incident) k1 = Some p1 ->
       nth_error (Incident.Notes incident) k2 = Some p2 ->
       Note.ID p1 <> Note.ID p2).
Proof.
  intros Hvalid Hnotes.
  exists (created_incident req w). eexists.
  split; [apply CreateIncident_run; exact Hvalid|].
  cbn [collection created_incident Incident.Notes].
  unfold supplied_notes. rewrite Hnotes.
  split; [apply in_or_app; right; left; reflexivity|].
  split; [apply stamped_length|].
  split.
  - intros k note Hk. eexists. split; [apply stamped_nth; exact Hk|].
    cbn. repeat split.
  - intros Hdistinct k1 k2 p1 p2 Hne H1 H2.
    assert (L1 : (k1 < List.length supplied)%nat).
    { rewrite <- (stamped_length supplied (oid_calls w) (now_calls w)).
      apply nth_error_Some. congruence. }
    assert (L2 : (k2 < List.length supplied)%nat).
    { rewrite <- (stamped_length supplied (oid_calls w) (now_calls w)).
      apply nth_error_Some. congruence. }
    destruct (nth_error supplied k1) as [n1|] eqn:E1;
      [|apply nth_error_None in E1; lia].
    destruct (nth_error supplied k2) as [n2|] eqn:E2;
      [|apply nth_error_None in E2; lia].
    rewrite (stamped_nth _ _ _ _ _ E1) in H1. rewrite (stamped_nth _ _ _ _ _ E2) in H2.
    inversion H1; inversion H2; subst. cbn [Note.ID].
    destruct (Nat.lt_total k1 k2) as [Hlt|[Heq|Hgt]]; [|contradiction|].
    + apply Hdistinct; lia.
    + intros Heq. symmetry in Heq. revert Heq. apply Hdistinct; lia.
Qed.

Lemma CreateIncident_notes_witness :
  exists incident w',
    @services.CreateIncident example_runtime
      (CreateIncidentRequest.mk "Cache eviction storm" Critical ""
         (Some [Note.mk primitive.NilObjectID "Eviction rate tripled" 0 "a@b.com" "investigation"])
         "a@b.com" "")
      one_incident_world = (Ok incident, w') /\
    exists persisted,
      nth_error (Incident.Notes incident) 0 = Some persisted /\
      Note.Content persisted = "Eviction rate tripled" /\
      Note.AuthorEmail persisted = "a@b.com" /\
      Note.Type_ persisted = "" /\
      Note.ID persisted = example_oid 2.
Proof.
  destruct (@CreateIncident_notes example_runtime
              (CreateIncidentRequest.mk "Cache eviction storm" Critical ""
                 (Some [Note.mk primitive.NilObjectID "Eviction rate tripled" 0 "a@b.com"
                          "investigation"])
                 "a@b.com" "")
              one_incident_world
              [Note.mk primitive.NilObjectID "Eviction rate tripled" 0 "a@b.com" "investigation"])
    as (incident & w' & Hrun & _ & _ & Hnth & _);
    [split; [simpl; auto | right; reflexivity] | reflexivity |].
  exists incident, w'. split; [exact Hrun|].
  destruct (Hnth 0%nat _ eq_refl) as (persisted & Hp & Hc & Ha & Ht & Hi & _).
  exists persisted. repeat split; assumption.
Defined.

(** ** The watch list *)

Lemma existsb_occurrences (watcher : Watcher.t) (l : list Watcher.t) :
  existsb (Watcher.eqb watcher) l = true <->
  (1 <= occurrences (Watcher.Email watcher) l)%nat.
Proof.
  unfold occurrences, Watcher.eqb.
  induction l as [|x l IH]; simpl; [split; [discriminate|lia]|].
  rewrite (String.eqb_sym (Watcher.Email x)).
  destruct (String.eqb (Watcher.Email watcher) (Watcher.Email x)); simpl.
  - split; [lia|reflexivity].
  - exact IH.
Qed.

Lemma occurrences_app (email : string) (l1 l2 : list Watcher.t) :
  occurrences email (l1 ++ l2) = (occurrences email l1 + occurrences email l2)%nat.
Proof. unfold occurrences. now rewrite filter_app, length_app. Qed.

(** Adding to the set twice is adding once. *)
Lemma addToSet_idempotent (watcher : Watcher.t) (l : list Watcher.t) :
  mongo.addToSet watcher (mongo.addToSet watcher l) = mongo.addToSet watcher l.
Proof.
  unfold mongo.addToSet.
  destruct (existsb (Watcher.eqb watcher) l) eqn:E.
  - now rewrite E.
  - rewrite existsb_app. simpl.
    unfold Watcher.eqb at 2. rewrite String.eqb_refl.
    cbn [orb]. now rewrite orb_true_r.
Qed.

Lemma addToSet_occurrences (watcher : Watcher.t) (l : list Watcher.t) :
  (occurrences (Watcher.Email watcher) l <= 1)%nat ->
  occurrences (Watcher.Email watcher) (mongo.addToSet watcher l) = 1%nat.
Proof.
  intros Hle. unfold mongo.addToSet.
  destruct (existsb (Watcher.eqb watcher) l) eqn:E.
  - apply existsb_occurrences in E. lia.
  - assert (Hz : occurrences (Watcher.Email watcher) l = 0%nat).
    { destruct (occurrences (Watcher.Email watcher) l) eqn:O; [reflexivity|].
      assert (T : existsb (Watcher.eqb watcher) l = true)
        by (apply existsb_occurrences; lia).
      congruence. }
    rewrite occurrences_app, Hz. unfold occurrences. simpl.
    now rewrite String.eqb_refl.
Qed.

(** Watch lists stay sets: creation starts with at most one watcher and
    [$addToSet] never makes an e-mail occur twice. *)
Lemma initial_watchers_set (author email : string) :
  (occurrences email (initial_watchers author) <= 1)%nat.
Proof.
  unfold initial_watchers, occurrences. destruct (negb _); simpl; [|lia].
  destruct (String.eqb author email); simpl; lia.
Qed.

Lemma addToSet_keeps_set (watcher : Watcher.t) (l : list Watcher.t) :
  (forall email, (occurrences email l <= 1)%nat) ->
  forall email, (occurrences email (mongo.addToSet watcher l) <= 1)%nat.
Proof.
  intros Hset email. unfold mongo.addToSet.
  destruct (existsb (Watcher.eqb watcher) l) eqn:E; [apply Hset|].
  rewrite occurrences_app. unfold occurrences at 2. simpl.
  destruct (String.eqb (Watcher.Email watcher) email) eqn:Q; simpl.
  - apply String.eqb_eq in Q. subst email.
    destruct (occurrences (Watcher.Email watcher) l) eqn:O; [lia|].
    assert (T : existsb (Watcher.eqb watcher) l = true)
      by (apply existsb_occurrences; lia).
    congruence.
  - specialize (Hset email). lia.
Qed.

Section WatcherFacts.

Context {R : Runtime}.

(** The watcher write on a stored id: the selected document gets the
    watcher added to its set and stays the selected one. *)
Lemma repository_AddWatcher_found (incidentID : string) (oid : primitive.ObjectID)
    (watcher : Watcher.t) (w : World) (d : Incident.t) :
  primitive.ObjectIDFromHex incidentID = Ok oid ->
  mongo.find_first (fun x => primitive.eqb (Incident.ID x) oid) (collection w) = Some d ->
  exists docs',
    repository.AddWatcherToIncident incidentID watcher w
    = (Ok (mongo.addToSet_watchlist watcher (Now_at (now_calls w)) d),
       mkWorld docs' (oid_calls w) (S (now_calls w))) /\
    mongo.find_first (fun x => primitive.eqb (Incident.ID x) oid) docs'
    = Some (mongo.addToSet_watchlist watcher (Now_at (now_calls w)) d).
Proof.
  intros Hhex HF.
  destruct (update_first_found _ (mongo.addToSet_watchlist watcher (Now_at (now_calls w)))
              _ _ HF) as (docs' & HU & _).
  exists docs'. split.
  - unfold repository.AddWatcherToIncident. rewrite Hhex.
    unfold bind, on_error, time_Now, mongo.FindOneAndUpdate. cbn [collection oid_calls now_calls].
    now rewrite HU.
  - eapply find_first_after_update; [|exact HU].
    intros x Hx. exact Hx.
Qed.

End WatcherFacts.

(** A filter that the update does not disturb selects the image of what it
    selected before. *)
Lemma find_first_other_filter (filter other : Incident.t -> bool)
    (update : Incident.t -> Incident.t) (docs docs' : list Incident.t) (d e : Incident.t) :
  (forall x, other (update x) = other x) ->
  mongo.update_first filter update docs = Some (d, docs') ->
  mongo.find_first other docs = Some e ->
  exists e', mongo.find_first other docs' = Some e'.
Proof.
  intros Hsame. revert docs' d e.
  induction docs as [|x docs IH]; simpl; [discriminate|].
  intros docs' d e. destruct (filter x) eqn:E.
  - intros H; inversion H; subst. simpl. rewrite Hsame.
    destruct (other x); eauto.
  - destruct (mongo.update_first filter update docs) as [[d0 rest]|] eqn:U; [|discriminate].
    intros H; inversion H; subst. simpl.
    destruct (other x); [eauto|]. intros H'. eapply IH; eauto.
Qed.

(** What [update_first] returns is the image of what [find_first] selects. *)
Lemma update_first_selected (filter : Incident.t -> bool) (update : Incident.t -> Incident.t)
    (docs docs' : list Incident.t) (d' : Incident.t) :
  mongo.update_first filter update docs = Some (d', docs') ->
  exists d, mongo.find_first filter docs = Some d /\ d' = update d.
Proof.
  revert docs' d'. induction docs as [|x docs IH]; simpl; [discriminate|].
  intros docs' d'. destruct (filter x).
  - intros H; inversion H; subst. eauto.
  - destruct (mongo.update_first filter update docs) as [[d0 rest]|]; [|discriminate].
    intros H; inversion H; subst. eapply IH; eauto.
Qed.

Section WatcherService.

Context {R : Runtime}.

(** A successful watcher add of the service went through the fetch, the
    format check and the store write, in this order. *)
Lemma services_AddWatcher_success (id : string) (watcher : Watcher.t)
    (w w1 : World) (once : Incident.t) :
  services.AddWatcherToIncident id watcher w = (Ok once, w1) ->
  (exists existing, repository.GetByID id w = (Ok existing, w)) /\
  checkmail_ValidateFormat (Watcher.Email watcher) = true /\
  repository.AddWatcherToIncident id watcher w = (Ok once, w1).
Proof.
  unfold services.AddWatcherToIncident, services.validateEmail, bind, on_error, fail.
  destruct (repository.GetByID id w) as [[x|e0] w0] eqn:HG;
    pose proof (GetByID_pure _ _ _ _ HG); subst w0; [|discriminate].
  destruct (checkmail_ValidateFormat (Watcher.Email watcher)); [|discriminate].
  destruct (repository.AddWatcherToIncident id watcher w) as [[y|e1] w2] eqn:HA;
    [|discriminate].
  intros H; inversion H; subst. eauto.
Qed.

(** A successful store write found its document. *)
Lemma repository_AddWatcher_success (id : string) (watcher : Watcher.t)
    (w w1 : World) (once : Incident.t) :
  repository.AddWatcherToIncident id watcher w = (Ok once, w1) ->
  exists oid d docs1,
    primitive.ObjectIDFromHex id = Ok oid /\
    mongo.find_first (fun x => primitive.eqb (Incident.ID x) oid) (collection w) = Some d /\
    mongo.update_first (fun x => primitive.eqb (Incident.ID x) oid)
      (mongo.addToSet_watchlist watcher (Now_at (now_calls w))) (collection w)
    = Some (once, docs1) /\
    once = mongo.addToSet_watchlist watcher (Now_at (now_calls w)) d /\
    w1 = mkWorld docs1 (oid_calls w) (S (now_calls w)).
Proof.
  unfold repository.AddWatcherToIncident.
  destruct (primitive.ObjectIDFromHex id) as [oid|e0]; [|discriminate].
  unfold bind, on_error, time_Now, mongo.FindOneAndUpdate.
  cbn [collection oid_calls now_calls].
  destruct (mongo.update_first _ _ (collection w)) as [[d' docs1]|] eqn:HU; [|discriminate].
  intros H; inversion H; subst.
  destruct (update_first_selected _ _ _ _ _ HU) as (d & HF & Hd).
  exists oid, d, docs1. repeat split; auto.
Qed.

End WatcherService.

(** Two watcher adds in a row.  At the store: on a stored incident whose
    watch list holds the e-mail at most once, the second write leaves the
    watch list as the first made it, holding the e-mail exactly once.  The
    same through the service, once a first call has gone through. *)
Lemma AddWatcher_twice {R : Runtime} (w : World) (watcher : Watcher.t) :
  (forall incidentID oid d,
     primitive.ObjectIDFromHex incidentID = Ok oid ->
     mongo.find_first (fun x => primitive.eqb (Incident.ID x) oid) (collection w) = Some d ->
     (occurrences (Watcher.Email watcher) (Incident.WatchList d) <= 1)%nat ->
     exists once w1 twice w2,
       repository.AddWatcherToIncident incidentID watcher w = (Ok once, w1) /\
       repository.AddWatcherToIncident incidentID watcher w1 = (Ok twice, w2) /\
       Incident.WatchList twice = Incident.WatchList once /\
       occurrences (Watcher.Email watcher) (Incident.WatchList twice) = 1%nat /\
       mongo.find_first (fun x => primitive.eqb (Incident.ID x) oid) (collection w2)
       = Some twice) /\
  (forall incidentID once w1,
     services.AddWatcherToIncident incidentID watcher w = (Ok once, w1) ->
     (forall d, In d (collection w) ->
        (occurrences (Watcher.Email watcher) (Incident.WatchList d) <= 1)%nat) ->
     exists twice w2,
       services.AddWatcherToIncident incidentID watcher w1 = (Ok twice, w2) /\
       Incident.WatchList twice = Incident.WatchList once /\
       occurrences (Watcher.Email watcher) (Incident.WatchList twice) = 1%nat).
Proof.
  split.
  - intros incidentID oid d Hhex HF Hle.
    destruct (repository_AddWatcher_found incidentID oid watcher w d Hhex HF)
      as (docs1 & Hrun1 & HF1).
    destruct (repository_AddWatcher_found incidentID oid watcher
                (mkWorld docs1 (oid_calls w) (S (now_calls w))) _ Hhex HF1)
      as (docs2 & Hrun2 & HF2).
    do 4 eexists. split; [exact Hrun1|]. split; [exact Hrun2|].
    cbn [mongo.addToSet_watchlist Incident.WatchList collection].
    rewrite addToSet_idempotent.
    split; [reflexivity|]. split; [now apply addToSet_occurrences | exact HF2].
  - intros incidentID once w1 Hrun Hset.
    destruct (services_AddWatcher_success _ _ _ _ _ Hrun) as ((existing & HG) & Hvalid & Hrepo).
    destruct (repository_AddWatcher_success _ _ _ _ _ Hrepo)
      as (oid & d & docs1 & Hhex & HF & HU & Honce & Hw1).
    subst once w1.
    assert (HF1 : mongo.find_first (fun x => primitive.eqb (Incident.ID x) oid) docs1
                  = Some (mongo.addToSet_watchlist watcher (Now_at (now_calls w)) d)).
    { eapply find_first_after_update; [|exact HU]. intros x Hx. exact Hx. }
    destruct (repository_AddWatcher_found incidentID oid watcher
                (mkWorld docs1 (oid_calls w) (S (now_calls w))) _ Hhex HF1)
      as (docs2 & Hrun2 & _).
    apply GetByID_found in HG as (_ & k & HA & HK).
    assert (HK' : exists existing',
              mongo.find_first (fun x => Incident.IncidentKey x =? k) docs1 = Some existing').
    { eapply find_first_other_filter; [|exact HU|exact HK]. intros x. reflexivity. }
    destruct HK' as (existing' & HK').
    do 2 eexists. split.
    + unfold services.AddWatcherToIncident, services.validateEmail, bind, on_error.
      rewrite (GetByID_by_key incidentID k
                 (mkWorld docs1 (oid_calls w) (S (now_calls w))) existing' HA HK').
      cbv beta iota.
      rewrite Hvalid. cbv beta iota. rewrite Hrun2. reflexivity.
    + cbn [mongo.addToSet_watchlist Incident.WatchList].
      rewrite addToSet_idempotent. split; [reflexivity|].
      apply addToSet_occurrences. apply Hset.
      now apply find_first_In in HF.
Qed.

(** C9. Adding a watcher through the service records nothing for an
    incident addressed by its key.  On the store that holds incident 1, the
    call for the id 1 and a well-formed e-mail passes the fetch and the
    format check and is then refused by the store write, which reads the
    same id as a storage id; the handler answers 500; a second call fails
    alike, and the watch list still does not hold the e-mail.  The store
    write addressed by the storage id of that incident adds the e-mail, and
    a second such write leaves it there once. *)
Theorem AddWatcherToIncident_by_key_records_nothing :
  let watcher := Watcher.mk "x@y.z" in
  let add := @services.AddWatcherToIncident example_runtime "1" watcher in
  let write :=
    @repository.AddWatcherToIncident example_runtime
      (primitive.Hex (Incident.ID first_incident)) watcher in
  let watch_lists := fun w : World => map Incident.WatchList (collection w) in
  repository.GetByID "1" one_incident_world = (Ok first_incident, one_incident_world) /\
  @services.validateEmail example_runtime "x@y.z" = None /\
  add one_incident_world
  = (Err (Wrapf "failed to add watcher to incident"
            (Wrapf "invalid incident ID" ErrInvalidHex)), one_incident_world) /\
  fst (add (snd (add one_incident_world)))
  = Err (Wrapf "failed to add watcher to incident"
           (Wrapf "invalid incident ID" ErrInvalidHex)) /\
  watch_lists (snd (add (snd (add one_incident_world)))) = [[Watcher.mk "a@b.com"]] /\
  handlers.StatusCode
    (fst (@handlers.AddWatcherToIncident example_runtime "1" watcher one_incident_world))
  = 500 /\
  watch_lists (snd (write one_incident_world))
  = [[Watcher.mk "a@b.com"; Watcher.mk "x@y.z"]] /\
  watch_lists (snd (write (snd (write one_incident_world))))
  = [[Watcher.mk "a@b.com"; Watcher.mk "x@y.z"]].
Proof. vm_compute. repeat split. Qed.

(** X21. At the store, adding a watcher is idempotent.  When two successive
    [AddWatcherToIncident] writes with the same id and e-mail both return an
    incident, on a store whose watch lists hold the e-mail at most once,
    they return the same incident with the same watch list, and that list
    holds the e-mail exactly once. *)
Theorem store_AddWatcher_idempotent {R : Runtime} (w w1 w2 : World)
    (incidentID : string) (watcher : Watcher.t) (once twice : Incident.t) :
  repository.AddWatcherToIncident incidentID watcher w = (Ok once, w1) ->
  repository.AddWatcherToIncident incidentID watcher w1 = (Ok twice, w2) ->
  (forall d, In d (collection w) ->
     (occurrences (Watcher.Email watcher) (Incident.WatchList d) <= 1)%nat) ->
  Incident.ID twice = Incident.ID once /\
  Incident.WatchList twice = Incident.WatchList once /\
  occurrences (Watcher.Email watcher) (Incident.WatchList twice) = 1%nat /\
  In twice (collection w2).
Proof.
  intros H1 H2 Hset.
  destruct (repository_AddWatcher_success _ _ _ _ _ H1)
    as (oid & d & docs1 & Hhex & HF & _ & Honce & _).
  pose proof (find_first_In _ _ _ HF) as [Hin Hd].
  destruct (AddWatcher_twice w watcher) as [Hstore _].
  destruct (Hstore incidentID oid d Hhex HF (Hset d Hin))
    as (once' & w1' & twice' & w2' & E1 & E2 & Hsame & Hocc & HF2).
  rewrite H1 in E1. inversion E1; subst once' w1'.
  rewrite H2 in E2. inversion E2; subst twice' w2'.
  apply find_first_In in HF2 as [Hin2 Htwice].
  apply oid_eqb_eq in Hd. apply oid_eqb_eq in Htwice.
  repeat split; auto.
  rewrite Htwice, Honce. cbn. now rewrite Hd.
Qed.

Lemma store_AddWatcher_idempotent_witness :
  exists once w1 twice w2,
    @repository.AddWatcherToIncident example_runtime "65a1b2c3d4e5f60718000000"
      (Watcher.mk "x@y.z") one_incident_world = (Ok once, w1) /\
    @repository.AddWatcherToIncident example_runtime "65a1b2c3d4e5f60718000000"
      (Watcher.mk "x@y.z") w1 = (Ok twice, w2) /\
    Incident.WatchList twice = Incident.WatchList once /\
    occurrences "x@y.z" (Incident.WatchList twice) = 1%nat.
Proof.
  do 4 eexists.
  destruct (@store_AddWatcher_idempotent example_runtime one_incident_world
              (mkWorld [mongo.addToSet_watchlist (Watcher.mk "x@y.z") 1700000001
                          first_incident] 2 2)
              (mkWorld [mongo.addToSet_watchlist (Watcher.mk "x@y.z") 1700000002
                          (mongo.addToSet_watchlist (Watcher.mk "x@y.z") 1700000001
                             first_incident)] 2 3)
              "65a1b2c3d4e5f60718000000" (Watcher.mk "x@y.z")
              (mongo.addToSet_watchlist (Watcher.mk "x@y.z") 1700000001 first_incident)
              (mongo.addToSet_watchlist (Watcher.mk "x@y.z") 1700000002
                 (mongo.addToSet_watchlist (Watcher.mk "x@y.z") 1700000001 first_incident)))
    as (_ & Hsame & Hocc & _);
    [reflexivity | reflexivity | intros d [<-|[]]; vm_compute; lia |].
  split; [reflexivity|]. split; [reflexivity|]. split; [exact Hsame | exact Hocc].
Defined.

(** ** Field bounds at the HTTP surface *)

(** C3. The create handler asks only for a non-empty title: with a valid
    severity it answers 201 for a title of 2, 3, 255 and 256 bytes alike and
    stores the incident under that title; only the empty title is refused. *)
Theorem CreateIncident_title_bounds_not_enforced :
  let create := fun title =>
    @handlers.CreateIncident example_runtime
      (CreateIncidentRequest.mk title Low "" None "" "") empty_world in
  let stored_title := fun title =>
    map Incident.Title (collection (snd (create title))) in
  handlers.StatusCode (fst (create (Repeat "a" 2))) = 201 /\
  stored_title (Repeat "a" 2) = ["aa"] /\
  handlers.StatusCode (fst (create (Repeat "a" 3))) = 201 /\
  handlers.StatusCode (fst (create (Repeat "a" 255))) = 201 /\
  handlers.StatusCode (fst (create (Repeat "a" 256))) = 201 /\
  stored_title (Repeat "a" 256) = [Repeat "a" 256] /\
  handlers.StatusCode (fst (create "")) = 400.
Proof. vm_compute. repeat split. Qed.

(** C4. The note handler refuses the empty content and the service reports
    a missing incident, but neither checks the upper length bound nor the
    note type: a content of 1001 bytes with a type outside the enumeration
    is answered with 201 and appended to the incident as it came. *)
Theorem AddNoteToIncident_bounds_not_enforced :
  let add := fun id content type =>
    @handlers.AddNoteToIncident example_runtime id
      (AddNoteRequest.mk content "a@b.com" type) one_incident_world in
  let stored_notes := fun id content type =>
    map (fun d => map (fun n => (String.length (Note.Content n), Note.Type_ n))
                    (Incident.Notes d))
      (collection (snd (add id content type))) in
  handlers.StatusCode (fst (add "1" (Repeat "x" 1001) "bogus")) = 201 /\
  stored_notes "1" (Repeat "x" 1001) "bogus" = [[(1001%nat, "bogus")]] /\
  handlers.StatusCode (fst (add "1" (Repeat "x" 1000) Update)) = 201 /\
  handlers.StatusCode (fst (add "1" (Repeat "x" 1) Update)) = 201 /\
  handlers.StatusCode (fst (add "1" "" Update)) = 400 /\
  fst (@services.AddNoteToIncident example_runtime "7"
         (AddNoteRequest.mk "late" "a@b.com" Update) one_incident_world)
  = Err (Wrapf "incident not found" (Errorf "incident not found")).
Proof. vm_compute. repeat split. Qed.

(** ** The two identifier parsers *)

Lemma byte_val_range (c : ascii) : 0 <= byte_val c < 256.
Proof.
  unfold byte_val. pose proof (N_ascii_bounded c). lia.
Qed.

Lemma Atoi_fast_loop_decimal (s : string) (n m : Z) :
  strconv.Atoi_fast_loop s n = Some m -> all_decimal s = true.
Proof.
  revert n; induction s as [|c rest IH]; intros n; simpl; [reflexivity|].
  pose proof (byte_val_range c) as Hc.
  destruct ((byte_val c - 48) mod 256 >? 9) eqn:E; [discriminate|].
  intros H. rewrite (IH _ H), andb_true_r.
  rewrite Z.gtb_ltb in E. apply Z.ltb_ge in E.
  destruct (Z_lt_le_dec (byte_val c) 48) as [Hlt|Hge].
  - replace ((byte_val c - 48) mod 256) with (byte_val c - 48 + 256) in E; [lia|].
    apply (Z.mod_unique _ _ (-1)); lia.
  - rewrite Z.mod_small in E by lia.
    apply andb_true_iff; split; [apply Z.leb_le | apply Z.leb_le]; lia.
Qed.

Lemma ParseUint_loop_decimal (s : string) (cutoff maxVal n m : Z) :
  strconv.ParseUint_loop s 10 cutoff maxVal n = inr m -> all_decimal s = true.
Proof.
  revert n; induction s as [|c rest IH]; intros n; simpl; [reflexivity|].
  destruct ((48 <=? byte_val c) && (byte_val c <=? 57)) eqn:D.
  - destruct (byte_val c - 48 >=? 10); [discriminate|].
    destruct (n >=? cutoff); [discriminate|].
    destruct (_ || _); [discriminate|].
    intros H. now rewrite (IH _ H).
  - destruct ((97 <=? strconv.lower (byte_val c)) && (strconv.lower (byte_val c) <=? 122)) eqn:L;
      [|discriminate].
    apply andb_true_iff in L as [L1 _]. apply Z.leb_le in L1.
    destruct (strconv.lower (byte_val c) - 97 + 10 >=? 10) eqn:G; [discriminate|].
    rewrite Z.geb_leb in G. apply Z.leb_gt in G. lia.
Qed.

(** Whatever [Atoi] accepts is an optional sign followed by decimal
    digits. *)
Lemma Atoi_accepts_decimal (s : string) (k : Z) :
  strconv.Atoi s = Ok k ->
  exists c rest,
    s = String c rest /\ all_decimal (if is_sign c then rest else s) = true.
Proof.
  unfold strconv.Atoi.
  destruct ((0 <? Z.of_nat (String.length s)) && (Z.of_nat (String.length s) <? 19)).
  - destruct s as [|c rest]; [discriminate|].
    unfold is_sign.
    destruct (Ascii.eqb c "-" || Ascii.eqb c "+") eqn:S.
    + destruct (true && (Z.of_nat (String.length rest) <? 1)); [discriminate|].
      destruct (strconv.Atoi_fast_loop rest 0) as [n|] eqn:F; [|discriminate].
      intros _. exists c, rest. split; [reflexivity|]. rewrite S.
      eapply Atoi_fast_loop_decimal; eauto.
    + cbn [andb].
      destruct (strconv.Atoi_fast_loop (String c rest) 0) as [n|] eqn:F; [|discriminate].
      intros _. exists c, rest. split; [reflexivity|]. rewrite S.
      eapply Atoi_fast_loop_decimal; eauto.
  - destruct s as [|c rest]; [discriminate|].
    unfold strconv.ParseInt, is_sign.
    assert (Hsign :
      (if Ascii.eqb c "+" then (false, rest)
       else if Ascii.eqb c "-" then (true, rest) else (false, String c rest))
      = (Ascii.eqb c "-",
         if Ascii.eqb c "-" || Ascii.eqb c "+" then rest else String c rest)).
    { destruct (Ascii.eqb c "+") eqn:P; destruct (Ascii.eqb c "-") eqn:Q; try reflexivity.
      apply Ascii.eqb_eq in P. apply Ascii.eqb_eq in Q. congruence. }
    rewrite Hsign. clear Hsign.
    set (digits := if Ascii.eqb c "-" || Ascii.eqb c "+" then rest else String c rest).
    unfold strconv.ParseUint.
    destruct (String.eqb digits "").
    + cbn. discriminate.
    + cbn [Z.eqb strconv.intSize].
      destruct (strconv.ParseUint_loop digits 10 _ _ 0) as [[|]|n] eqn:L.
      * cbn. discriminate.
      * cbn [strconv.is_range negb].
        destruct (Ascii.eqb c "-"); vm_compute; discriminate.
      * intros _. exists c, rest. split; [reflexivity|].
        eapply ParseUint_loop_decimal; eauto.
Qed.

(** A first byte that [encoding/hex] accepts is not a sign. *)
Lemma fromHexChar_not_sign (c : ascii) (v : Z) :
  hex.fromHexChar c = Some v -> is_sign c = false.
Proof.
  unfold is_sign. intros H.
  destruct (Ascii.eqb c "-") eqn:M; [apply Ascii.eqb_eq in M; subst; discriminate|].
  destruct (Ascii.eqb c "+") eqn:P; [apply Ascii.eqb_eq in P; subst; discriminate|].
  reflexivity.
Qed.

(** An id that both parsers accept is made of 24 decimal digits. *)
Lemma accepted_by_both (id : string) (k : Z) (oid : primitive.ObjectID) :
  strconv.Atoi id = Ok k ->
  primitive.ObjectIDFromHex id = Ok oid ->
  String.length id = 24%nat /\ all_decimal id = true.
Proof.
  intros HA HO. split; [eapply ObjectIDFromHex_length; eauto|].
  destruct (Atoi_accepts_decimal _ _ HA) as (c & rest & -> & Hdec).
  unfold primitive.ObjectIDFromHex in HO.
  destruct (negb _); [discriminate|].
  destruct rest as [|q rest']; simpl in HO.
  - destruct (hex.fromHexChar c); discriminate.
  - destruct (hex.fromHexChar c) as [a|] eqn:Hc; [|discriminate].
    now rewrite (fromHexChar_not_sign _ _ Hc) in Hdec.
Qed.

(** The hexadecimal form of an object id starts with no sign. *)
Lemma Hex_shape (oid : primitive.ObjectID) :
  exists c rest, primitive.Hex oid = String c rest /\ is_sign c = false.
Proof.
  destruct oid as [c0 c1 c2 c3 c4 c5 c6 c7 c8 c9 c10 c11].
  unfold primitive.Hex. cbn [primitive.bytes hex.EncodeToString
    primitive.b0 primitive.b1 primitive.b2 primitive.b3 primitive.b4 primitive.b5
    primitive.b6 primitive.b7 primitive.b8 primitive.b9 primitive.b10 primitive.b11].
  eexists; eexists; split; [reflexivity|].
  destruct c0; reflexivity.
Qed.

(** ** Decimal keys are read back by [Atoi] *)

Example decimal_samples :
  decimal 0 = "0" /\ decimal 42 = "42" /\ decimal (-17) = "-17" /\
  decimal maxInt = "9223372036854775807" /\ decimal minInt = "-9223372036854775808".
Proof. vm_compute. repeat split. Qed.

Lemma digit_char_val (d : Z) : 0 <= d <= 9 -> byte_val (digit_char d) = 48 + d.
Proof.
  intros H.
  assert (C : d = 0 \/ d = 1 \/ d = 2 \/ d = 3 \/ d = 4 \/ d = 5 \/ d = 6 \/ d = 7
              \/ d = 8 \/ d = 9) by lia.
  repeat (destruct C as [->|C]; [reflexivity|]). subst; reflexivity.
Qed.

Lemma digit_char_not_sign (d : Z) : 0 <= d <= 9 -> is_sign (digit_char d) = false.
Proof.
  intros H.
  assert (C : d = 0 \/ d = 1 \/ d = 2 \/ d = 3 \/ d = 4 \/ d = 5 \/ d = 6 \/ d = 7
              \/ d = 8 \/ d = 9) by lia.
  repeat (destruct C as [->|C]; [reflexivity|]). subst; reflexivity.
Qed.

Lemma int_wrap_small (z : Z) : minInt <= z <= maxInt -> int_wrap z = z.
Proof.
  unfold minInt, maxInt, int_wrap. intros H. rewrite Z.mod_small; lia.
Qed.

(** One digit consumed by the fast loop of [Atoi]. *)
Lemma Atoi_fast_loop_digit (d a : Z) (rest : string) :
  0 <= d <= 9 -> 0 <= a -> a * 10 + d <= maxInt ->
  strconv.Atoi_fast_loop (String (digit_char d) rest) a
  = strconv.Atoi_fast_loop rest (a * 10 + d).
Proof.
  intros Hd Ha Hmax. cbn [strconv.Atoi_fast_loop].
  rewrite (digit_char_val d Hd).
  replace (48 + d - 48) with d by lia.
  rewrite (Z.mod_small d 256) by lia.
  replace (d >? 9) with false by (symmetry; rewrite Z.gtb_ltb; apply Z.ltb_ge; lia).
  rewrite int_wrap_small; [reflexivity|]. unfold minInt, maxInt in *. lia.
Qed.

Lemma Atoi_fast_loop_decimal_digits (fuel : nat) :
  forall (n : Z) (acc : string),
    0 <= n < 10 ^ Z.of_nat fuel -> n <= maxInt ->
    strconv.Atoi_fast_loop (decimal_digits fuel n acc) 0
    = strconv.Atoi_fast_loop acc n.
Proof.
  induction fuel as [|fuel IH]; intros n acc Hn Hmax.
  - simpl in Hn. assert (n = 0) by lia. subst. reflexivity.
  - cbn [decimal_digits].
    pose proof (Z.mod_pos_bound n 10 ltac:(lia)) as Hm.
    pose proof (Z.div_mod n 10 ltac:(lia)) as Hdm.
    destruct (n <? 10) eqn:E.
    + apply Z.ltb_lt in E. rewrite Z.mod_small by lia.
      rewrite Atoi_fast_loop_digit by lia. reflexivity.
    + apply Z.ltb_ge in E.
      rewrite IH.
      * rewrite Atoi_fast_loop_digit; [f_equal; lia | lia | lia | lia].
      * rewrite Nat2Z.inj_succ, Z.pow_succ_r in Hn by lia. lia.
      * lia.
Qed.

(** One digit consumed by the loop of [ParseUint]. *)
Lemma ParseUint_loop_digit (d a : Z) (rest : string) :
  0 <= d <= 9 -> 0 <= a -> a * 10 + d <= 2 ^ 63 ->
  strconv.ParseUint_loop (String (digit_char d) rest) 10 (maxUint64 / 10 + 1)
    (2 ^ 64 - 1) a
  = strconv.ParseUint_loop rest 10 (maxUint64 / 10 + 1) (2 ^ 64 - 1) (a * 10 + d).
Proof.
  intros Hd Ha Hmax. cbn [strconv.ParseUint_loop].
  rewrite (digit_char_val d Hd).
  replace ((48 <=? 48 + d) && (48 + d <=? 57)) with true
    by (symmetry; apply andb_true_iff; split; apply Z.leb_le; lia).
  replace (48 + d - 48) with d by lia.
  replace (d >=? 10) with false by (symmetry; rewrite Z.geb_leb; apply Z.leb_gt; lia).
  assert (Hcut : maxUint64 / 10 + 1 = 1844674407370955162) by reflexivity.
  rewrite Hcut.
  replace (a >=? 1844674407370955162) with false
    by (symmetry; rewrite Z.geb_leb; apply Z.leb_gt; lia).
  unfold uint64_wrap.
  rewrite (Z.mod_small (a * 10)) by lia.
  rewrite (Z.mod_small (a * 10 + d)) by lia.
  replace (a * 10 + d <? a * 10) with false by (symmetry; apply Z.ltb_ge; lia).
  replace (a * 10 + d >? 2 ^ 64 - 1) with false
    by (symmetry; rewrite Z.gtb_ltb; apply Z.ltb_ge; lia).
  reflexivity.
Qed.

Lemma ParseUint_loop_decimal_digits (fuel : nat) :
  forall (n : Z) (acc : string),
    0 <= n < 10 ^ Z.of_nat fuel -> n <= 2 ^ 63 ->
    strconv.ParseUint_loop (decimal_digits fuel n acc) 10 (maxUint64 / 10 + 1)
      (2 ^ 64 - 1) 0
    = strconv.ParseUint_loop acc 10 (maxUint64 / 10 + 1) (2 ^ 64 - 1) n.
Proof.
  induction fuel as [|fuel IH]; intros n acc Hn Hmax.
  - simpl in Hn. assert (n = 0) by lia. subst. reflexivity.
  - cbn [decimal_digits].
    pose proof (Z.mod_pos_bound n 10 ltac:(lia)) as Hm.
    pose proof (Z.div_mod n 10 ltac:(lia)) as Hdm.
    destruct (n <? 10) eqn:E.
    + apply Z.ltb_lt in E. rewrite Z.mod_small by lia.
      rewrite ParseUint_loop_digit by lia. reflexivity.
    + apply Z.ltb_ge in E.
      rewrite IH.
      * rewrite ParseUint_loop_digit; [f_equal; lia | lia | lia | lia].
      * rewrite Nat2Z.inj_succ, Z.pow_succ_r in Hn by lia. lia.
      * lia.
Qed.

(** The rendering starts with a digit and has at most [fuel] digits. *)
Lemma decimal_digits_head (fuel : nat) :
  forall (n : Z) (acc : string),
    0 <= n ->
    exists d rest, 0 <= d <= 9 /\ decimal_digits (S fuel) n acc = String (digit_char d) rest.
Proof.
  induction fuel as [|fuel IH]; intros n acc Hn.
  - pose proof (Z.mod_pos_bound n 10 ltac:(lia)).
    exists (n mod 10), acc. split; [lia|]. cbn. now destruct (n <? 10).
  - pose proof (Z.mod_pos_bound n 10 ltac:(lia)).
    cbn [decimal_digits]. destruct (n <? 10) eqn:E.
    + exists (n mod 10), acc. split; [lia|reflexivity].
    + apply (IH (n / 10)). apply Z.div_pos; lia.
Qed.

Lemma decimal_digits_length (fuel : nat) :
  forall (n : Z) (acc : string),
    (String.length (decimal_digits fuel n acc) <= fuel + String.length acc)%nat.
Proof.
  induction fuel as [|fuel IH]; intros n acc; cbn [decimal_digits]; [simpl; lia|].
  destruct (n <? 10).
  - simpl. lia.
  - specialize (IH (n / 10) (String (digit_char (n mod 10)) acc)). simpl in IH. lia.
Qed.

Lemma decimal_length (k : Z) : (String.length (decimal k) <= 21)%nat.
Proof.
  unfold decimal. destruct (k <? 0).
  - pose proof (decimal_digits_length 20 (- k) "") as H.
    change (String.length "") with 0%nat in H. cbn [String.length]. lia.
  - pose proof (decimal_digits_length 20 k "") as H.
    change (String.length "") with 0%nat in H. lia.
Qed.

(** [Atoi] reads the decimal rendering of every [int] back. *)
Lemma Atoi_decimal (k : Z) : minInt <= k <= maxInt -> strconv.Atoi (decimal k) = Ok k.
Proof.
  intros Hk.
  destruct (Z.eq_dec k minInt) as [->|Hmin]; [vm_compute; reflexivity|].
  assert (Hpow : 2 ^ 63 < 10 ^ Z.of_nat 20) by (vm_compute; reflexivity).
  unfold minInt, maxInt in *.
  unfold strconv.Atoi, decimal.
  destruct (k <? 0) eqn:Neg.
  - apply Z.ltb_lt in Neg.
    destruct (decimal_digits_head 19 (- k) "" ltac:(lia)) as (d & rest & Hd & Hshape).
    set (digits := decimal_digits 20 (- k) "") in *.
    destruct ((0 <? Z.of_nat (String.length (String "-" digits)))
              && (Z.of_nat (String.length (String "-" digits)) <? 19)).
    + cbn [Ascii.eqb Bool.eqb orb andb].
      replace (Z.of_nat (String.length digits) <? 1) with false
        by (rewrite Hshape; cbn [String.length]; symmetry; apply Z.ltb_ge; lia).
      unfold digits. rewrite Atoi_fast_loop_decimal_digits by (unfold maxInt; lia).
      cbn [strconv.Atoi_fast_loop]. f_equal.
      rewrite int_wrap_small by (unfold minInt, maxInt; lia). lia.
    + unfold strconv.ParseInt. cbn [Ascii.eqb Bool.eqb].
      unfold strconv.ParseUint.
      replace (String.eqb digits "") with false by (rewrite Hshape; reflexivity).
      cbn [Z.eqb strconv.intSize].
      unfold digits. rewrite ParseUint_loop_decimal_digits by lia.
      cbn [strconv.ParseUint_loop negb andb].
      change (2 ^ (strconv.intSize - 1)) with (2 ^ 63).
      replace (- k >? 2 ^ 63) with false
        by (symmetry; rewrite Z.gtb_ltb; apply Z.ltb_ge; lia).
      f_equal. lia.
  - apply Z.ltb_ge in Neg.
    destruct (decimal_digits_head 19 k "" ltac:(lia)) as (d & rest & Hd & Hshape).
    pose proof (digit_char_not_sign d Hd) as Hsign. unfold is_sign in Hsign.
    apply orb_false_iff in Hsign as [Hminus Hplus].
    set (digits := decimal_digits 20 k "") in *.
    destruct ((0 <? Z.of_nat (String.length digits))
              && (Z.of_nat (String.length digits) <? 19)).
    + rewrite Hshape. rewrite Hminus, Hplus. cbn [orb andb].
      rewrite <- Hshape. unfold digits.
      rewrite Atoi_fast_loop_decimal_digits by (unfold maxInt; lia).
      reflexivity.
    + unfold strconv.ParseInt. rewrite Hshape. rewrite Hminus, Hplus.
      rewrite <- Hshape.
      unfold strconv.ParseUint.
      replace (String.eqb digits "") with false by (rewrite Hshape; reflexivity).
      cbn [Z.eqb strconv.intSize].
      unfold digits. rewrite ParseUint_loop_decimal_digits by lia.
      cbn [strconv.ParseUint_loop negb andb].
      change (2 ^ (strconv.intSize - 1)) with (2 ^ 63).
      replace (k >=? 2 ^ 63) with false
        by (symmetry; rewrite Z.geb_leb; apply Z.leb_gt; lia).
      reflexivity.
Qed.

(** ** Which identifier reaches which lookup *)

Section IdentifierFacts.

Context {R : Runtime}.

(** Every stored incident whose key is an [int] is fetched by the
    decimal rendering of that key. *)
Lemma GetByID_decimal (w : World) (incident : Incident.t) :
  In incident (collection w) ->
  minInt <= Incident.IncidentKey incident <= maxInt ->
  exists found,
    repository.GetByID (decimal (Incident.IncidentKey incident)) w = (Ok found, w) /\
    Incident.IncidentKey found = Incident.IncidentKey incident.
Proof.
  intros Hin Hk.
  destruct (find_first_exists
              (fun d => Incident.IncidentKey d =? Incident.IncidentKey incident)
              _ _ Hin (Z.eqb_refl _)) as [found HF].
  exists found. split.
  - apply (GetByID_by_key _ (Incident.IncidentKey incident)); [|exact HF].
    now apply Atoi_decimal.
  - apply find_first_In in HF as [_ HF]. now apply Z.eqb_eq in HF.
Qed.

(** An id that is not made of 24 decimal digits and passes the existence
    check is refused by the object-id parser. *)
Lemma fetched_id_not_hex (w : World) (id : string) (existing : Incident.t) :
  repository.GetByID id w = (Ok existing, w) ->
  Nat.eqb (String.length id) 24 && all_decimal id = false ->
  exists cause, primitive.ObjectIDFromHex id = Err cause.
Proof.
  intros HG Hshape.
  apply GetByID_found in HG as (_ & k & HA & _).
  destruct (primitive.ObjectIDFromHex id) as [oid|cause] eqn:HO; [|eauto].
  destruct (accepted_by_both _ _ _ HA HO) as [Hlen Hdec].
  rewrite Hlen, Hdec in Hshape. discriminate.
Qed.

(** The severity update hands the caller's id to the store as it came. *)
Lemma UpdateIncidentSeverity_raw_id (w : World) (id : string) (existing : Incident.t)
    (cause : error) (req : UpdateIncidentSeverityRequest.t) :
  repository.GetByID id w = (Ok existing, w) ->
  primitive.ObjectIDFromHex id = Err cause ->
  IncidentSeverity_IsValid (UpdateIncidentSeverityRequest.Severity req) = true ->
  services.UpdateIncidentSeverity id req w
  = (Err (Wrapf "failed to update incident severity"
            (Wrapf "invalid incident ID format" cause)), w).
Proof.
  intros HG HO HV.
  unfold services.UpdateIncidentSeverity. rewrite HV. cbn [negb].
  unfold bind, on_error. rewrite HG. cbv beta iota.
  unfold repository.UpdateSeverity. rewrite HO. reflexivity.
Qed.

(** So does the watcher add. *)
Lemma AddWatcherToIncident_raw_id (w : World) (id : string) (existing : Incident.t)
    (cause : error) (watcher : Watcher.t) :
  repository.GetByID id w = (Ok existing, w) ->
  primitive.ObjectIDFromHex id = Err cause ->
  checkmail_ValidateFormat (Watcher.Email watcher) = true ->
  services.AddWatcherToIncident id watcher w
  = (Err (Wrapf "failed to add watcher to incident"
            (Wrapf "invalid incident ID" cause)), w).
Proof.
  intros HG HO HV.
  unfold services.AddWatcherToIncident, services.validateEmail. rewrite HV.
  unfold bind, on_error. rewrite HG. cbv beta iota.
  unfold repository.AddWatcherToIncident. rewrite HO. reflexivity.
Qed.

(** The note append resolves the caller's id through the fetch and
    addresses the store by the storage id of what it fetched. *)
Lemma AddNoteToIncident_run (w : World) (id : string) (existing : Incident.t)
    (req : AddNoteRequest.t) :
  repository.GetByID id w = (Ok existing, w) ->
  exists d docs',
    Incident.ID d = Incident.ID existing /\
    services.AddNoteToIncident id req w
    = (Ok (mongo.push_note
             (Note.mk (NewObjectID_at (oid_calls w)) (AddNoteRequest.Content req)
                (Now_at (now_calls w)) (AddNoteRequest.AuthorEmail req)
                (AddNoteRequest.Type_ req))
             (Now_at (S (now_calls w))) d),
       mkWorld docs' (S (S (oid_calls w))) (S (S (now_calls w)))).
Proof.
  intros HG.
  destruct (fetched_has_id _ _ _ HG) as (d & HFd & HId).
  destruct (update_first_found _
              (mongo.push_note
                 (Note.mk (NewObjectID_at (oid_calls w)) (AddNoteRequest.Content req)
                    (Now_at (now_calls w)) (AddNoteRequest.AuthorEmail req)
                    (AddNoteRequest.Type_ req))
                 (Now_at (S (now_calls w)))) _ _ HFd) as (docs' & HU & _).
  exists d, docs'. split; [exact HId|].
  unfold services.AddNoteToIncident, bind, on_error. rewrite HG. cbv beta iota.
  unfold repository.AddNote. rewrite ObjectIDFromHex_Hex.
  unfold bind, on_error, NewObjectID, time_Now, mongo.FindOneAndUpdate,
    kafka.ProduceMessage, ret.
  cbn [collection oid_calls now_calls Note.Content Note.AuthorEmail Note.Type_].
  rewrite HU. reflexivity.
Qed.

End IdentifierFacts.

(** C5, as stated, fails: the hexadecimal form of the storage id of a
    stored incident is refused by the fetch path. *)
Lemma storage_id_is_not_a_fetch_key :
  In first_incident (collection one_incident_world) /\
  primitive.Hex (Incident.ID first_incident) = "65a1b2c3d4e5f60718000000" /\
  services.GetByID "65a1b2c3d4e5f60718000000" one_incident_world
  = (Err (Wrapf "failed to get incident"
            (Wrapf "invalid incident ID format"
               (ErrSyntax "Atoi" "65a1b2c3d4e5f60718000000"))),
     one_incident_world).
Proof. vm_compute. repeat split. left; reflexivity. Qed.

(** C5 (amended). The fetch path looks an incident up by its integer key
    only: every stored incident is fetched by the decimal rendering of its
    key (it is the incident itself when no other carries that key); whatever
    is fetched carries the decimal value of the id as its key; and the
    hexadecimal form of a storage id that has a letter among its digits is
    refused as a fetch key.  The status write of the status update and the
    note write of the note append resolve the caller's id through that
    fetch and address the store by the storage id of the fetched incident:
    whatever the author e-mail of the request, the status write reaches the
    stored incident with the id of the fetched one, and the call returns
    that incident or the partial failure of the chained watcher add. *)
Theorem fetch_by_key_write_by_storage_id {R : Runtime} (w : World) :
  (forall incident,
     In incident (collection w) ->
     minInt <= Incident.IncidentKey incident <= maxInt ->
     exists found,
       repository.GetByID (decimal (Incident.IncidentKey incident)) w = (Ok found, w) /\
       Incident.IncidentKey found = Incident.IncidentKey incident /\
       ((forall other, In other (collection w) ->
           Incident.IncidentKey other = Incident.IncidentKey incident ->
           other = incident) ->
        found = incident)) /\
  (forall id found,
     repository.GetByID id w = (Ok found, w) ->
     strconv.Atoi id = Ok (Incident.IncidentKey found) /\ In found (collection w)) /\
  (forall oid,
     all_decimal (primitive.Hex oid) = false ->
     exists e,
       repository.GetByID (primitive.Hex oid) w
       = (Err (Wrapf "invalid incident ID format" e), w)) /\
  (forall id existing req,
     repository.GetByID id w = (Ok existing, w) ->
     IncidentStatus_IsValid (UpdateIncidentStatusRequest.Status req) = true ->
     services.validateStatusTransition (Incident.Status existing)
       (UpdateIncidentStatusRequest.Status req) = None ->
     exists updated w2,
       repository.UpdateStatus (primitive.Hex (Incident.ID existing))
         (UpdateIncidentStatusRequest.Status req) w = (Ok updated, w2) /\
       Incident.ID updated = Incident.ID existing /\
       Incident.Status updated = UpdateIncidentStatusRequest.Status req /\
       In updated (collection w2) /\
       ((exists w', services.UpdateIncidentStatus id req w = (Ok updated, w')) \/
        (exists cause w',
           services.UpdateIncidentStatus id req w = (Err (PartialFailure cause), w') /\
           collection w' = collection w2)) /\
       (blank (UpdateIncidentStatusRequest.AuthorEmail req) ->
        exists w', services.UpdateIncidentStatus id req w = (Ok updated, w'))) /\
  (forall id existing req,
     repository.GetByID id w = (Ok existing, w) ->
     exists updated w',
       services.AddNoteToIncident id req w = (Ok updated, w') /\
       Incident.ID updated = Incident.ID existing /\
       exists earlier note,
         Incident.Notes updated = (earlier ++ [note])%list /\
         Note.Content note = AddNoteRequest.Content req /\
         Note.Type_ note = AddNoteRequest.Type_ req).
Proof.
  repeat split.
  - intros incident Hin Hk.
    destruct (GetByID_decimal w incident Hin Hk) as (found & HG & Hkey).
    exists found. repeat split; auto.
    intros Huniq. apply Huniq; [|exact Hkey].
    apply GetByID_found in HG as (_ & k & _ & HF).
    now apply find_first_In in HF.
  - apply GetByID_found in H as (_ & k & HA & HF).
    apply find_first_In in HF as [_ HF]. apply Z.eqb_eq in HF. now rewrite HF.
  - apply GetByID_found in H as (_ & k & _ & HF).
    now apply find_first_In in HF.
  - intros oid Hletters.
    unfold repository.GetByID.
    destruct (strconv.Atoi (primitive.Hex oid)) as [k|e] eqn:HA.
    + exfalso.
      destruct (Atoi_accepts_decimal _ _ HA) as (c & rest & Hs & Hdec).
      destruct (Hex_shape oid) as (c' & rest' & Hs' & Hsign).
      rewrite Hs' in Hs. inversion Hs; subst c' rest'.
      rewrite Hsign in Hdec. congruence.
    + exists e. reflexivity.
  - intros id existing req HG HV Hyes.
    destruct (UpdateIncidentStatus_after_checks w id req existing HV HG Hyes)
      as (d & docs' & HId & Hin & HU & Hrun).
    do 2 eexists. split; [exact HU|]. split; [exact HId|]. split; [reflexivity|].
    split; [exact Hin|]. rewrite Hrun. clear Hrun. split.
    + destruct (negb _); [|left; eexists; reflexivity].
      destruct (services.AddWatcherToIncident _ _ _) as [[a|cause] w3] eqn:HA.
      * left; eexists; reflexivity.
      * right. exists cause, w3. split; [reflexivity|].
        now rewrite (services_AddWatcher_failure _ _ _ _ _ HA).
    + intros Hb. unfold blank in Hb. rewrite Hb. cbn [String.eqb negb].
      eexists; reflexivity.
  - intros id existing req HG.
    destruct (AddNoteToIncident_run w id existing req HG) as (d & docs' & HId & Hrun).
    do 2 eexists. split; [exact Hrun|]. split; [exact HId|].
    do 2 eexists. cbn [mongo.push_note Incident.Notes]. split; [reflexivity|].
    split; reflexivity.
Qed.

Lemma fetch_by_key_write_by_storage_id_witness :
  repository.GetByID "1" one_incident_world
  = (Ok first_incident, one_incident_world) /\
  (exists e,
     repository.GetByID (primitive.Hex (example_oid 0)) one_incident_world
     = (Err (Wrapf "invalid incident ID format" e), one_incident_world)) /\
  (exists updated w2,
     @repository.UpdateStatus example_runtime (primitive.Hex (example_oid 0)) "closed"
       one_incident_world = (Ok updated, w2) /\
     Incident.ID updated = example_oid 0 /\
     exists cause w',
       @services.UpdateIncidentStatus example_runtime "1"
         (UpdateIncidentStatusRequest.mk "closed" "x@y.z") one_incident_world
       = (Err (PartialFailure cause), w') /\
       collection w' = collection w2) /\
  (exists updated w',
     @services.AddNoteToIncident example_runtime "1"
       (AddNoteRequest.mk "Pool exhausted" "a@b.com" "investigation") one_incident_world
     = (Ok updated, w') /\
     Incident.ID updated = example_oid 0).
Proof.
  destruct (@fetch_by_key_write_by_storage_id example_runtime one_incident_world)
    as (Hkey & _ & Hhex & Hstatus & Hnote).
  split; [|split; [|split]].
  - destruct (Hkey first_incident) as (found & HG & _ & Hsame);
      [left; reflexivity | vm_compute; split; discriminate |].
    rewrite <- (Hsame ltac:(intros other [<-|[]] _; reflexivity)) at 1. exact HG.
  - apply Hhex. reflexivity.
  - destruct (Hstatus "1" first_incident (UpdateIncidentStatusRequest.mk "closed" "x@y.z"))
      as (updated & w2 & HU & HId & _ & _ & [[w' Hok]|(cause & w' & Hrun & Hkeep)] & _);
      [reflexivity | reflexivity | reflexivity | |].
    + vm_compute in Hok. discriminate.
    + exists updated, w2. split; [exact HU|]. split; [exact HId|].
      exists cause, w'. split; assumption.
  - destruct (Hnote "1" first_incident
                (AddNoteRequest.mk "Pool exhausted" "a@b.com" "investigation"))
      as (updated & w' & Hrun & HId & _); [reflexivity|].
    exists updated, w'. split; assumption.
Defined.

(** C6, as stated, fails: a key padded with zeros to 24 digits is read by
    both parsers; the severity write then looks for a storage id with these
    digits and reports a missing incident, not a malformed id. *)
Lemma padded_key_passes_both_parsers :
  strconv.Atoi "000000000000000000000001" = Ok 1 /\
  primitive.ObjectIDFromHex "000000000000000000000001"
  = Ok (primitive.mkObjectID x00 x00 x00 x00 x00 x00 x00 x00 x00 x00 x00 x01) /\
  repository.GetByID "000000000000000000000001" one_incident_world
  = (Ok first_incident, one_incident_world) /\
  fst (@services.UpdateIncidentSeverity example_runtime "000000000000000000000001"
         (UpdateIncidentSeverityRequest.mk Low "") one_incident_world)
  = Err (Wrapf "failed to update incident severity" (Errorf "incident not found")).
Proof. vm_compute. repeat split. Qed.

(** C6 (amended). An id that both parsers accept is a string of exactly 24
    decimal digits.  Any other id that passes the existence check is
    refused by the object-id parser, and the severity update and the
    watcher add called with it fail at the store write with that id-format
    error, leaving the world untouched.  In particular this is what happens
    to every stored incident addressed by the decimal rendering of its
    key. *)
Theorem key_id_rejected_by_store_writes {R : Runtime} (w : World) :
  (forall id k oid,
     strconv.Atoi id = Ok k -> primitive.ObjectIDFromHex id = Ok oid ->
     String.length id = 24%nat /\ all_decimal id = true) /\
  (forall id existing,
     repository.GetByID id w = (Ok existing, w) ->
     Nat.eqb (String.length id) 24 && all_decimal id = false ->
     exists cause,
       primitive.ObjectIDFromHex id = Err cause /\
       (forall req,
          IncidentSeverity_IsValid (UpdateIncidentSeverityRequest.Severity req) = true ->
          services.UpdateIncidentSeverity id req w
          = (Err (Wrapf "failed to update incident severity"
                    (Wrapf "invalid incident ID format" cause)), w)) /\
       (forall watcher,
          checkmail_ValidateFormat (Watcher.Email watcher) = true ->
          services.AddWatcherToIncident id watcher w
          = (Err (Wrapf "failed to add watcher to incident"
                    (Wrapf "invalid incident ID" cause)), w))) /\
  (forall incident,
     In incident (collection w) ->
     minInt <= Incident.IncidentKey incident <= maxInt ->
     (exists found,
        repository.GetByID (decimal (Incident.IncidentKey incident)) w = (Ok found, w)) /\
     (forall req,
        IncidentSeverity_IsValid (UpdateIncidentSeverityRequest.Severity req) = true ->
        services.UpdateIncidentSeverity (decimal (Incident.IncidentKey incident)) req w
        = (Err (Wrapf "failed to update incident severity"
                  (Wrapf "invalid incident ID format" ErrInvalidHex)), w)) /\
     (forall watcher,
        checkmail_ValidateFormat (Watcher.Email watcher) = true ->
        services.AddWatcherToIncident (decimal (Incident.IncidentKey incident)) watcher w
        = (Err (Wrapf "failed to add watcher to incident"
                  (Wrapf "invalid incident ID" ErrInvalidHex)), w))).
Proof.
  split; [|split].
  - intros id k oid. apply accepted_by_both.
  - intros id existing HG Hshape.
    destruct (fetched_id_not_hex w id existing HG Hshape) as [cause HO].
    exists cause. split; [exact HO|]. split.
    + intros req. now apply (UpdateIncidentSeverity_raw_id w id existing).
    + intros watcher. now apply (AddWatcherToIncident_raw_id w id existing).
  - intros incident Hin Hk.
    destruct (GetByID_decimal w incident Hin Hk) as (found & HG & _).
    assert (HO : primitive.ObjectIDFromHex (decimal (Incident.IncidentKey incident))
                 = Err ErrInvalidHex).
    { apply ObjectIDFromHex_wrong_length.
      pose proof (decimal_length (Incident.IncidentKey incident)). lia. }
    split; [eauto|]. split.
    + intros req. now apply (UpdateIncidentSeverity_raw_id w _ found).
    + intros watcher. now apply (AddWatcherToIncident_raw_id w _ found).
Qed.

Lemma key_id_rejected_by_store_writes_witness :
  repository.GetByID "1" one_incident_world
  = (Ok first_incident, one_incident_world) /\
  @services.UpdateIncidentSeverity example_runtime "1"
    (UpdateIncidentSeverityRequest.mk Low "") one_incident_world
  = (Err (Wrapf "failed to update incident severity"
            (Wrapf "invalid incident ID format" ErrInvalidHex)), one_incident_world) /\
  @services.AddWatcherToIncident example_runtime "1" (Watcher.mk "x@y.z") one_incident_world
  = (Err (Wrapf "failed to add watcher to incident"
            (Wrapf "invalid incident ID" ErrInvalidHex)), one_incident_world) /\
  (exists cause,
     @services.AddWatcherToIncident example_runtime "+1" (Watcher.mk "x@y.z")
       one_incident_world
     = (Err (Wrapf "failed to add watcher to incident"
               (Wrapf "invalid incident ID" cause)), one_incident_world)).
Proof.
  destruct (@key_id_rejected_by_store_writes example_runtime one_incident_world)
    as (_ & Hany & Hkey).
  destruct (Hkey first_incident) as (_ & Hsev & Hwatch);
    [left; reflexivity | vm_compute; split; discriminate |].
  split; [reflexivity|]. split; [|split].
  - apply (Hsev (UpdateIncidentSeverityRequest.mk Low "")). reflexivity.
  - apply (Hwatch (Watcher.mk "x@y.z")). reflexivity.
  - destruct (Hany "+1" first_incident) as (cause & _ & _ & Hw);
      [reflexivity | reflexivity |].
    exists cause. apply (Hw (Watcher.mk "x@y.z")). reflexivity.
Defined.

(* ================================================================== *)
(** * Further properties of the service *)

(** ** The transition rule on arbitrary statuses *)

Lemma validateStatusTransition_sound (from to : IncidentStatus) :
  services.validateStatusTransition from to = None -> transition_table from to.
Proof.
  unfold services.validateStatusTransition, services.allowedTransitions,
    services.map_lookup, Open, InProgress, Resolved, Closed.
  case_eqb "open" from.
  { cbn [existsb]. case_eqb "in_progress" to; [intros _; constructor|].
    case_eqb "resolved" to; [intros _; constructor|].
    case_eqb "closed" to; [intros _; constructor|]. discriminate. }
  case_eqb "in_progress" from.
  { cbn [existsb]. case_eqb "open" to; [intros _; constructor|].
    case_eqb "resolved" to; [intros _; constructor|].
    case_eqb "closed" to; [intros _; constructor|]. discriminate. }
  case_eqb "resolved" from.
  { cbn [existsb]. case_eqb "open" to; [intros _; constructor|].
    case_eqb "in_progress" to; [intros _; constructor|].
    case_eqb "closed" to; [intros _; constructor|]. discriminate. }
  case_eqb "closed" from.
  { cbn [existsb]. case_eqb "open" to; [intros _; constructor|]. discriminate. }
  discriminate.
Qed.

Lemma transition_table_valid (from to : IncidentStatus) :
  transition_table from to ->
  In from ValidStatuses /\ In to ValidStatuses /\ from <> to.
Proof.
  intros H; destruct H; repeat split;
    try (unfold ValidStatuses, Open, InProgress, Resolved, Closed; simpl; auto 6);
    discriminate.
Qed.

(** X1. Whatever strings the stored and the requested status are, the
    check of the service accepts the pair exactly when it is a row of the
    transition table, and otherwise reports that the transition cannot be
    made.  So a status is never re-entered from itself, and an incident
    whose stored status is outside the enumeration can never change status,
    nor can any incident move to a status outside it. *)
Theorem validateStatusTransition_exact (from to : IncidentStatus) :
  (services.validateStatusTransition from to = None <-> transition_table from to) /\
  (services.validateStatusTransition from to = None \/
   services.validateStatusTransition from to
   = Some (Errorf ("cannot transition from " ++ from ++ " to " ++ to))) /\
  services.validateStatusTransition from from <> None /\
  (~ In from ValidStatuses -> services.validateStatusTransition from to <> None) /\
  (~ In to ValidStatuses -> services.validateStatusTransition from to <> None).
Proof.
  split; [|split; [|split; [|split]]].
  - split; [apply validateStatusTransition_sound|].
    intros H; destruct H; reflexivity.
  - unfold services.validateStatusTransition.
    destruct (services.map_lookup from services.allowedTransitions); [|now right].
    destruct (existsb _ _); [now left | now right].
  - intros H. apply validateStatusTransition_sound in H.
    apply transition_table_valid in H. now destruct H as (_ & _ & H).
  - intros Hout H. apply validateStatusTransition_sound in H.
    apply transition_table_valid in H. now destruct H as (H & _).
  - intros Hout H. apply validateStatusTransition_sound in H.
    apply transition_table_valid in H. now destruct H as (_ & H & _).
Qed.

Lemma validateStatusTransition_exact_witness :
  services.validateStatusTransition "acknowledged" "open" <> None /\
  services.validateStatusTransition "open" "archived" <> None.
Proof.
  split.
  - destruct (validateStatusTransition_exact "acknowledged" "open") as (_ & _ & _ & H & _).
    apply H. unfold ValidStatuses, Open, InProgress, Resolved, Closed.
    simpl. intros [E|[E|[E|[E|[]]]]]; discriminate.
  - destruct (validateStatusTransition_exact "open" "archived") as (_ & _ & _ & _ & H).
    apply H. unfold ValidStatuses, Open, InProgress, Resolved, Closed.
    simpl. intros [E|[E|[E|[E|[]]]]]; discriminate.
Defined.

(** X2. Among the four statuses none is a dead end, a closed incident can
    only be reopened, and every status is reached from every other one by
    at most two accepted transitions. *)
Theorem transitions_connect (from to : IncidentStatus) :
  In from ValidStatuses -> In to ValidStatuses ->
  (exists next, step from next) /\
  (step "closed" to -> to = "open") /\
  (from <> to -> step from to \/ exists via, step from via /\ step via to).
Proof.
  intros Hf Ht.
  apply valid_status_cases in Hf. apply valid_status_cases in Ht.
  split; [|split].
  - destruct Hf as [-> | [-> | [-> | ->]]];
      [exists "closed" | exists "open" | exists "open" | exists "open"]; reflexivity.
  - intros H. apply validateStatusTransition_sound in H. now inversion H.
  - intros Hne.
    destruct Hf as [-> | [-> | [-> | ->]]]; destruct Ht as [-> | [-> | [-> | ->]]];
      try (now destruct Hne); try (left; reflexivity);
      right; exists "open"; split; reflexivity.
Qed.

Lemma transitions_connect_witness :
  exists via, step "closed" via /\ step via "resolved".
Proof.
  destruct (transitions_connect "closed" "resolved") as (_ & _ & H);
    [unfold ValidStatuses, Open, InProgress, Resolved, Closed; simpl; auto 6
    |unfold ValidStatuses, Open, InProgress, Resolved, Closed; simpl; auto 6|].
  destruct (H ltac:(discriminate)) as [Hdirect|Hvia]; [|exact Hvia].
  exfalso. apply validateStatusTransition_sound in Hdirect. inversion Hdirect.
Defined.

(** ** package config *)

Lemma substring_prefix_length (n : nat) (s : string) :
  (n <= String.length s)%nat -> String.length (substring 0 n s) = n.
Proof.
  revert s; induction n as [|n IH]; intros s H.
  - now destruct s.
  - destruct s as [|c s]; simpl in *; [lia|]. rewrite IH; lia.
Qed.

Lemma substring_prefix_append (p rest : string) :
  substring 0 (String.length p) (p ++ rest) = p.
Proof.
  induction p as [|c p IH]; simpl.
  - now destruct rest.
  - now rewrite IH.
Qed.

Lemma substring_prefix_twice (n : nat) (s : string) :
  substring 0 n (substring 0 n s) = substring 0 n s.
Proof.
  revert s; induction n as [|n IH]; intros s.
  - now destruct s.
  - destruct s as [|c s]; simpl; [reflexivity|]. now rewrite IH.
Qed.

Lemma append_length (a b : string) :
  String.length (a ++ b) = (String.length a + String.length b)%nat.
Proof. induction a as [|c a IH]; simpl; [reflexivity|]. now rewrite IH. Qed.

(** X3. The masked form of a URI is never longer than 23 bytes; a URI of
    more than 20 bytes is cut after its 20th byte, so that two URIs that
    agree on their first 20 bytes are logged alike whatever follows, and a
    shorter one is logged whole; masking twice is masking once. *)
Theorem maskURI_hides_the_tail (uri : string) :
  (String.length (config.maskURI uri) <= 23)%nat /\
  ((String.length uri <= 20)%nat -> config.maskURI uri = uri) /\
  (forall head tail other,
     uri = head ++ tail -> String.length head = 20%nat ->
     tail <> "" -> other <> "" ->
     config.maskURI uri = head ++ "..." /\
     config.maskURI (head ++ other) = config.maskURI uri) /\
  config.maskURI (config.maskURI uri) = config.maskURI uri.
Proof.
  assert (Hlong : forall head tail,
            String.length head = 20%nat -> tail <> "" ->
            config.maskURI (head ++ tail) = head ++ "...").
  { intros head tail Hh Ht. unfold config.maskURI.
    rewrite append_length, Hh.
    destruct tail as [|c tail]; [congruence|]. cbn [String.length].
    replace (20 <? 20 + S (String.length tail))%nat with true
      by (symmetry; apply Nat.ltb_lt; lia).
    rewrite <- Hh at 1. now rewrite substring_prefix_append. }
  split; [|split; [|split]].
  - unfold config.maskURI. destruct (20 <? String.length uri)%nat eqn:E.
    + apply Nat.ltb_lt in E. rewrite append_length, substring_prefix_length by lia.
      simpl. lia.
    + apply Nat.ltb_ge in E. lia.
  - intros H. unfold config.maskURI.
    replace (20 <? String.length uri)%nat with false
      by (symmetry; apply Nat.ltb_ge; lia). reflexivity.
  - intros head tail other -> Hh Ht Ho.
    rewrite (Hlong head tail Hh Ht), (Hlong head other Hh Ho). now split.
  - destruct (20 <? String.length uri)%nat eqn:E.
    + assert (Hm : config.maskURI uri = substring 0 20 uri ++ "...")
        by (unfold config.maskURI; now rewrite E).
      apply Nat.ltb_lt in E. rewrite Hm.
      apply (Hlong (substring 0 20 uri) "...");
        [apply substring_prefix_length; lia | discriminate].
    + assert (Hm : config.maskURI uri = uri)
        by (unfold config.maskURI; now rewrite E).
      now rewrite !Hm.
Qed.

Lemma maskURI_hides_the_tail_witness :
  config.maskURI "mongodb://localhost:27017/incidents"
  = config.maskURI "mongodb://localhost:9999/secret".
Proof.
  destruct (maskURI_hides_the_tail "mongodb://localhost:27017/incidents")
    as (_ & _ & H & _).
  destruct (H "mongodb://localhost:" "27017/incidents" "9999/secret")
    as [_ Hsame]; [reflexivity | reflexivity | discriminate | discriminate |].
  symmetry. exact Hsame.
Defined.

(** ** What no operation undoes *)

Lemma evolves_refl (d : Incident.t) : evolves d d.
Proof.
  unfold evolves. repeat split; auto. exists []. now rewrite app_nil_r.
Qed.

Lemma evolves_trans (a b c : Incident.t) : evolves a b -> evolves b c -> evolves a c.
Proof.
  unfold evolves.
  intros (I1 & K1 & T1 & C1 & B1 & D1 & A1 & (n1 & N1) & W1)
         (I2 & K2 & T2 & C2 & B2 & D2 & A2 & (n2 & N2) & W2).
  repeat split; try congruence; auto.
  exists (n1 ++ n2)%list. now rewrite N2, N1, app_assoc.
Qed.

Lemma Forall2_evolves_refl (docs : list Incident.t) : Forall2 evolves docs docs.
Proof. induction docs; constructor; auto using evolves_refl. Qed.

Lemma Forall2_evolves_trans (l1 l2 l3 : list Incident.t) :
  Forall2 evolves l1 l2 -> Forall2 evolves l2 l3 -> Forall2 evolves l1 l3.
Proof.
  intros H; revert l3; induction H; intros l3 H3; inversion H3; subst; constructor;
    eauto using evolves_trans.
Qed.

Lemma store_evolves_refl (w : World) : store_evolves w w.
Proof.
  split; [|lia]. exists (collection w), []. rewrite app_nil_r.
  split; [reflexivity | apply Forall2_evolves_refl].
Qed.

Lemma store_evolves_trans (w1 w2 w3 : World) :
  store_evolves w1 w2 -> store_evolves w2 w3 -> store_evolves w1 w3.
Proof.
  intros ((k1 & c1 & E1 & F1) & O1 & N1) ((k2 & c2 & E2 & F2) & O2 & N2).
  split; [|lia].
  rewrite E1 in F2. apply Forall2_app_inv_l in F2 as (k2a & k2b & Fa & Fb & ->).
  exists k2a, (k2b ++ c2)%list. split; [now rewrite E2, app_assoc|].
  eapply Forall2_evolves_trans; eauto.
Qed.

(** An update applied to one document evolves the collection in place
    when it evolves that document. *)
Lemma update_first_evolves (filter : Incident.t -> bool) (update : Incident.t -> Incident.t)
    (docs docs' : list Incident.t) (d' : Incident.t) :
  (forall x, evolves x (update x)) ->
  mongo.update_first filter update docs = Some (d', docs') ->
  Forall2 evolves docs docs'.
Proof.
  intros Hu. revert docs' d'. induction docs as [|x docs IH]; simpl; [discriminate|].
  intros docs' d'. destruct (filter x).
  - intros H; inversion H; subst. constructor; [apply Hu | apply Forall2_evolves_refl].
  - destruct (mongo.update_first filter update docs) as [[d0 rest]|]; [|discriminate].
    intros H; inversion H; subst. constructor; [apply evolves_refl | eapply IH; eauto].
Qed.

Lemma set_status_evolves (status : IncidentStatus) (now : Time) (d : Incident.t) :
  evolves d (mongo.set_status status now d).
Proof.
  unfold evolves. cbn. repeat split; auto. exists []. now rewrite app_nil_r.
Qed.

Lemma set_severity_evolves (severity : IncidentSeverity) (now : Time) (d : Incident.t) :
  evolves d (mongo.set_severity severity now d).
Proof.
  unfold evolves. cbn. repeat split; auto. exists []. now rewrite app_nil_r.
Qed.

Lemma push_note_evolves (note : Note.t) (now : Time) (d : Incident.t) :
  evolves d (mongo.push_note note now d).
Proof.
  unfold evolves. cbn. repeat split; auto. now exists [note].
Qed.

Lemma addToSet_watchlist_evolves (watcher : Watcher.t) (now : Time) (d : Incident.t) :
  evolves d (mongo.addToSet_watchlist watcher now d).
Proof.
  unfold evolves. cbn. repeat split; auto.
  - exists []. now rewrite app_nil_r.
  - intros x Hx. unfold mongo.addToSet.
    destruct (existsb _ _); [exact Hx | apply in_or_app; now left].
Qed.

Section Evolution.

Context {R : Runtime}.

Lemma evolving_ret {A : Type} (a : A) : evolving (ret a).
Proof. intros w r w' H. inversion H; subst. apply store_evolves_refl. Qed.

Lemma evolving_fail {A : Type} (e : error) : evolving (@fail A e).
Proof. intros w r w' H. inversion H; subst. apply store_evolves_refl. Qed.

Lemma evolving_bind {A B : Type} (m : M A) (k : A -> M B) :
  evolving m -> (forall a, evolving (k a)) -> evolving (bind m k).
Proof.
  intros Hm Hk w r w'. unfold bind.
  destruct (m w) as [[a|e] w1] eqn:E.
  - intros H. eapply store_evolves_trans; [eapply Hm; eauto | eapply Hk; eauto].
  - intros H; inversion H; subst. eapply Hm; eauto.
Qed.

Lemma evolving_on_error {A : Type} (m : M A) (h : error -> error) :
  evolving m -> evolving (on_error m h).
Proof.
  intros Hm w r w'. unfold on_error.
  destruct (m w) as [[a|e] w1] eqn:E; intros H; inversion H; subst; eapply Hm; eauto.
Qed.

Lemma evolving_NewObjectID : evolving NewObjectID.
Proof.
  intros w r w' H. inversion H; subst. split; [|cbn; lia].
  exists (collection w), []. cbn. rewrite app_nil_r.
  split; [reflexivity | apply Forall2_evolves_refl].
Qed.

Lemma evolving_time_Now : evolving time_Now.
Proof.
  intros w r w' H. inversion H; subst. split; [|cbn; lia].
  exists (collection w), []. cbn. rewrite app_nil_r.
  split; [reflexivity | apply Forall2_evolves_refl].
Qed.

Lemma evolving_InsertOne (doc : Incident.t) : evolving (mongo.InsertOne doc).
Proof.
  intros w r w' H. inversion H; subst. split; [|cbn; lia].
  exists (collection w), [doc]. cbn. split; [reflexivity | apply Forall2_evolves_refl].
Qed.

Lemma evolving_FindOne (filter : Incident.t -> bool) : evolving (mongo.FindOne filter).
Proof.
  intros w r w'. unfold mongo.FindOne.
  destruct (mongo.find_first _ _); intros H; inversion H; subst; apply store_evolves_refl.
Qed.

Lemma evolving_FindOneAndUpdate (filter : Incident.t -> bool)
    (update : Incident.t -> Incident.t) :
  (forall x, evolves x (update x)) -> evolving (mongo.FindOneAndUpdate filter update).
Proof.
  intros Hu w r w'. unfold mongo.FindOneAndUpdate.
  destruct (mongo.update_first _ _ _) as [[d docs]|] eqn:E;
    intros H; inversion H; subst; [|apply store_evolves_refl].
  split; [|cbn; lia]. exists docs, []. cbn. rewrite app_nil_r.
  split; [reflexivity | eapply update_first_evolves; eauto].
Qed.

Lemma evolving_GetByID (id : string) : evolving (repository.GetByID id).
Proof.
  intros w r w' H. apply GetByID_pure in H. subst. apply store_evolves_refl.
Qed.

Lemma evolving_GetNextIncidentKey : evolving repository.GetNextIncidentKey.
Proof.
  intros w r w' H. rewrite GetNextIncidentKey_run in H. inversion H; subst.
  apply store_evolves_refl.
Qed.

Lemma evolving_Create (incident : Incident.t) : evolving (repository.Create incident).
Proof.
  unfold repository.Create.
  apply evolving_bind; [apply evolving_time_Now|]. intros now.
  apply evolving_bind; [apply evolving_NewObjectID|]. intros id.
  apply evolving_bind; [apply evolving_on_error, evolving_InsertOne|]. intros inserted.
  apply evolving_ret.
Qed.

Lemma evolving_UpdateStatus (id : string) (status : IncidentStatus) :
  evolving (repository.UpdateStatus id status).
Proof.
  unfold repository.UpdateStatus.
  destruct (primitive.ObjectIDFromHex id); [|apply evolving_fail].
  apply evolving_bind; [apply evolving_time_Now|]. intros now.
  apply evolving_on_error, evolving_FindOneAndUpdate. apply set_status_evolves.
Qed.

Lemma evolving_UpdateSeverity (id : string) (severity : IncidentSeverity) :
  evolving (repository.UpdateSeverity id severity).
Proof.
  unfold repository.UpdateSeverity.
  destruct (primitive.ObjectIDFromHex id); [|apply evolving_fail].
  apply evolving_bind; [apply evolving_time_Now|]. intros now.
  apply evolving_on_error, evolving_FindOneAndUpdate. apply set_severity_evolves.
Qed.

Lemma evolving_AddNote (id : string) (note : Note.t) :
  evolving (repository.AddNote id note).
Proof.
  unfold repository.AddNote.
  destruct (primitive.ObjectIDFromHex id); [|apply evolving_fail].
  apply evolving_bind; [apply evolving_NewObjectID|]. intros noteID.
  apply evolving_bind; [apply evolving_time_Now|]. intros createdAt.
  apply evolving_bind; [apply evolving_time_Now|]. intros now.
  apply evolving_on_error, evolving_FindOneAndUpdate. apply push_note_evolves.
Qed.

Lemma evolving_repository_AddWatcher (id : string) (watcher : Watcher.t) :
  evolving (repository.AddWatcherToIncident id watcher).
Proof.
  unfold repository.AddWatcherToIncident.
  destruct (primitive.ObjectIDFromHex id); [|apply evolving_fail].
  apply evolving_bind; [apply evolving_time_Now|]. intros now.
  apply evolving_on_error, evolving_FindOneAndUpdate. apply addToSet_watchlist_evolves.
Qed.

Lemma evolving_stamp_notes (notes : list Note.t) : evolving (services.stamp_notes notes).
Proof.
  induction notes as [|note rest IH]; cbn [services.stamp_notes]; [apply evolving_ret|].
  apply evolving_bind; [apply evolving_NewObjectID|]. intros id.
  apply evolving_bind; [apply evolving_time_Now|]. intros createdAt.
  apply evolving_bind; [apply IH|]. intros rest'. apply evolving_ret.
Qed.

Lemma evolving_services_AddWatcher (id : string) (watcher : Watcher.t) :
  evolving (services.AddWatcherToIncident id watcher).
Proof.
  unfold services.AddWatcherToIncident.
  apply evolving_bind; [apply evolving_on_error, evolving_GetByID|]. intros _.
  destruct (services.validateEmail _); [apply evolving_fail|].
  apply evolving_on_error, evolving_repository_AddWatcher.
Qed.

Lemma evolving_emit (event : KafkaEvent) {A : Type} (a : A) :
  evolving (bind (kafka.ProduceMessage event) (fun _ => ret a)).
Proof.
  apply evolving_bind; [apply evolving_ret|]. intros _. apply evolving_ret.
Qed.

End Evolution.

(** X4. Whatever it returns, no operation of the service deletes an
    incident, changes a stored id, key, title, creation instant, creator,
    description or assignee, drops or rewrites a note that is already there,
    or removes a watcher: stored incidents evolve in place and new ones are
    added after them. *)
Theorem service_only_evolves_the_store {R : Runtime} :
  (forall req, evolving (services.CreateIncident req)) /\
  (forall id req, evolving (services.UpdateIncidentStatus id req)) /\
  (forall id req, evolving (services.UpdateIncidentSeverity id req)) /\
  (forall id req, evolving (services.AddNoteToIncident id req)) /\
  (forall id watcher, evolving (services.AddWatcherToIncident id watcher)) /\
  (forall id, evolving (services.GetByID id)) /\
  evolving services.GetAllIncidents.
Proof.
  split; [|split; [|split; [|split; [|split; [|split]]]]].
  - intros req. unfold services.CreateIncident.
    destruct (negb _); [apply evolving_fail|].
    apply evolving_bind.
    { destruct (CreateIncidentRequest.Notes req);
        [apply evolving_stamp_notes | apply evolving_ret]. }
    intros notes. apply evolving_bind.
    { destruct (negb _); [|apply evolving_ret].
      destruct (services.validateEmail _); [apply evolving_fail | apply evolving_ret]. }
    intros watchers.
    apply evolving_bind; [apply evolving_on_error, evolving_GetNextIncidentKey|].
    intros nextKey.
    apply evolving_bind; [apply evolving_on_error, evolving_Create|]. intros created.
    apply evolving_bind; [apply evolving_NewObjectID|]. intros eventKey.
    apply evolving_emit.
  - intros id req. unfold services.UpdateIncidentStatus.
    destruct (negb _); [apply evolving_fail|].
    apply evolving_bind; [apply evolving_on_error, evolving_GetByID|]. intros existing.
    destruct (services.validateStatusTransition _ _); [apply evolving_fail|].
    apply evolving_bind; [apply evolving_on_error, evolving_UpdateStatus|]. intros updated.
    apply evolving_bind.
    { destruct (negb _); [|apply evolving_ret].
      apply evolving_bind; [apply evolving_on_error, evolving_services_AddWatcher|].
      intros _. apply evolving_ret. }
    intros _. apply evolving_bind; [apply evolving_NewObjectID|]. intros eventKey.
    apply evolving_emit.
  - intros id req. unfold services.UpdateIncidentSeverity.
    destruct (negb _); [apply evolving_fail|].
    apply evolving_bind; [apply evolving_on_error, evolving_GetByID|]. intros _.
    apply evolving_bind; [apply evolving_on_error, evolving_UpdateSeverity|]. intros updated.
    apply evolving_bind.
    { destruct (negb _); [|apply evolving_ret].
      apply evolving_bind; [apply evolving_on_error, evolving_services_AddWatcher|].
      intros _. apply evolving_ret. }
    intros _. apply evolving_bind; [apply evolving_NewObjectID|]. intros eventKey.
    apply evolving_emit.
  - intros id req. unfold services.AddNoteToIncident.
    apply evolving_bind; [apply evolving_on_error, evolving_GetByID|]. intros existing.
    apply evolving_bind; [apply evolving_on_error, evolving_AddNote|]. intros updated.
    apply evolving_bind; [apply evolving_NewObjectID|]. intros eventKey.
    apply evolving_emit.
  - intros id watcher. apply evolving_services_AddWatcher.
  - intros id. apply evolving_on_error, evolving_GetByID.
  - unfold services.GetAllIncidents, repository.GetAllIncidents.
    apply evolving_on_error, evolving_bind.
    + apply evolving_on_error. intros w r w' H. inversion H; subst.
      apply store_evolves_refl.
    + intros l. apply evolving_on_error, evolving_ret.
Qed.

(** ** Creation: outcome and fields *)

Lemma IsValid_severity_In (s : IncidentSeverity) :
  IncidentSeverity_IsValid s = true -> In s ValidSeverities.
Proof.
  unfold IncidentSeverity_IsValid. intros H.
  apply existsb_exists in H as (x & Hx & E). apply String.eqb_eq in E. now subst.
Qed.

Lemma IsValid_status_In (s : IncidentStatus) :
  IncidentStatus_IsValid s = true -> In s ValidStatuses.
Proof.
  unfold IncidentStatus_IsValid. intros H.
  apply existsb_exists in H as (x & Hx & E). apply String.eqb_eq in E. now subst.
Qed.

Section CreationOutcome.

Context {R : Runtime}.

(** A request with a severity outside the enumeration is refused before
    anything is read or written. *)
Lemma CreateIncident_invalid_severity (req : CreateIncidentRequest.t) (w : World) :
  IncidentSeverity_IsValid (CreateIncidentRequest.Severity req) = false ->
  services.CreateIncident req w
  = (Err (Errorf ("invalid severity: " ++ CreateIncidentRequest.Severity req)), w).
Proof.
  intros H. unfold services.CreateIncident. now rewrite H.
Qed.

(** A request with a malformed author e-mail is refused after its notes
    were stamped and before the store is touched. *)
Lemma CreateIncident_invalid_email (req : CreateIncidentRequest.t) (w : World) :
  IncidentSeverity_IsValid (CreateIncidentRequest.Severity req) = true ->
  ~ blank (CreateIncidentRequest.AuthorEmail req) ->
  checkmail_ValidateFormat (CreateIncidentRequest.AuthorEmail req) = false ->
  services.CreateIncident req w
  = (Err (Wrapf "invalid email" (Wrapf "invalid email format" ErrBadFormat)),
     mkWorld (collection w) (oid_calls w + List.length (supplied_notes req))
       (now_calls w + List.length (supplied_notes req))).
Proof.
  intros Hsev Hnb Hbad. unfold services.CreateIncident. rewrite Hsev. cbn [negb].
  assert (Hnotes :
    (match CreateIncidentRequest.Notes req with
     | Some supplied => services.stamp_notes supplied
     | None => ret []
     end) w
    = (Ok (stamped (supplied_notes req) (oid_calls w) (now_calls w)),
       mkWorld (collection w) (oid_calls w + List.length (supplied_notes req))
         (now_calls w + List.length (supplied_notes req)))).
  { unfold supplied_notes. destruct (CreateIncidentRequest.Notes req).
    - apply stamp_notes_run.
    - unfold ret. simpl. rewrite !Nat.add_0_r. now destruct w. }
  unfold bind at 1. rewrite Hnotes.
  assert (B : negb (String.eqb (strings.Trim (CreateIncidentRequest.AuthorEmail req) " ") "")
              = true).
  { apply negb_true_iff. now apply String.eqb_neq. }
  rewrite B. unfold services.validateEmail. rewrite Hbad.
  reflexivity.
Qed.

End CreationOutcome.

(** The two outcomes of a creation. *)
Lemma CreateIncident_cases {R : Runtime} (req : CreateIncidentRequest.t) (w : World) :
  (valid_creation req /\
   services.CreateIncident req w
   = (Ok (created_incident req w),
      mkWorld (collection w ++ [created_incident req w])
        (S (S (oid_calls w + List.length (supplied_notes req))))
        (S (now_calls w + List.length (supplied_notes req))))) \/
  (~ valid_creation req /\
   exists e w',
     services.CreateIncident req w = (Err e, w') /\
     collection w' = collection w /\
     (e = Errorf ("invalid severity: " ++ CreateIncidentRequest.Severity req) \/
      e = Wrapf "invalid email" (Wrapf "invalid email format" ErrBadFormat))).
Proof.
  destruct (IncidentSeverity_IsValid (CreateIncidentRequest.Severity req)) eqn:Hsev.
  - destruct (String.eqb (strings.Trim (CreateIncidentRequest.AuthorEmail req) " ") "")
      eqn:Hblank.
    + apply String.eqb_eq in Hblank.
      assert (Hvalid : valid_creation req)
        by (split; [now apply IsValid_severity_In | now left]).
      left. split; [exact Hvalid | now apply CreateIncident_run].
    + apply String.eqb_neq in Hblank.
      destruct (checkmail_ValidateFormat (CreateIncidentRequest.AuthorEmail req)) eqn:Hfmt.
      * assert (Hvalid : valid_creation req)
          by (split; [now apply IsValid_severity_In | now right]).
        left. split; [exact Hvalid | now apply CreateIncident_run].
      * right. split.
        -- intros [_ [Hb|Hv]]; [contradiction | congruence].
        -- do 2 eexists. split; [now apply CreateIncident_invalid_email|].
           cbn. auto.
  - right. split.
    + intros [Hin _]. apply IsValid_of_In_severity in Hin. congruence.
    + do 2 eexists. split; [now apply CreateIncident_invalid_severity|]. auto.
Qed.



(** X6. The incident that [CreateIncident] returns carries the title,
    severity, description and assignee of the request, names the author
    e-mail as its creator, and is watched by the author alone, or by nobody
    when the author e-mail is blank; it is the last document of the
    collection. *)
Theorem CreateIncident_copies_the_request {R : Runtime}
    (req : CreateIncidentRequest.t) (w w' : World) (incident : Incident.t) :
  services.CreateIncident req w = (Ok incident, w') ->
  Incident.Title incident = CreateIncidentRequest.Title req /\
  Incident.Severity incident = CreateIncidentRequest.Severity req /\
  Incident.Description incident = CreateIncidentRequest.Description req /\
  Incident.Assignee incident = CreateIncidentRequest.Assignee req /\
  Incident.CreatedBy incident = CreateIncidentRequest.AuthorEmail req /\
  (blank (CreateIncidentRequest.AuthorEmail req) -> Incident.WatchList incident = []) /\
  (~ blank (CreateIncidentRequest.AuthorEmail req) ->
   Incident.WatchList incident = [Watcher.mk (CreateIncidentRequest.AuthorEmail req)]) /\
  collection w' = (collection w ++ [incident])%list.
Proof.
  intros Hrun.
  destruct (CreateIncident_cases req w)
    as [[Hvalid Hok]|(_ & e0 & w0 & Herr & _)]; [|congruence].
  rewrite Hok in Hrun. inversion Hrun; subst. clear Hrun Hok.
  cbn. repeat split; auto.
  - intros Hb. unfold initial_watchers, blank in *. now rewrite Hb.
  - intros Hnb. unfold initial_watchers.
    replace (String.eqb (strings.Trim (CreateIncidentRequest.AuthorEmail req) " ") "")
      with false by (symmetry; now apply String.eqb_neq).
    reflexivity.
Qed.

Lemma CreateIncident_copies_the_request_witness :
  Incident.WatchList first_incident = [Watcher.mk "a@b.com"] /\
  Incident.CreatedBy first_incident = "a@b.com".
Proof.
  destruct (@CreateIncident_copies_the_request example_runtime
              (CreateIncidentRequest.mk "Database Connection Failed" Critical "" None
                 "a@b.com" "")
              empty_world one_incident_world first_incident eq_refl)
    as (_ & _ & _ & _ & Hby & _ & Hw & _).
  split; [apply Hw; unfold blank; simpl; discriminate | exact Hby].
Defined.

(** ** Outcomes of the updates *)

Section UpdateOutcomes.

Context {R : Runtime}.

Lemma GetByID_result (id : string) (w : World) :
  (exists existing, repository.GetByID id w = (Ok existing, w)) \/
  (exists e, repository.GetByID id w = (Err e, w)).
Proof.
  destruct (repository.GetByID id w) as [[x|e] w1] eqn:E;
    pose proof (GetByID_pure _ _ _ _ E); subst; eauto.
Qed.

(** The severity write either fails without touching the collection or
    returns a document with the requested severity. *)
Lemma repository_UpdateSeverity_result (id : string) (severity : IncidentSeverity)
    (w w' : World) (r : result Incident.t) :
  repository.UpdateSeverity id severity w = (r, w') ->
  (exists cause, r = Err cause /\ collection w' = collection w) \/
  (exists updated, r = Ok updated /\ Incident.Severity updated = severity /\
                   In updated (collection w')).
Proof.
  unfold repository.UpdateSeverity.
  destruct (primitive.ObjectIDFromHex id) as [oid|e0].
  - unfold bind, on_error, time_Now, mongo.FindOneAndUpdate.
    cbn [collection oid_calls now_calls].
    destruct (mongo.update_first _ _ (collection w)) as [[d docs]|] eqn:HU.
    + intros H; inversion H; subst. right.
      destruct (update_first_selected _ _ _ _ _ HU) as (x & HF & ->).
      destruct (update_first_found _ (mongo.set_severity severity (Now_at (now_calls w)))
                  _ _ HF) as (docs2 & HU2 & Hin & _).
      rewrite HU in HU2. inversion HU2; subst.
      eexists. repeat split; auto.
    + intros H; inversion H; subst. left. eauto.
  - intros H; inversion H; subst. left. eauto.
Qed.

End UpdateOutcomes.




(** X8. A severity update ends in one of five ways and in no other: the
    requested severity is not of the enumeration or the incident is not
    found, and then the world is untouched; the store write fails and the
    collection is untouched; the severity was written and the chained
    watcher add failed, the severity staying written; or the call returns an
    incident with the requested severity. *)
Theorem UpdateIncidentSeverity_outcomes {R : Runtime}
    (w w' : World) (id : string) (req : UpdateIncidentSeverityRequest.t)
    (r : result Incident.t) :
  services.UpdateIncidentSeverity id req w = (r, w') ->
  (r = Err (Errorf ("invalid severity: " ++ UpdateIncidentSeverityRequest.Severity req)) /\
   w' = w) \/
  (exists e,
     repository.GetByID id w = (Err e, w) /\
     r = Err (Wrapf "incident not found" e) /\ w' = w) \/
  (exists cause,
     r = Err (Wrapf "failed to update incident severity" cause) /\
     collection w' = collection w) \/
  (exists cause stored,
     r = Err (Wrapf "updated incident severity but failed to add watcher to incident"
                cause) /\
     In stored (collection w') /\
     Incident.Severity stored = UpdateIncidentSeverityRequest.Severity req) \/
  (exists updated,
     r = Ok updated /\
     Incident.Severity updated = UpdateIncidentSeverityRequest.Severity req).
Proof.
  unfold services.UpdateIncidentSeverity.
  destruct (IncidentSeverity_IsValid (UpdateIncidentSeverityRequest.Severity req)) eqn:HV;
    cbn [negb].
  - unfold bind at 1. unfold on_error at 1.
    destruct (GetByID_result id w) as [(existing & HG)|(e & HG)]; rewrite HG.
    + unfold bind at 1. unfold on_error at 1.
      destruct (repository.UpdateSeverity id (UpdateIncidentSeverityRequest.Severity req) w)
        as [r1 w1] eqn:HU.
      destruct (repository_UpdateSeverity_result _ _ _ _ _ HU)
        as [(cause & -> & Hkeep)|(updated & -> & Hsev & Hin)].
      * intros H; inversion H; subst. do 2 right. left. eauto.
      * unfold bind at 1.
        destruct (negb _).
        -- unfold bind at 1. unfold on_error at 1.
           destruct (services.AddWatcherToIncident _ _ w1) as [[a|cause] w3] eqn:HA.
           ++ unfold ret at 1. unfold bind, NewObjectID, kafka.ProduceMessage, ret.
              intros H; inversion H; subst. do 4 right. eauto.
           ++ intros H; inversion H; subst. do 3 right. left.
              exists cause, updated. split; [reflexivity|].
              rewrite (services_AddWatcher_failure _ _ _ _ _ HA). auto.
        -- unfold bind, NewObjectID, kafka.ProduceMessage, ret.
           intros H; inversion H; subst. do 4 right. eauto.
    + intros H; inversion H; subst. right. left. eauto.
  - unfold fail. intros H; inversion H; subst. left. auto.
Qed.

Lemma UpdateIncidentSeverity_outcomes_witness :
  exists cause,
    fst (@services.UpdateIncidentSeverity example_runtime "1"
           (UpdateIncidentSeverityRequest.mk Low "") one_incident_world)
    = Err (Wrapf "failed to update incident severity" cause).
Proof.
  destruct (@services.UpdateIncidentSeverity example_runtime "1"
              (UpdateIncidentSeverityRequest.mk Low "") one_incident_world)
    as [r w'] eqn:E.
  destruct (@UpdateIncidentSeverity_outcomes example_runtime one_incident_world w' "1"
              (UpdateIncidentSeverityRequest.mk Low "") r E)
    as [[Hr _]|[(e & HG & _)|[(cause & Hr & _)|[(c & s & Hr & _)|(u & Hr & _)]]]];
    try (vm_compute in E; rewrite Hr in E; discriminate);
    try (vm_compute in HG; discriminate).
  exists cause. exact Hr.
Defined.



(** ** What every operation keeps *)

Section Keeping.

Context {R : Runtime}.

Variable P : World -> Prop.

Lemma keeps_ret {A : Type} (a : A) : keeps P (ret a).
Proof. intros w r w' HP H. now inversion H; subst. Qed.

Lemma keeps_fail {A : Type} (e : error) : keeps P (@fail A e).
Proof. intros w r w' HP H. now inversion H; subst. Qed.

Lemma keeps_bind {A B : Type} (m : M A) (k : A -> M B) :
  keeps P m -> (forall a, keeps P (k a)) -> keeps P (bind m k).
Proof.
  intros Hm Hk w r w' HP. unfold bind.
  destruct (m w) as [[a|e] w1] eqn:E.
  - intros H. eapply Hk; [|exact H]. eapply Hm; eauto.
  - intros H; inversion H; subst. eapply Hm; eauto.
Qed.

Lemma keeps_on_error {A : Type} (m : M A) (h : error -> error) :
  keeps P m -> keeps P (on_error m h).
Proof.
  intros Hm w r w' HP. unfold on_error.
  destruct (m w) as [[a|e] w1] eqn:E; intros H; inversion H; subst; eapply Hm; eauto.
Qed.

(** A property of the collection alone is kept by whatever leaves the
    collection alone. *)
Hypothesis P_of_collection :
  forall w w', collection w' = collection w -> P w -> P w'.

Lemma keeps_reading {A : Type} (m : M A) :
  (forall w r w', m w = (r, w') -> collection w' = collection w) -> keeps P m.
Proof. intros Hm w r w' HP H. eapply P_of_collection; eauto. Qed.

Lemma keeps_NewObjectID : keeps P NewObjectID.
Proof. apply keeps_reading. intros w r w' H. now inversion H. Qed.

Lemma keeps_time_Now : keeps P time_Now.
Proof. apply keeps_reading. intros w r w' H. now inversion H. Qed.

Lemma keeps_GetByID (id : string) : keeps P (repository.GetByID id).
Proof.
  apply keeps_reading. intros w r w' H. apply GetByID_pure in H. now subst.
Qed.

End Keeping.

Lemma fields_valid_of_collection (w w' : World) :
  collection w' = collection w -> fields_valid w -> fields_valid w'.
Proof. unfold fields_valid. intros ->. auto. Qed.

Section ValidFields.

Context {R : Runtime}.

(** An update that keeps a document valid keeps the store valid. *)
Lemma keeps_valid_FindOneAndUpdate (filter : Incident.t -> bool)
    (update : Incident.t -> Incident.t) :
  (forall x, doc_valid x -> doc_valid (update x)) ->
  keeps fields_valid (mongo.FindOneAndUpdate filter update).
Proof.
  intros Hu w r w' HP. unfold mongo.FindOneAndUpdate.
  destruct (mongo.update_first _ _ _) as [[d docs]|] eqn:E;
    intros H; inversion H; subst; [|exact HP].
  destruct (update_first_selected _ _ _ _ _ E) as (x & HF & ->).
  destruct (update_first_found _ update _ _ HF) as (docs2 & HU2 & _ & Hsub & _).
  rewrite E in HU2. inversion HU2; subst docs2.
  intros y Hy. cbn [collection] in Hy.
  apply find_first_In in HF as [HF _].
  destruct (Hsub y Hy) as [->|Hold]; [apply Hu|]; now apply HP.
Qed.

Lemma keeps_valid_repository_AddWatcher (id : string) (watcher : Watcher.t) :
  keeps fields_valid (repository.AddWatcherToIncident id watcher).
Proof.
  unfold repository.AddWatcherToIncident.
  destruct (primitive.ObjectIDFromHex id); [|apply keeps_fail].
  apply keeps_bind; [apply keeps_time_Now, fields_valid_of_collection|]. intros now.
  apply keeps_on_error, keeps_valid_FindOneAndUpdate.
  intros x (Hs & Hv & Hw). repeat split; auto.
  cbn. now apply addToSet_keeps_set.
Qed.

Lemma keeps_valid_services_AddWatcher (id : string) (watcher : Watcher.t) :
  keeps fields_valid (services.AddWatcherToIncident id watcher).
Proof.
  unfold services.AddWatcherToIncident.
  apply keeps_bind; [apply keeps_on_error, keeps_GetByID, fields_valid_of_collection|].
  intros _. destruct (services.validateEmail _); [apply keeps_fail|].
  apply keeps_on_error, keeps_valid_repository_AddWatcher.
Qed.

Lemma keeps_valid_emit (event : KafkaEvent) {A : Type} (a : A) :
  keeps fields_valid (bind (kafka.ProduceMessage event) (fun _ => ret a)).
Proof.
  apply keeps_bind; [apply keeps_ret|]. intros _. apply keeps_ret.
Qed.

End ValidFields.

(** X10. A store in which every status and severity is of its enumeration
    and every watch list is a set stays so under every operation of the
    service, whether the operation succeeds or fails: the service never
    stores a status or a severity that it did not validate, nor a watcher
    twice. *)
Theorem service_keeps_fields_valid {R : Runtime} :
  (forall req, keeps fields_valid (services.CreateIncident req)) /\
  (forall id req, keeps fields_valid (services.UpdateIncidentStatus id req)) /\
  (forall id req, keeps fields_valid (services.UpdateIncidentSeverity id req)) /\
  (forall id req, keeps fields_valid (services.AddNoteToIncident id req)) /\
  (forall id watcher, keeps fields_valid (services.AddWatcherToIncident id watcher)).
Proof.
  split; [|split; [|split; [|split]]].
  - intros req w r w' HP Hrun.
    destruct (CreateIncident_cases req w)
      as [[Hvalid Hok]|(_ & e0 & w0 & Herr & Hkeep & _)].
    + rewrite Hok in Hrun. inversion Hrun; subst.
      intros d Hd. cbn [collection] in Hd.
      apply in_app_or in Hd as [Hd|[<-|[]]]; [now apply HP|].
      destruct Hvalid as [Hsev _]. split; [|split].
      * cbn. unfold ValidStatuses. simpl. auto.
      * exact Hsev.
      * intros email. cbn. apply initial_watchers_set.
    + rewrite Herr in Hrun. inversion Hrun; subst.
      eapply fields_valid_of_collection; eauto.
  - intros id req. unfold services.UpdateIncidentStatus.
    destruct (IncidentStatus_IsValid (UpdateIncidentStatusRequest.Status req)) eqn:HV;
      cbn [negb]; [|apply keeps_fail].
    apply keeps_bind; [apply keeps_on_error, keeps_GetByID, fields_valid_of_collection|].
    intros existing.
    destruct (services.validateStatusTransition _ _); [apply keeps_fail|].
    apply keeps_bind.
    { apply keeps_on_error. unfold repository.UpdateStatus.
      destruct (primitive.ObjectIDFromHex _); [|apply keeps_fail].
      apply keeps_bind; [apply keeps_time_Now, fields_valid_of_collection|]. intros now.
      apply keeps_on_error, keeps_valid_FindOneAndUpdate.
      intros x (Hs & Hsev & Hw). repeat split; auto.
      cbn. now apply IsValid_status_In. }
    intros updated. apply keeps_bind.
    { destruct (negb _); [|apply keeps_ret].
      apply keeps_bind; [apply keeps_on_error, keeps_valid_services_AddWatcher|].
      intros _. apply keeps_ret. }
    intros _. apply keeps_bind; [apply keeps_NewObjectID, fields_valid_of_collection|].
    intros eventKey. apply keeps_valid_emit.
  - intros id req. unfold services.UpdateIncidentSeverity.
    destruct (IncidentSeverity_IsValid (UpdateIncidentSeverityRequest.Severity req)) eqn:HV;
      cbn [negb]; [|apply keeps_fail].
    apply keeps_bind; [apply keeps_on_error, keeps_GetByID, fields_valid_of_collection|].
    intros _. apply keeps_bind.
    { apply keeps_on_error. unfold repository.UpdateSeverity.
      destruct (primitive.ObjectIDFromHex _); [|apply keeps_fail].
      apply keeps_bind; [apply keeps_time_Now, fields_valid_of_collection|]. intros now.
      apply keeps_on_error, keeps_valid_FindOneAndUpdate.
      intros x (Hs & Hsev & Hw). repeat split; auto.
      cbn. now apply IsValid_severity_In. }
    intros updated. apply keeps_bind.
    { destruct (negb _); [|apply keeps_ret].
      apply keeps_bind; [apply keeps_on_error, keeps_valid_services_AddWatcher|].
      intros _. apply keeps_ret. }
    intros _. apply keeps_bind; [apply keeps_NewObjectID, fields_valid_of_collection|].
    intros eventKey. apply keeps_valid_emit.
  - intros id req. unfold services.AddNoteToIncident.
    apply keeps_bind; [apply keeps_on_error, keeps_GetByID, fields_valid_of_collection|].
    intros existing. apply keeps_bind.
    { apply keeps_on_error. unfold repository.AddNote.
      destruct (primitive.ObjectIDFromHex _); [|apply keeps_fail].
      apply keeps_bind; [apply keeps_NewObjectID, fields_valid_of_collection|]. intros nid.
      apply keeps_bind; [apply keeps_time_Now, fields_valid_of_collection|]. intros t1.
      apply keeps_bind; [apply keeps_time_Now, fields_valid_of_collection|]. intros t2.
      apply keeps_on_error, keeps_valid_FindOneAndUpdate.
      intros x (Hs & Hsev & Hw). repeat split; auto. }
    intros updated. apply keeps_bind; [apply keeps_NewObjectID, fields_valid_of_collection|].
    intros eventKey. apply keeps_valid_emit.
  - intros id watcher. apply keeps_valid_services_AddWatcher.
Qed.

Lemma one_incident_world_fields_valid : fields_valid one_incident_world.
Proof.
  intros d [<-|[]]. split; [|split].
  - unfold ValidStatuses, Open, InProgress, Resolved, Closed. simpl. auto.
  - unfold ValidSeverities, Low, Medium, High, Critical. simpl. auto 6.
  - intros email. apply (initial_watchers_set "a@b.com").
Defined.

Lemma service_keeps_fields_valid_witness :
  fields_valid
    (snd (@services.UpdateIncidentStatus example_runtime "1"
            (UpdateIncidentStatusRequest.mk "resolved" "x@y.z") one_incident_world)).
Proof.
  destruct (@service_keeps_fields_valid example_runtime) as (_ & H & _).
  destruct (@services.UpdateIncidentStatus example_runtime "1"
              (UpdateIncidentStatusRequest.mk "resolved" "x@y.z") one_incident_world)
    as [r w'] eqn:E.
  exact (H "1" (UpdateIncidentStatusRequest.mk "resolved" "x@y.z")
           one_incident_world r w' one_incident_world_fields_valid E).
Defined.

(** ** Reading back what was written *)

(** When the document that one filter selects is the only match of the
    filter used for the write, the write lands on it and the first filter
    selects its image afterwards. *)
Lemma update_then_find (write read : Incident.t -> bool)
    (update : Incident.t -> Incident.t) (docs : list Incident.t) (e : Incident.t) :
  mongo.find_first read docs = Some e ->
  write e = true ->
  (forall x, In x docs -> write x = true -> x = e) ->
  (forall x, read (update x) = read x) ->
  exists docs',
    mongo.update_first write update docs = Some (update e, docs') /\
    mongo.find_first read docs' = Some (update e).
Proof.
  intros HF Hwe Huniq Hread.
  induction docs as [|x docs IH]; simpl in *; [discriminate|].
  destruct (read x) eqn:Rx.
  - inversion HF; subst. rewrite Hwe.
    eexists; split; [reflexivity|]. simpl. now rewrite Hread, Rx.
  - destruct (write x) eqn:Wx.
    + assert (x = e) by (apply Huniq; auto). subst x.
      apply find_first_In in HF as [_ HF]. congruence.
    + destruct (IH HF) as (docs' & HU & HF').
      { intros y Hy. apply Huniq. now right. }
      rewrite HU. eexists; split; [reflexivity|]. simpl.
      now rewrite Rx.
Qed.

(** X11. When the fetched incident is the only one with its storage id, a
    successful note append or status update (the latter without author
    e-mail) is seen by the next fetch with the same id: it returns exactly
    the incident that the operation returned. *)
Theorem fetch_after_write {R : Runtime} (w : World) (id : string) (existing : Incident.t) :
  repository.GetByID id w = (Ok existing, w) ->
  (forall x, In x (collection w) -> Incident.ID x = Incident.ID existing -> x = existing) ->
  (forall req,
     exists updated w',
       services.AddNoteToIncident id req w = (Ok updated, w') /\
       repository.GetByID id w' = (Ok updated, w') /\
       Incident.Notes updated
       = (Incident.Notes existing
            ++ [Note.mk (NewObjectID_at (oid_calls w)) (AddNoteRequest.Content req)
                  (Now_at (now_calls w)) (AddNoteRequest.AuthorEmail req)
                  (AddNoteRequest.Type_ req)])%list) /\
  (forall req,
     IncidentStatus_IsValid (UpdateIncidentStatusRequest.Status req) = true ->
     services.validateStatusTransition (Incident.Status existing)
       (UpdateIncidentStatusRequest.Status req) = None ->
     blank (UpdateIncidentStatusRequest.AuthorEmail req) ->
     exists updated w',
       services.UpdateIncidentStatus id req w = (Ok updated, w') /\
       repository.GetByID id w' = (Ok updated, w') /\
       updated = mongo.set_status (UpdateIncidentStatusRequest.Status req)
                   (Now_at (now_calls w)) existing).
Proof.
  intros HG Huniq.
  pose proof HG as HG0.
  apply GetByID_found in HG0 as (_ & k & HA & HK).
  assert (Hwrite : forall x, In x (collection w) ->
            primitive.eqb (Incident.ID x) (Incident.ID existing) = true -> x = existing).
  { intros x Hx E. apply Huniq; [exact Hx | now apply oid_eqb_eq]. }
  split.
  - intros req.
    destruct (update_then_find
                (fun x => primitive.eqb (Incident.ID x) (Incident.ID existing))
                (fun d => Incident.IncidentKey d =? k)
                (mongo.push_note
                   (Note.mk (NewObjectID_at (oid_calls w)) (AddNoteRequest.Content req)
                      (Now_at (now_calls w)) (AddNoteRequest.AuthorEmail req)
                      (AddNoteRequest.Type_ req))
                   (Now_at (S (now_calls w))))
                (collection w) existing HK (oid_eqb_refl _) Hwrite (fun x => eq_refl))
      as (docs' & HU & HF').
    do 2 eexists. split; [|split].
    + unfold services.AddNoteToIncident, bind, on_error. rewrite HG. cbv beta iota.
      unfold repository.AddNote. rewrite ObjectIDFromHex_Hex.
      unfold bind, on_error, NewObjectID, time_Now, mongo.FindOneAndUpdate,
        kafka.ProduceMessage, ret.
      cbn [collection oid_calls now_calls Note.Content Note.AuthorEmail Note.Type_].
      rewrite HU. reflexivity.
    + apply (GetByID_by_key id k); [exact HA | exact HF'].
    + reflexivity.
  - intros req HV Hyes Hb.
    destruct (update_then_find
                (fun x => primitive.eqb (Incident.ID x) (Incident.ID existing))
                (fun d => Incident.IncidentKey d =? k)
                (mongo.set_status (UpdateIncidentStatusRequest.Status req)
                   (Now_at (now_calls w)))
                (collection w) existing HK (oid_eqb_refl _) Hwrite (fun x => eq_refl))
      as (docs' & HU & HF').
    do 2 eexists. split; [|split].
    + unfold services.UpdateIncidentStatus. rewrite HV. cbn [negb].
      unfold bind, on_error, ret, fail, kafka.ProduceMessage, NewObjectID.
      rewrite HG. cbv beta iota. rewrite Hyes.
      unfold repository.UpdateStatus. rewrite ObjectIDFromHex_Hex.
      unfold bind, on_error, time_Now, mongo.FindOneAndUpdate.
      cbn [collection oid_calls now_calls]. rewrite HU.
      unfold blank in Hb. rewrite Hb. cbn [String.eqb negb]. reflexivity.
    + apply (GetByID_by_key id k); [exact HA | exact HF'].
    + reflexivity.
Qed.

Lemma fetch_after_write_witness :
  exists updated w',
    @services.AddNoteToIncident example_runtime "1"
      (AddNoteRequest.mk "Pool exhausted" "a@b.com" Investigation) one_incident_world
    = (Ok updated, w') /\
    repository.GetByID "1" w' = (Ok updated, w').
Proof.
  destruct (@fetch_after_write example_runtime one_incident_world "1" first_incident)
    as [Hnote _]; [reflexivity | intros x [<-|[]] _; reflexivity |].
  destruct (Hnote (AddNoteRequest.mk "Pool exhausted" "a@b.com" Investigation))
    as (updated & w' & Hrun & Hget & _).
  exists updated, w'. split; assumption.
Defined.

(** ** The status codes of the handlers *)

Section Wrapping.

Context {R : Runtime}.

Lemma never_bare_ret {A : Type} (a : A) : never_bare (ret a).
Proof. intros w e w' H. discriminate. Qed.

Lemma never_bare_bind {A B : Type} (m : M A) (k : A -> M B) :
  never_bare m -> (forall a, never_bare (k a)) -> never_bare (bind m k).
Proof.
  intros Hm Hk w e w'. unfold bind.
  destruct (m w) as [[a|e0] w1] eqn:E.
  - apply Hk.
  - intros H; inversion H; subst. eapply Hm; eauto.
Qed.

Lemma never_bare_NewObjectID : never_bare NewObjectID.
Proof. intros w e w' H. discriminate. Qed.

Lemma never_bare_fetch (id : string) :
  never_bare (on_error (repository.GetByID id) (Wrapf "incident not found")).
Proof. wrapped. Qed.

Lemma never_bare_services_AddWatcher (id : string) (watcher : Watcher.t) :
  never_bare (services.AddWatcherToIncident id watcher).
Proof.
  unfold services.AddWatcherToIncident.
  apply never_bare_bind; [apply never_bare_fetch|]. intros _.
  destruct (services.validateEmail _).
  - intros w e0 w' H. inversion H; subst. reflexivity.
  - wrapped.
Qed.

Lemma never_bare_chained_add (id : string) (watcher : Watcher.t) (msg : string)
    (guard : bool) :
  (forall cause, bare (Wrapf msg cause) = false) ->
  never_bare
    (if guard
     then bind (on_error (services.AddWatcherToIncident id watcher) (Wrapf msg))
            (fun _ => ret tt)
     else ret tt).
Proof.
  intros Hmsg. destruct guard; [|apply never_bare_ret].
  apply never_bare_bind; [|intros; apply never_bare_ret].
  intros w e w'. unfold on_error.
  destruct (services.AddWatcherToIncident id watcher w) as [[a|c] w1];
    intros H; inversion H; subst. apply Hmsg.
Qed.

Lemma never_bare_emit (event : KafkaEvent) {A : Type} (a : A) :
  never_bare (bind (kafka.ProduceMessage event) (fun _ => ret a)).
Proof. intros w e w' H. discriminate. Qed.

Lemma never_bare_UpdateIncidentStatus (id : string) (req : UpdateIncidentStatusRequest.t) :
  never_bare (services.UpdateIncidentStatus id req).
Proof.
  unfold services.UpdateIncidentStatus.
  destruct (negb _).
  { intros w e w' H. inversion H; subst. reflexivity. }
  apply never_bare_bind; [apply never_bare_fetch|]. intros existing.
  destruct (services.validateStatusTransition _ _).
  { intros w e0 w' H. inversion H; subst. reflexivity. }
  apply never_bare_bind; [wrapped|]. intros updated.
  apply never_bare_bind; [apply never_bare_chained_add; reflexivity|]. intros _.
  apply never_bare_bind; [apply never_bare_NewObjectID|]. intros eventKey.
  apply never_bare_emit.
Qed.

Lemma never_bare_UpdateIncidentSeverity (id : string)
    (req : UpdateIncidentSeverityRequest.t) :
  never_bare (services.UpdateIncidentSeverity id req).
Proof.
  unfold services.UpdateIncidentSeverity.
  destruct (negb _).
  { intros w e w' H. inversion H; subst. reflexivity. }
  apply never_bare_bind; [apply never_bare_fetch|]. intros _.
  apply never_bare_bind; [wrapped|]. intros updated.
  apply never_bare_bind; [apply never_bare_chained_add; reflexivity|]. intros _.
  apply never_bare_bind; [apply never_bare_NewObjectID|]. intros eventKey.
  apply never_bare_emit.
Qed.

Lemma never_bare_AddNoteToIncident (id : string) (req : AddNoteRequest.t) :
  never_bare (services.AddNoteToIncident id req).
Proof.
  unfold services.AddNoteToIncident.
  apply never_bare_bind; [apply never_bare_fetch|]. intros existing.
  apply never_bare_bind; [wrapped|]. intros updated.
  apply never_bare_bind; [apply never_bare_NewObjectID|]. intros eventKey.
  apply never_bare_emit.
Qed.

Lemma never_bare_GetByID (id : string) : never_bare (services.GetByID id).
Proof. unfold services.GetByID. wrapped. Qed.

End Wrapping.

(** X12. No handler ever answers 404.  Each of them compares the rendered
    error of the service with the bare message of a missing incident, but
    the service wraps every error under a message of its own; so a missing
    incident is answered 500 by the fetch, note and watcher handlers and 400
    by the status and severity handlers. *)
Theorem handlers_never_answer_not_found {R : Runtime} (w : World) (id : string) :
  (handlers.StatusCode (fst (handlers.GetIncidentByID id w)) <> 404 /\
   (forall req, handlers.StatusCode (fst (handlers.UpdateIncidentStatus id req w)) <> 404) /\
   (forall req, handlers.StatusCode (fst (handlers.UpdateIncidentSeverity id req w)) <> 404) /\
   (forall req, handlers.StatusCode (fst (handlers.AddNoteToIncident id req w)) <> 404) /\
   (forall req, handlers.StatusCode (fst (handlers.AddWatcherToIncident id req w)) <> 404) /\
   (forall req, handlers.StatusCode (fst (handlers.CreateIncident req w)) <> 404)) /\
  (id <> "" ->
   forall e, repository.GetByID id w = (Err e, w) ->
     handlers.StatusCode (fst (handlers.GetIncidentByID id w)) = 500 /\
     (forall req, AddNoteRequest.Content req <> "" ->
        handlers.StatusCode (fst (handlers.AddNoteToIncident id req w)) = 500) /\
     (forall req,
        handlers.StatusCode (fst (handlers.AddWatcherToIncident id req w)) = 500) /\
     (forall req, UpdateIncidentStatusRequest.Status req <> "" ->
        handlers.StatusCode (fst (handlers.UpdateIncidentStatus id req w)) = 400) /\
     (forall req, UpdateIncidentSeverityRequest.Severity req <> "" ->
        handlers.StatusCode (fst (handlers.UpdateIncidentSeverity id req w)) = 400)).
Proof.
  assert (Hnot : forall e, bare e = false ->
            String.eqb (Error e) "incident not found" = false).
  { intros e H. unfold bare in H. now apply orb_false_iff in H as [H _]. }
  split.
  - split; [|split; [|split; [|split; [|split]]]].
    + unfold handlers.GetIncidentByID. destruct (String.eqb id ""); [discriminate|].
      destruct (services.GetByID id w) as [[x|e] w'] eqn:E; [discriminate|].
      pose proof (never_bare_GetByID id w e w' E) as Hb. fold (bare e). rewrite Hb.
      discriminate.
    + intros req. unfold handlers.UpdateIncidentStatus.
      destruct (String.eqb id ""); [discriminate|].
      destruct (String.eqb _ ""); [discriminate|].
      destruct (services.UpdateIncidentStatus id req w) as [[x|e] w'] eqn:E; [discriminate|].
      rewrite (Hnot e (never_bare_UpdateIncidentStatus id req w e w' E)). discriminate.
    + intros req. unfold handlers.UpdateIncidentSeverity.
      destruct (String.eqb id ""); [discriminate|].
      destruct (String.eqb _ ""); [discriminate|].
      destruct (services.UpdateIncidentSeverity id req w) as [[x|e] w'] eqn:E;
        [discriminate|].
      rewrite (Hnot e (never_bare_UpdateIncidentSeverity id req w e w' E)). discriminate.
    + intros req. unfold handlers.AddNoteToIncident.
      destruct (String.eqb id ""); [discriminate|].
      destruct (String.eqb _ ""); [discriminate|].
      destruct (services.AddNoteToIncident id req w) as [[x|e] w'] eqn:E; [discriminate|].
      rewrite (Hnot e (never_bare_AddNoteToIncident id req w e w' E)). discriminate.
    + intros req. unfold handlers.AddWatcherToIncident.
      destruct (String.eqb id ""); [discriminate|].
      destruct (services.AddWatcherToIncident id req w) as [[x|e] w'] eqn:E; [discriminate|].
      rewrite (Hnot e (never_bare_services_AddWatcher id req w e w' E)). discriminate.
    + intros req. unfold handlers.CreateIncident.
      destruct (String.eqb _ ""); [discriminate|].
      destruct (String.eqb _ ""); [discriminate|].
      destruct (services.CreateIncident req w) as [[x|e] w']; discriminate.
  - intros Hid e HG.
    apply String.eqb_neq in Hid.
    split; [|split; [|split; [|split]]].
    + unfold handlers.GetIncidentByID, services.GetByID, on_error. rewrite Hid, HG.
      reflexivity.
    + intros req Hc. apply String.eqb_neq in Hc.
      unfold handlers.AddNoteToIncident, services.AddNoteToIncident, bind, on_error.
      rewrite Hid, Hc, HG. reflexivity.
    + intros req.
      unfold handlers.AddWatcherToIncident, services.AddWatcherToIncident, bind, on_error.
      rewrite Hid, HG. reflexivity.
    + intros req Hs. apply String.eqb_neq in Hs.
      unfold handlers.UpdateIncidentStatus. rewrite Hid, Hs.
      destruct (services.UpdateIncidentStatus id req w) as [[x|e0] w'] eqn:E.
      * exfalso. revert E. unfold services.UpdateIncidentStatus.
        destruct (negb _); [discriminate|].
        unfold bind, on_error. rewrite HG. discriminate.
      * rewrite (Hnot e0 (never_bare_UpdateIncidentStatus id req w e0 w' E)). reflexivity.
    + intros req Hs. apply String.eqb_neq in Hs.
      unfold handlers.UpdateIncidentSeverity. rewrite Hid, Hs.
      destruct (services.UpdateIncidentSeverity id req w) as [[x|e0] w'] eqn:E.
      * exfalso. revert E. unfold services.UpdateIncidentSeverity.
        destruct (negb _); [discriminate|].
        unfold bind, on_error. rewrite HG. discriminate.
      * rewrite (Hnot e0 (never_bare_UpdateIncidentSeverity id req w e0 w' E)).
        reflexivity.
Qed.

Lemma handlers_never_answer_not_found_witness :
  handlers.StatusCode (fst (handlers.GetIncidentByID "7" one_incident_world))
  = 500 /\
  handlers.StatusCode
    (fst (@handlers.UpdateIncidentStatus example_runtime "7"
            (UpdateIncidentStatusRequest.mk "closed" "") one_incident_world))
  = 400.
Proof.
  destruct (@handlers_never_answer_not_found example_runtime one_incident_world "7")
    as [_ H].
  destruct (H ltac:(discriminate) (Errorf "incident not found") eq_refl)
    as (Hget & _ & _ & Hstatus & _).
  split; [exact Hget | apply Hstatus; discriminate].
Defined.

(** ** Successive creations *)

Lemma highest_key_after_append (docs : list Incident.t) (d : Incident.t) (m : Z) :
  (docs = [] \/ highest_key docs m) ->
  Incident.IncidentKey d = m + 1 ->
  highest_key (docs ++ [d]) (m + 1).
Proof.
  intros Htop Hk. split.
  - exists d. split; [|exact Hk]. apply in_or_app. right. now left.
  - intros x Hx. apply in_app_or in Hx as [Hx|[<-|[]]]; [|lia].
    destruct Htop as [->|[_ Hmax]]; [destruct Hx|]. specialize (Hmax x Hx). lia.
Qed.

Lemma next_key_after (docs : list Incident.t) (m : Z) :
  (docs = [] /\ m = 0 \/ highest_key docs m) ->
  minInt <= m < maxInt ->
  next_key docs = m + 1.
Proof.
  intros [[-> ->]|Hhigh] Hm; [reflexivity|].
  rewrite (next_key_highest _ _ Hhigh). now apply int_add_no_overflow.
Qed.

(** X14. Creations made one after the other number their incidents
    consecutively: from an empty store the keys are 1, 2, ..., and from a
    store whose highest key is [m] they are [m + 1], [m + 2], ..., as long
    as Go's [int] does not overflow; the incidents are stored after the
    existing ones, in the order of the calls. *)
Theorem successive_creations_number_consecutively {R : Runtime}
    (reqs : list CreateIncidentRequest.t) (w : World) (m : Z) :
  Forall valid_creation reqs ->
  (collection w = [] /\ m = 0 \/ highest_key (collection w) m) ->
  minInt <= m ->
  m + Z.of_nat (List.length reqs) <= maxInt ->
  exists incidents w',
    create_each reqs w = (Ok incidents, w') /\
    collection w' = (collection w ++ incidents)%list /\
    map Incident.IncidentKey incidents
    = map (fun i => m + Z.of_nat i) (seq 1 (List.length reqs)).
Proof.
  intros Hvalid. revert w m.
  induction Hvalid as [|req reqs Hreq Hreqs IH]; intros w m Htop Hlow Hhigh.
  - exists [], w. cbn. rewrite app_nil_r. auto.
  - cbn [List.length] in Hhigh. rewrite Nat2Z.inj_succ in Hhigh.
    assert (Hkey : next_key (collection w) = m + 1)
      by (apply next_key_after; [exact Htop | lia]).
    pose proof (CreateIncident_run req w Hreq) as Hrun.
    set (d := created_incident req w) in *.
    set (w1 := mkWorld (collection w ++ [d]) _ _) in Hrun.
    assert (Hd : Incident.IncidentKey d = m + 1) by exact Hkey.
    destruct (IH w1 (m + 1)) as (rest & w' & Hrest & Hcoll & Hkeys).
    + right. cbn [w1 collection]. apply highest_key_after_append.
      * destruct Htop as [[He _]|Hh]; auto.
      * exact Hd.
    + lia.
    + lia.
    + exists (d :: rest), w'. split; [|split].
      * cbn [create_each]. unfold bind at 1. rewrite Hrun.
        unfold bind at 1. rewrite Hrest. reflexivity.
      * rewrite Hcoll. cbn [w1 collection]. now rewrite <- app_assoc.
      * cbn [map List.length seq]. rewrite Hd, Hkeys. f_equal.
        rewrite <- (seq_shift _ 1), map_map.
        apply map_ext. intros i. lia.
Qed.

Lemma successive_creations_number_consecutively_witness :
  exists incidents w',
    @create_each example_runtime
      [CreateIncidentRequest.mk "Disk full" Critical "" None "" "";
       CreateIncidentRequest.mk "Login slow" Low "" None "" ""] empty_world
    = (Ok incidents, w') /\
    map Incident.IncidentKey incidents = [1; 2].
Proof.
  destruct (@successive_creations_number_consecutively example_runtime
              [CreateIncidentRequest.mk "Disk full" Critical "" None "" "";
               CreateIncidentRequest.mk "Login slow" Low "" None "" ""] empty_world 0)
    as (incidents & w' & Hrun & _ & Hkeys).
  - constructor; [|constructor; [|constructor]];
      (split; [simpl; auto | left; reflexivity]).
  - left. split; reflexivity.
  - vm_compute. discriminate.
  - vm_compute. discriminate.
  - exists incidents, w'. split; [exact Hrun | exact Hkeys].
Defined.

(** ** Identities *)

Lemma update_first_map {B : Type} (f : Incident.t -> B) (filter : Incident.t -> bool)
    (update : Incident.t -> Incident.t) (docs docs' : list Incident.t) (d : Incident.t) :
  (forall x, f (update x) = f x) ->
  mongo.update_first filter update docs = Some (d, docs') ->
  map f docs' = map f docs.
Proof.
  intros Hf. revert d docs'. induction docs as [|x rest IH]; simpl; [discriminate|].
  intros d docs'. destruct (filter x).
  - intros H; inversion H; subst. simpl. now rewrite Hf.
  - destruct (mongo.update_first filter update rest) as [[d0 rest']|]; [|discriminate].
    intros H; inversion H; subst. simpl. f_equal. eapply IH; eauto.
Qed.

Section Identities.

Context {R : Runtime}.
Variable ids : list (primitive.ObjectID * Z).
Variable n : nat.

Lemma keeps_identified_step {A : Type} (m : M A) :
  (forall w r w', m w = (r, w') ->
     collection w' = collection w /\ (oid_calls w <= oid_calls w')%nat) ->
  keeps (identified ids n) m.
Proof.
  intros Hm w r w' [Hids Hn] H. destruct (Hm _ _ _ H) as [Hc Ho].
  split; [|lia]. unfold identities in *. now rewrite Hc.
Qed.

Lemma keeps_identified_NewObjectID : keeps (identified ids n) NewObjectID.
Proof.
  apply keeps_identified_step. intros w r w' H. inversion H; subst. cbn. auto.
Qed.

Lemma keeps_identified_time_Now : keeps (identified ids n) time_Now.
Proof.
  apply keeps_identified_step. intros w r w' H. inversion H; subst. cbn. auto.
Qed.

Lemma keeps_identified_fetch (id : string) (msg : string) :
  keeps (identified ids n) (on_error (repository.GetByID id) (Wrapf msg)).
Proof.
  apply keeps_on_error, keeps_identified_step.
  intros w r w' H. apply GetByID_pure in H. subst. auto.
Qed.

Lemma keeps_identified_FindOneAndUpdate (filter : Incident.t -> bool)
    (update : Incident.t -> Incident.t) :
  (forall x, Incident.ID (update x) = Incident.ID x /\
             Incident.IncidentKey (update x) = Incident.IncidentKey x) ->
  keeps (identified ids n) (mongo.FindOneAndUpdate filter update).
Proof.
  intros Hu w r w' [Hids Hn]. unfold mongo.FindOneAndUpdate.
  destruct (mongo.update_first _ _ _) as [[d docs]|] eqn:E;
    intros H; inversion H; subst; [|now split].
  split; [|exact Hn]. unfold identities. cbn [collection].
  eapply update_first_map; [|exact E].
  intros x. destruct (Hu x) as [-> ->]. reflexivity.
Qed.

Lemma keeps_identified_repository_AddWatcher (id : string) (watcher : Watcher.t) :
  keeps (identified ids n) (repository.AddWatcherToIncident id watcher).
Proof.
  unfold repository.AddWatcherToIncident.
  destruct (primitive.ObjectIDFromHex id); [|apply keeps_fail].
  apply keeps_bind; [apply keeps_identified_time_Now|]. intros now.
  apply keeps_on_error, keeps_identified_FindOneAndUpdate. intros x. now split.
Qed.

Lemma keeps_identified_services_AddWatcher (id : string) (watcher : Watcher.t) :
  keeps (identified ids n) (services.AddWatcherToIncident id watcher).
Proof.
  unfold services.AddWatcherToIncident.
  apply keeps_bind; [apply keeps_identified_fetch|]. intros _.
  destruct (services.validateEmail _); [apply keeps_fail|].
  apply keeps_on_error, keeps_identified_repository_AddWatcher.
Qed.

Lemma keeps_identified_chained_add (id : string) (watcher : Watcher.t) (msg : string)
    (guard : bool) :
  keeps (identified ids n)
    (if guard
     then bind (on_error (services.AddWatcherToIncident id watcher) (Wrapf msg))
            (fun _ => ret tt)
     else ret tt).
Proof.
  destruct guard; [|apply keeps_ret].
  apply keeps_bind; [apply keeps_on_error, keeps_identified_services_AddWatcher|].
  intros _. apply keeps_ret.
Qed.

Lemma keeps_identified_emit (event : KafkaEvent) {A : Type} (a : A) :
  keeps (identified ids n) (bind (kafka.ProduceMessage event) (fun _ => ret a)).
Proof.
  apply keeps_bind; [apply keeps_ret|]. intros _. apply keeps_ret.
Qed.

Lemma keeps_identified_UpdateIncidentStatus (id : string)
    (req : UpdateIncidentStatusRequest.t) :
  keeps (identified ids n) (services.UpdateIncidentStatus id req).
Proof.
  unfold services.UpdateIncidentStatus.
  destruct (negb _); [apply keeps_fail|].
  apply keeps_bind; [apply keeps_identified_fetch|]. intros existing.
  destruct (services.validateStatusTransition _ _); [apply keeps_fail|].
  apply keeps_bind.
  { apply keeps_on_error. unfold repository.UpdateStatus.
    destruct (primitive.ObjectIDFromHex _); [|apply keeps_fail].
    apply keeps_bind; [apply keeps_identified_time_Now|]. intros now.
    apply keeps_on_error, keeps_identified_FindOneAndUpdate. intros x. now split. }
  intros updated. apply keeps_bind; [apply keeps_identified_chained_add|].
  intros _. apply keeps_bind; [apply keeps_identified_NewObjectID|].
  intros eventKey. apply keeps_identified_emit.
Qed.

Lemma keeps_identified_UpdateIncidentSeverity (id : string)
    (req : UpdateIncidentSeverityRequest.t) :
  keeps (identified ids n) (services.UpdateIncidentSeverity id req).
Proof.
  unfold services.UpdateIncidentSeverity.
  destruct (negb _); [apply keeps_fail|].
  apply keeps_bind; [apply keeps_identified_fetch|]. intros _.
  apply keeps_bind.
  { apply keeps_on_error. unfold repository.UpdateSeverity.
    destruct (primitive.ObjectIDFromHex _); [|apply keeps_fail].
    apply keeps_bind; [apply keeps_identified_time_Now|]. intros now.
    apply keeps_on_error, keeps_identified_FindOneAndUpdate. intros x. now split. }
  intros updated. apply keeps_bind; [apply keeps_identified_chained_add|].
  intros _. apply keeps_bind; [apply keeps_identified_NewObjectID|].
  intros eventKey. apply keeps_identified_emit.
Qed.

Lemma keeps_identified_AddNoteToIncident (id : string) (req : AddNoteRequest.t) :
  keeps (identified ids n) (services.AddNoteToIncident id req).
Proof.
  unfold services.AddNoteToIncident.
  apply keeps_bind; [apply keeps_identified_fetch|]. intros existing.
  apply keeps_bind.
  { apply keeps_on_error. unfold repository.AddNote.
    destruct (primitive.ObjectIDFromHex _); [|apply keeps_fail].
    apply keeps_bind; [apply keeps_identified_NewObjectID|]. intros noteID.
    apply keeps_bind; [apply keeps_identified_time_Now|]. intros createdAt.
    apply keeps_bind; [apply keeps_identified_time_Now|]. intros now.
    apply keeps_on_error, keeps_identified_FindOneAndUpdate. intros x. now split. }
  intros updated. apply keeps_bind; [apply keeps_identified_NewObjectID|].
  intros eventKey. apply keeps_identified_emit.
Qed.

End Identities.

Lemma identified_start (w : World) : identified (identities w) (oid_calls w) w.
Proof. split; [reflexivity | apply Nat.le_refl]. Qed.

Lemma identified_run {R : Runtime} {A : Type} (m : M A) (w : World) :
  keeps (identified (identities w) (oid_calls w)) m ->
  identified (identities w) (oid_calls w) (snd (m w)).
Proof.
  intros Hk. destruct (m w) as [r w'] eqn:E. cbn [snd].
  exact (Hk w r w' (identified_start w) E).
Qed.

(** X15. The operations that update an incident neither add, remove nor
    reorder stored incidents, and change no storage id and no key, whether
    they succeed or fail: the identities in the store are the same after the
    call as before it. *)
Theorem updates_keep_identities {R : Runtime} (w : World) (id : string) :
  (forall req, identities (snd (services.UpdateIncidentStatus id req w)) = identities w) /\
  (forall req, identities (snd (services.UpdateIncidentSeverity id req w)) = identities w) /\
  (forall req, identities (snd (services.AddNoteToIncident id req w)) = identities w) /\
  (forall watcher,
     identities (snd (services.AddWatcherToIncident id watcher w)) = identities w).
Proof.
  split; [|split; [|split]]; intros x.
  - apply (identified_run (services.UpdateIncidentStatus id x) w).
    apply keeps_identified_UpdateIncidentStatus.
  - apply (identified_run (services.UpdateIncidentSeverity id x) w).
    apply keeps_identified_UpdateIncidentSeverity.
  - apply (identified_run (services.AddNoteToIncident id x) w).
    apply keeps_identified_AddNoteToIncident.
  - apply (identified_run (services.AddWatcherToIncident id x) w).
    apply keeps_identified_services_AddWatcher.
Qed.

Lemma well_identified_of_identified {R : Runtime} (w w' : World) :
  identified (identities w) (oid_calls w) w' ->
  well_identified w -> well_identified w'.
Proof.
  intros [Hids Hn] (Hdrawn & Hu & Hk).
  assert (Hid : map Incident.ID (collection w') = map Incident.ID (collection w)).
  { unfold identities in Hids. apply (f_equal (map fst)) in Hids.
    rewrite !map_map in Hids. exact Hids. }
  assert (Hkey : map Incident.IncidentKey (collection w')
                 = map Incident.IncidentKey (collection w)).
  { unfold identities in Hids. apply (f_equal (map snd)) in Hids.
    rewrite !map_map in Hids. exact Hids. }
  split; [|split].
  - intros d Hd. apply (in_map Incident.ID) in Hd. rewrite Hid in Hd.
    apply in_map_iff in Hd as (d0 & Heq & Hd0).
    destruct (Hdrawn d0 Hd0) as (i & Hi & Hx). exists i. split; [lia|congruence].
  - unfold unique_ids. now rewrite Hid.
  - unfold unique_keys. now rewrite Hkey.
Qed.

(** X16. A store in which every id came from the generator and no two
    incidents share an id or a key stays so under every operation of the
    service, whether the operation succeeds or fails; for a creation, as
    long as the stored keys are below the greatest [int] and the generator
    has not repeated itself by the time it hands out the id of the new
    incident. *)
Theorem service_keeps_identities_unique {R : Runtime} (w : World) (limit : nat) :
  distinct_upto limit ->
  well_identified w ->
  (forall id req, well_identified (snd (services.UpdateIncidentStatus id req w))) /\
  (forall id req, well_identified (snd (services.UpdateIncidentSeverity id req w))) /\
  (forall id req, well_identified (snd (services.AddNoteToIncident id req w))) /\
  (forall id watcher, well_identified (snd (services.AddWatcherToIncident id watcher w))) /\
  (forall req, keys_below_max w ->
     (oid_calls w + List.length (supplied_notes req) < limit)%nat ->
     well_identified (snd (services.CreateIncident req w))).
Proof.
  intros Hinj Hw.
  split; [|split; [|split; [|split]]].
  - intros id req. apply (well_identified_of_identified w); [|exact Hw].
    apply identified_run, keeps_identified_UpdateIncidentStatus.
  - intros id req. apply (well_identified_of_identified w); [|exact Hw].
    apply identified_run, keeps_identified_UpdateIncidentSeverity.
  - intros id req. apply (well_identified_of_identified w); [|exact Hw].
    apply identified_run, keeps_identified_AddNoteToIncident.
  - intros id watcher. apply (well_identified_of_identified w); [|exact Hw].
    apply identified_run, keeps_identified_services_AddWatcher.
  - intros req Hbelow Hlimit. destruct Hw as (Hdrawn & Hu & Hk).
    destruct (IncidentSeverity_IsValid (CreateIncidentRequest.Severity req)) eqn:Hsev.
    2:{ rewrite (CreateIncident_invalid_severity req w Hsev). cbn [snd].
        repeat split; assumption. }
    assert (Hfail : forall w0,
              collection w0 = collection w -> (oid_calls w <= oid_calls w0)%nat ->
              well_identified w0).
    { intros w0 Hc Ho. split; [|split].
      - intros d Hd. rewrite Hc in Hd. destruct (Hdrawn d Hd) as (i & Hi & Hx).
        exists i. split; [lia|exact Hx].
      - unfold unique_ids. now rewrite Hc.
      - unfold unique_keys. now rewrite Hc. }
    assert (Hok : valid_creation req ->
                  well_identified (snd (services.CreateIncident req w))).
    { intros Hvalid. rewrite (CreateIncident_run req w Hvalid). cbn [snd].
      split; [|split].
      - eapply CreateIncident_keeps_ids_drawn;
          [exact Hvalid | exact Hdrawn | apply CreateIncident_run, Hvalid].
      - unfold unique_ids. cbn [collection]. rewrite map_app. cbn [map].
        apply (Permutation_NoDup (l := Incident.ID (created_incident req w)
                                         :: map Incident.ID (collection w))).
        { apply Permutation_cons_append. }
        constructor; [|exact Hu].
        intros Hin. apply in_map_iff in Hin as (d & Heq & Hd).
        destruct (Hdrawn d Hd) as (i & Hi & Hx).
        cbn in Heq. rewrite Hx in Heq.
        refine (Hinj i _ _ Hlimit Heq). lia.
      - unfold unique_keys. cbn [collection]. rewrite map_app. cbn [map].
        apply (Permutation_NoDup (l := Incident.IncidentKey (created_incident req w)
                                         :: map Incident.IncidentKey (collection w))).
        { apply Permutation_cons_append. }
        constructor; [|exact Hk].
        intros Hin. apply in_map_iff in Hin as (d & Heq & Hd).
        cbn in Heq. unfold next_key in Heq.
        destruct (mongo.find_greatest Incident.IncidentKey (collection w)) as [g|] eqn:G.
        + destruct (find_greatest_spec _ _ G) as [Hg Hmax].
          rewrite (int_add_no_overflow _ (Hbelow g Hg)) in Heq.
          specialize (Hmax d Hd). lia.
        + apply find_greatest_none in G. rewrite G in Hd. destruct Hd. }
    destruct (String.eqb (strings.Trim (CreateIncidentRequest.AuthorEmail req) " ") "")
      eqn:Hblank.
    + apply String.eqb_eq in Hblank. apply Hok.
      split; [now apply IsValid_severity_In | now left].
    + apply String.eqb_neq in Hblank.
      destruct (checkmail_ValidateFormat (CreateIncidentRequest.AuthorEmail req)) eqn:Hfmt.
      * apply Hok. split; [now apply IsValid_severity_In | now right].
      * rewrite (CreateIncident_invalid_email req w Hsev Hblank Hfmt). cbn [snd].
        apply Hfail; cbn; [reflexivity | lia].
Qed.

Lemma service_keeps_identities_unique_witness :
  @well_identified example_runtime
    (snd (@services.CreateIncident example_runtime
            (CreateIncidentRequest.mk "Disk full" Critical "" None "" "")
            one_incident_world)).
Proof.
  assert (Hw : @well_identified example_runtime one_incident_world).
  { split; [apply one_incident_world_ids_drawn|].
    split; repeat constructor; intros []. }
  destruct (@service_keeps_identities_unique example_runtime one_incident_world 3
              example_oid_distinct_3 Hw)
    as (_ & _ & _ & _ & Hcreate).
  apply Hcreate; [apply one_incident_world_keys | cbn; lia].
Defined.

(** ** The test double *)

Section TestDouble.

Context {R : Runtime}.

Lemma stamped_contents (notes : list Note.t) (i j : nat) :
  map Note.Content (stamped notes i j) = map Note.Content notes.
Proof. revert i j; induction notes as [|x rest IH]; intros; simpl; [|rewrite IH]; auto. Qed.

Lemma fill_notes_run (notes : list Note.t) (w : World) :
  exists filled w',
    MockIncidentRepository.fill_notes notes w = (Ok filled, w') /\
    collection w' = collection w /\
    map Note.Content filled = map Note.Content notes.
Proof.
  revert w; induction notes as [|note rest IH]; intros w.
  - exists [], w. auto.
  - cbn [MockIncidentRepository.fill_notes].
    set (draw_id := if primitive.IsZero (Note.ID note) then NewObjectID
                    else ret (Note.ID note)).
    set (draw_at := if Time_IsZero (Note.CreatedAt note) then time_Now
                    else ret (Note.CreatedAt note)).
    assert (Hid : exists id w1, draw_id w = (Ok id, w1) /\ collection w1 = collection w).
    { unfold draw_id. destruct (primitive.IsZero _); do 2 eexists; split; reflexivity. }
    destruct Hid as (id & w1 & Hid & Hc1).
    assert (Hat : exists t w2, draw_at w1 = (Ok t, w2) /\ collection w2 = collection w1).
    { unfold draw_at. destruct (Time_IsZero _); do 2 eexists; split; reflexivity. }
    destruct Hat as (t & w2 & Hat & Hc2).
    destruct (IH w2) as (filled & w' & Hrest & Hc3 & Hcontents).
    exists (Note.mk id (Note.Content note) t (Note.AuthorEmail note) (Note.Type_ note)
              :: filled), w'.
    split; [|split].
    + unfold bind at 1. rewrite Hid. unfold bind at 1. rewrite Hat.
      unfold bind at 1. rewrite Hrest. reflexivity.
    + congruence.
    + cbn. now rewrite Hcontents.
Qed.

End TestDouble.

(** X17. The double that the unit test exercises is not the service.  For
    every request with a severity of the enumeration it succeeds, stores
    nothing, gives the incident the key 0 and lists the author as the one
    watcher, whatever the author e-mail is.  An incident that the service
    returns for the same request has that watch list only if the e-mail is
    not blank: for a blank e-mail the service lists no watcher, and a
    malformed one it refuses. *)
Theorem test_double_is_not_the_service {R : Runtime}
    (req : CreateIncidentRequest.t) (w : World) :
  In (CreateIncidentRequest.Severity req) ValidSeverities ->
  exists incident w',
    TestableIncidentService.CreateIncident req w = (Ok incident, w') /\
    collection w' = collection w /\
    Incident.IncidentKey incident = 0 /\
    Incident.Title incident = CreateIncidentRequest.Title req /\
    Incident.Severity incident = CreateIncidentRequest.Severity req /\
    Incident.Status incident = Open /\
    Incident.CreatedBy incident = CreateIncidentRequest.AuthorEmail req /\
    Incident.WatchList incident = [Watcher.mk (CreateIncidentRequest.AuthorEmail req)] /\
    map Note.Content (Incident.Notes incident)
    = map Note.Content (supplied_notes req) /\
    (forall incident' w'',
       services.CreateIncident req w = (Ok incident', w'') ->
       (blank (CreateIncidentRequest.AuthorEmail req) ->
        Incident.WatchList incident' = []) /\
       (~ blank (CreateIncidentRequest.AuthorEmail req) ->
        checkmail_ValidateFormat (CreateIncidentRequest.AuthorEmail req) = true /\
        Incident.WatchList incident' = Incident.WatchList incident)) /\
    (~ blank (CreateIncidentRequest.AuthorEmail req) ->
     checkmail_ValidateFormat (CreateIncidentRequest.AuthorEmail req) = false ->
     exists w'',
       services.CreateIncident req w
       = (Err (Wrapf "invalid email" (Wrapf "invalid email format" ErrBadFormat)), w'')).
Proof.
  intros Hsev.
  set (stamp := match CreateIncidentRequest.Notes req with
                | Some supplied => services.stamp_notes supplied
                | None => ret []
                end).
  assert (Hnotes : exists w1,
            stamp w
            = (Ok (stamped (supplied_notes req) (oid_calls w) (now_calls w)), w1) /\
            collection w1 = collection w).
  { unfold stamp, supplied_notes. destruct (CreateIncidentRequest.Notes req).
    - rewrite stamp_notes_run. eexists. split; reflexivity.
    - exists w. split; reflexivity. }
  destruct Hnotes as (w1 & Hnotes & Hc1).
  set (notes := stamped (supplied_notes req) (oid_calls w) (now_calls w)) in *.
  set (w2 := mkWorld (collection w1) (S (oid_calls w1)) (S (S (now_calls w1)))).
  destruct (fill_notes_run notes w2) as (filled & w3 & Hfill & Hc3 & Hcontents).
  set (incident :=
         Incident.mk (NewObjectID_at (oid_calls w1)) 0 (CreateIncidentRequest.Title req)
           (CreateIncidentRequest.Severity req) Open (Now_at (now_calls w1))
           (Now_at (S (now_calls w1))) filled
           [Watcher.mk (CreateIncidentRequest.AuthorEmail req)]
           (CreateIncidentRequest.AuthorEmail req) "" "").
  exists incident, (mkWorld (collection w3) (S (oid_calls w3)) (now_calls w3)).
  split.
  { unfold TestableIncidentService.CreateIncident.
    rewrite (IsValid_of_In_severity _ Hsev). cbn [negb].
    fold stamp. unfold bind at 1. rewrite Hnotes.
    unfold bind at 1, on_error, MockIncidentRepository.Create.
    unfold bind at 1, NewObjectID at 1. unfold bind at 1, time_Now at 1.
    unfold bind at 1, time_Now at 1. cbn [collection oid_calls now_calls].
    unfold bind at 1. fold w2. cbn [Incident.Notes]. rewrite Hfill.
    reflexivity. }
  split; [cbn [collection]; rewrite Hc3; cbn [w2 collection]; exact Hc1|].
  do 6 (split; [reflexivity|]).
  split.
  { cbn [incident Incident.Notes]. rewrite Hcontents. apply stamped_contents. }
  cbn [incident Incident.WatchList].
  split.
  - intros incident' w'' Hrun.
    destruct (CreateIncident_cases req w) as [[Hvalid Hok]|(_ & e & w0 & Herr & _)].
    + rewrite Hok in Hrun. inversion Hrun; subst incident'. clear Hrun.
      cbn [created_incident Incident.WatchList]. unfold initial_watchers.
      split.
      * intros Hb. unfold blank in Hb. now rewrite Hb.
      * intros Hnb. split.
        -- destruct Hvalid as [_ [Hb|Hfmt]]; [contradiction | exact Hfmt].
        -- apply String.eqb_neq in Hnb. now rewrite Hnb.
    + rewrite Herr in Hrun. discriminate.
  - intros Hnb Hfmt. eexists.
    apply CreateIncident_invalid_email; [now apply IsValid_of_In_severity | exact Hnb | exact Hfmt].
Qed.

Lemma test_double_is_not_the_service_witness :
  exists incident w',
    @TestableIncidentService.CreateIncident example_runtime
      (CreateIncidentRequest.mk "Disk full" Critical "" None "" "") empty_world
    = (Ok incident, w') /\
    Incident.WatchList incident = [Watcher.mk ""] /\
    forall incident' w'',
      @services.CreateIncident example_runtime
        (CreateIncidentRequest.mk "Disk full" Critical "" None "" "") empty_world
      = (Ok incident', w'') ->
      Incident.WatchList incident' = [].
Proof.
  destruct (@test_double_is_not_the_service example_runtime
              (CreateIncidentRequest.mk "Disk full" Critical "" None "" "") empty_world)
    as (incident & w' & Hrun & _ & _ & _ & _ & _ & _ & Hwatch & _ & Hservice & _).
  - simpl. auto.
  - exists incident, w'. split; [exact Hrun|]. split; [exact Hwatch|].
    intros incident' w'' H. destruct (Hservice incident' w'' H) as [Hblank _].
    apply Hblank. reflexivity.
Defined.

(** ** Instants *)

Lemma update_first_members (filter : Incident.t -> bool) (update : Incident.t -> Incident.t)
    (docs docs' : list Incident.t) (d : Incident.t) :
  mongo.update_first filter update docs = Some (d, docs') ->
  forall y, In y docs' -> exists x, In x docs /\ (y = x \/ y = update x).
Proof.
  revert d docs'. induction docs as [|x rest IH]; simpl; [discriminate|].
  intros d docs'. destruct (filter x).
  - intros H; inversion H; subst. intros y [<-|Hy]; eauto.
  - destruct (mongo.update_first filter update rest) as [[d0 rest']|] eqn:E; [|discriminate].
    intros H; inversion H; subst. intros y [<-|Hy]; [eauto|].
    destruct (IH _ _ eq_refl y Hy) as (x0 & Hx0 & Hy0). eauto.
Qed.

Section Instants.

Context {R : Runtime}.
Hypothesis clock : monotone_clock.

Lemma doc_timely_later (n n' : nat) (d : Incident.t) :
  (n <= n')%nat -> doc_timely n d -> doc_timely n' d.
Proof.
  intros Hn (Hc & Hnotes & Hlast). repeat split; auto.
  intros k Hk. apply Hlast. lia.
Qed.

Lemma keeps_timely_step {A : Type} (m : M A) :
  (forall w r w', m w = (r, w') ->
     collection w' = collection w /\ (now_calls w <= now_calls w')%nat) ->
  keeps timely m.
Proof.
  intros Hm w r w' HP H. destruct (Hm _ _ _ H) as [Hc Hn].
  intros d Hd. rewrite Hc in Hd. eapply doc_timely_later; eauto.
Qed.

Lemma keeps_timely_NewObjectID : keeps timely NewObjectID.
Proof.
  apply keeps_timely_step. intros w r w' H. inversion H; subst. cbn. auto.
Qed.

Lemma keeps_timely_fetch (id : string) (msg : string) :
  keeps timely (on_error (repository.GetByID id) (Wrapf msg)).
Proof.
  apply keeps_on_error, keeps_timely_step.
  intros w r w' H. apply GetByID_pure in H. subst. auto.
Qed.

(** The clock is read, and then the first match is updated with an
    operator that sets the instant of the last update to that reading and
    adds no note later than it. *)
Lemma keeps_timely_update (filter : Incident.t -> bool)
    (update : Time -> Incident.t -> Incident.t) (h : error -> error)
    (w : World) (r : result Incident.t) (w' : World) (earlier : nat) :
  (earlier <= now_calls w)%nat ->
  (forall now x,
     Incident.CreatedAt (update now x) = Incident.CreatedAt x /\
     Incident.UpdatedAt (update now x) = now /\
     forall note, In note (Incident.Notes (update now x)) ->
       In note (Incident.Notes x) \/ Note.CreatedAt note = Now_at earlier) ->
  timely w ->
  bind time_Now (fun now => on_error (mongo.FindOneAndUpdate filter (update now)) h) w
  = (r, w') ->
  timely w'.
Proof.
  intros Hearlier Hu HP.
  unfold bind, time_Now, on_error, mongo.FindOneAndUpdate. cbn [collection oid_calls now_calls].
  destruct (mongo.update_first _ _ _) as [[d docs]|] eqn:E; intros H; inversion H; subst.
  - intros y Hy. cbn [collection now_calls] in *.
    destruct (update_first_members _ _ _ _ _ E y Hy) as (x & Hx & [->| ->]).
    + apply (doc_timely_later (now_calls w)); [lia | now apply HP].
    + destruct (HP x Hx) as (Hc & Hnotes & Hlast).
      destruct (Hu (Now_at (now_calls w)) x) as (Hcreated & Hupdated & Hadded).
      split; [|split].
      * rewrite Hcreated, Hupdated. specialize (Hlast (now_calls w) (Nat.le_refl _)). lia.
      * intros note Hnote. rewrite Hupdated.
        destruct (Hadded note Hnote) as [Hold| ->].
        -- specialize (Hnotes note Hold).
           specialize (Hlast (now_calls w) (Nat.le_refl _)). lia.
        -- now apply clock.
      * intros k Hk. rewrite Hupdated. apply clock. lia.
  - intros y Hy. cbn [collection now_calls] in *.
    apply (doc_timely_later (now_calls w)); [lia | now apply HP].
Qed.

Lemma keeps_timely_UpdateStatus (id : string) (status : IncidentStatus) :
  keeps timely (repository.UpdateStatus id status).
Proof.
  unfold repository.UpdateStatus.
  destruct (primitive.ObjectIDFromHex id); [|apply keeps_fail].
  intros w r w' HP H.
  refine (keeps_timely_update _ (mongo.set_status status) _ w r w' (now_calls w)
            (Nat.le_refl _) _ HP H).
  intros now x. cbn. auto.
Qed.

Lemma keeps_timely_UpdateSeverity (id : string) (severity : IncidentSeverity) :
  keeps timely (repository.UpdateSeverity id severity).
Proof.
  unfold repository.UpdateSeverity.
  destruct (primitive.ObjectIDFromHex id); [|apply keeps_fail].
  intros w r w' HP H.
  refine (keeps_timely_update _ (mongo.set_severity severity) _ w r w' (now_calls w)
            (Nat.le_refl _) _ HP H).
  intros now x. cbn. auto.
Qed.

Lemma keeps_timely_repository_AddWatcher (id : string) (watcher : Watcher.t) :
  keeps timely (repository.AddWatcherToIncident id watcher).
Proof.
  unfold repository.AddWatcherToIncident.
  destruct (primitive.ObjectIDFromHex id); [|apply keeps_fail].
  intros w r w' HP H.
  refine (keeps_timely_update _ (mongo.addToSet_watchlist watcher) _ w r w' (now_calls w)
            (Nat.le_refl _) _ HP H).
  intros now x. cbn. auto.
Qed.

Lemma keeps_timely_AddNote (id : string) (note : Note.t) :
  keeps timely (repository.AddNote id note).
Proof.
  unfold repository.AddNote.
  destruct (primitive.ObjectIDFromHex id); [|apply keeps_fail].
  intros w r w' HP.
  unfold bind at 1, NewObjectID at 1. unfold bind at 1, time_Now at 1.
  cbn [collection oid_calls now_calls]. intros H.
  set (w1 := mkWorld (collection w) (S (oid_calls w)) (S (now_calls w))) in H.
  refine (keeps_timely_update _
            (mongo.push_note
               (Note.mk (NewObjectID_at (oid_calls w)) (Note.Content note)
                  (Now_at (now_calls w)) (Note.AuthorEmail note) (Note.Type_ note)))
            _ w1 r w' (now_calls w) _ _ _ H).
  - cbn. lia.
  - intros now x. cbn. repeat split; auto.
    intros n0 Hn0. apply in_app_or in Hn0 as [Hn0|[<-|[]]]; auto.
  - intros d Hd. apply (doc_timely_later (now_calls w)); [cbn; lia | now apply HP].
Qed.

Lemma keeps_timely_services_AddWatcher (id : string) (watcher : Watcher.t) :
  keeps timely (services.AddWatcherToIncident id watcher).
Proof.
  unfold services.AddWatcherToIncident.
  apply keeps_bind; [apply keeps_timely_fetch|]. intros _.
  destruct (services.validateEmail _); [apply keeps_fail|].
  apply keeps_on_error, keeps_timely_repository_AddWatcher.
Qed.

Lemma keeps_timely_tail (id : string) (watcher : Watcher.t) (msg : string)
    (guard : bool) (event : primitive.ObjectID -> KafkaEvent) (updated : Incident.t) :
  keeps timely
    (bind (if guard
           then bind (on_error (services.AddWatcherToIncident id watcher) (Wrapf msg))
                  (fun _ => ret tt)
           else ret tt)
       (fun _ => bind NewObjectID
          (fun eventKey => bind (kafka.ProduceMessage (event eventKey))
             (fun _ => ret updated)))).
Proof.
  apply keeps_bind.
  { destruct guard; [|apply keeps_ret].
    apply keeps_bind; [apply keeps_on_error, keeps_timely_services_AddWatcher|].
    intros _. apply keeps_ret. }
  intros _. apply keeps_bind; [apply keeps_timely_NewObjectID|]. intros eventKey.
  apply keeps_bind; [apply keeps_ret|]. intros _. apply keeps_ret.
Qed.

Lemma keeps_timely_UpdateIncidentStatus (id : string)
    (req : UpdateIncidentStatusRequest.t) :
  keeps timely (services.UpdateIncidentStatus id req).
Proof.
  unfold services.UpdateIncidentStatus.
  destruct (negb _); [apply keeps_fail|].
  apply keeps_bind; [apply keeps_timely_fetch|]. intros existing.
  destruct (services.validateStatusTransition _ _); [apply keeps_fail|].
  apply keeps_bind; [apply keeps_on_error, keeps_timely_UpdateStatus|].
  intros updated.
  apply (keeps_timely_tail _ _ _ _
           (fun eventKey => IncidentStatusUpdated (primitive.Hex eventKey) _ _ _)).
Qed.

Lemma keeps_timely_UpdateIncidentSeverity (id : string)
    (req : UpdateIncidentSeverityRequest.t) :
  keeps timely (services.UpdateIncidentSeverity id req).
Proof.
  unfold services.UpdateIncidentSeverity.
  destruct (negb _); [apply keeps_fail|].
  apply keeps_bind; [apply keeps_timely_fetch|]. intros _.
  apply keeps_bind; [apply keeps_on_error, keeps_timely_UpdateSeverity|].
  intros updated.
  apply (keeps_timely_tail _ _ _ _
           (fun eventKey => IncidentSeverityUpdated (primitive.Hex eventKey) _ _ _)).
Qed.

Lemma keeps_timely_AddNoteToIncident (id : string) (req : AddNoteRequest.t) :
  keeps timely (services.AddNoteToIncident id req).
Proof.
  unfold services.AddNoteToIncident.
  apply keeps_bind; [apply keeps_timely_fetch|]. intros existing.
  apply keeps_bind; [apply keeps_on_error, keeps_timely_AddNote|].
  intros updated. apply keeps_bind; [apply keeps_timely_NewObjectID|]. intros eventKey.
  apply keeps_bind; [apply keeps_ret|]. intros _. apply keeps_ret.
Qed.

Lemma stamped_instants (notes : list Note.t) (i j : nat) (note : Note.t) :
  In note (stamped notes i j) ->
  exists k, (k < List.length notes)%nat /\ Note.CreatedAt note = Now_at (j + k).
Proof.
  revert i j; induction notes as [|x rest IH]; intros i j; simpl; [intros []|].
  intros [<-|Hin].
  - exists 0%nat. split; [lia|]. cbn. now rewrite Nat.add_0_r.
  - destruct (IH _ _ Hin) as (k & Hk & Hat). exists (S k). split; [lia|].
    rewrite Hat. f_equal. lia.
Qed.

Lemma keeps_timely_CreateIncident (req : CreateIncidentRequest.t) :
  keeps timely (services.CreateIncident req).
Proof.
  intros w r w' HP Hrun.
  assert (Hsame : forall w0,
            collection w0 = collection w -> (now_calls w <= now_calls w0)%nat ->
            timely w0).
  { intros w0 Hc Hn d Hd. rewrite Hc in Hd. eapply doc_timely_later; eauto. }
  destruct (IncidentSeverity_IsValid (CreateIncidentRequest.Severity req)) eqn:Hsev.
  2:{ rewrite (CreateIncident_invalid_severity req w Hsev) in Hrun.
      inversion Hrun; subst. exact HP. }
  assert (Hok : valid_creation req -> timely w').
  { intros Hvalid. rewrite (CreateIncident_run req w Hvalid) in Hrun.
    inversion Hrun; subst. clear Hrun.
    intros d Hd. cbn [collection now_calls] in *.
    apply in_app_or in Hd as [Hd|[<-|[]]].
    - apply (doc_timely_later (now_calls w)); [lia | now apply HP].
    - split; [|split]; cbn.
      + lia.
      + intros note Hnote. apply stamped_instants in Hnote as (k & Hk & ->).
        apply clock. lia.
      + intros k Hk. apply clock. lia. }
  destruct (String.eqb (strings.Trim (CreateIncidentRequest.AuthorEmail req) " ") "")
    eqn:Hblank.
  - apply String.eqb_eq in Hblank. apply Hok.
    split; [now apply IsValid_severity_In | now left].
  - apply String.eqb_neq in Hblank.
    destruct (checkmail_ValidateFormat (CreateIncidentRequest.AuthorEmail req)) eqn:Hfmt.
    + apply Hok. split; [now apply IsValid_severity_In | now right].
    + rewrite (CreateIncident_invalid_email req w Hsev Hblank Hfmt) in Hrun.
      inversion Hrun; subst. apply Hsame; cbn; [reflexivity | lia].
Qed.

End Instants.

(** X18. With a clock that never goes back, the instants in the store stay
    in order under every operation of the service, whether it succeeds or
    fails: no incident is updated before it was created, no note is later
    than the last update of its incident, and no last update is later than a
    reading of the clock still to come. *)
Theorem service_keeps_instants_ordered {R : Runtime} (w : World) :
  monotone_clock ->
  timely w ->
  (forall req, timely (snd (services.CreateIncident req w))) /\
  (forall id req, timely (snd (services.UpdateIncidentStatus id req w))) /\
  (forall id req, timely (snd (services.UpdateIncidentSeverity id req w))) /\
  (forall id req, timely (snd (services.AddNoteToIncident id req w))) /\
  (forall id watcher, timely (snd (services.AddWatcherToIncident id watcher w))).
Proof.
  intros Hclock Hw.
  assert (Hrun : forall (A : Type) (m : M A), keeps timely m -> timely (snd (m w))).
  { intros A m Hk. destruct (m w) as [r w'] eqn:E. exact (Hk w r w' Hw E). }
  split; [|split; [|split; [|split]]]; intros; apply Hrun.
  - now apply keeps_timely_CreateIncident.
  - now apply keeps_timely_UpdateIncidentStatus.
  - now apply keeps_timely_UpdateIncidentSeverity.
  - now apply keeps_timely_AddNoteToIncident.
  - now apply keeps_timely_services_AddWatcher.
Qed.

Lemma service_keeps_instants_ordered_witness :
  @timely example_runtime
    (snd (@services.AddNoteToIncident example_runtime "1"
            (AddNoteRequest.mk "Restarted the primary" "a@b.com" "resolution")
            one_incident_world)).
Proof.
  assert (Hclock : @monotone_clock example_runtime).
  { intros i j Hij.
    change (1700000000 + Z.of_nat i <= 1700000000 + Z.of_nat j). lia. }
  assert (Hw : @timely example_runtime one_incident_world).
  { intros d [<-|[]]. split; [|split].
    - change (1700000000 <= 1700000000). lia.
    - intros note [].
    - intros k Hk. change (1700000000 <= 1700000000 + Z.of_nat k). lia. }
  destruct (@service_keeps_instants_ordered example_runtime one_incident_world Hclock Hw)
    as (_ & _ & _ & Hnote & _).
  apply Hnote.
Defined.

(** ** What the handlers answer *)

Lemma valid_severity_not_empty (severity : IncidentSeverity) :
  In severity ValidSeverities -> severity <> "".
Proof.
  intros [<-|[<-|[<-|[<-|[]]]]]; discriminate.
Qed.

(** X19. The creation handler answers 400 exactly when the title or the
    severity is empty, and then the world is untouched.  It answers 201
    only for a request with a title, a severity of the enumeration and an
    author e-mail that is blank or well formed; a request with a title and
    a severity whose severity is unknown or whose e-mail is malformed is
    answered 500, a server error, and leaves the collection as it was. *)
Theorem handlers_CreateIncident_status {R : Runtime}
    (req : CreateIncidentRequest.t) (w : World) :
  (handlers.StatusCode (fst (handlers.CreateIncident req w)) = 400
   <-> CreateIncidentRequest.Title req = "" \/ CreateIncidentRequest.Severity req = "") /\
  (CreateIncidentRequest.Title req = "" \/ CreateIncidentRequest.Severity req = "" ->
   snd (handlers.CreateIncident req w) = w) /\
  (handlers.StatusCode (fst (handlers.CreateIncident req w)) = 201 ->
   CreateIncidentRequest.Title req <> "" /\ valid_creation req) /\
  (CreateIncidentRequest.Title req <> "" ->
   CreateIncidentRequest.Severity req <> "" ->
   ~ valid_creation req ->
   handlers.StatusCode (fst (handlers.CreateIncident req w)) = 500 /\
   collection (snd (handlers.CreateIncident req w)) = collection w).
Proof.
  assert (Hsev : valid_creation req -> CreateIncidentRequest.Severity req <> "").
  { intros [Hin _]. now apply valid_severity_not_empty. }
  unfold handlers.CreateIncident.
  case_eqb (CreateIncidentRequest.Title req) "".
  { cbn. split; [|split; [|split]];
      solve [ tauto | discriminate | intros; reflexivity
            | split; intros H; solve [tauto | reflexivity | discriminate H] ]. }
  case_eqb (CreateIncidentRequest.Severity req) "".
  { cbn. split; [|split; [|split]];
      solve [ tauto | discriminate | intros; reflexivity
            | split; intros H; solve [tauto | reflexivity | discriminate H] ]. }
  destruct (CreateIncident_cases req w) as [[Hvalid Hok]|(Hinvalid & e & w' & Herr & Hkeep & _)].
  - rewrite Hok. cbn. split; [|split; [|split]];
      solve [ tauto | discriminate
            | split; intros H; solve [tauto | reflexivity | discriminate H] ].
  - rewrite Herr. cbn. split; [|split; [|split]];
      solve [ tauto | discriminate
            | split; intros H; solve [tauto | reflexivity | discriminate H]
            | intros; split; [reflexivity | assumption] ].
Qed.

Lemma handlers_CreateIncident_status_witness :
  handlers.StatusCode
    (fst (@handlers.CreateIncident example_runtime
            (CreateIncidentRequest.mk "Disk full" "urgent" "" None "" "") one_incident_world))
  = 500.
Proof.
  destruct (@handlers_CreateIncident_status example_runtime
              (CreateIncidentRequest.mk "Disk full" "urgent" "" None "" "")
              one_incident_world) as (_ & _ & _ & H).
  apply H; [discriminate | discriminate |].
  intros [Hin _]. simpl in Hin.
  destruct Hin as [H0|[H0|[H0|[H0|[]]]]]; discriminate H0.
Defined.

(** X20. The fetch handler never changes the world.  It answers 200 only
    when the id reads as a decimal integer that is the key of a stored
    incident, and the body is then a stored incident with that key; when the
    id does not read as an integer, or no stored incident has that key, it
    answers 400 for the empty id and 500 otherwise. *)
Theorem handlers_GetIncidentByID_answers (id : string) (w : World) :
  snd (handlers.GetIncidentByID id w) = w /\
  (forall incident,
     fst (handlers.GetIncidentByID id w)
     = handlers.mkResponse 200 (handlers.SuccessJSON incident) ->
     exists k,
       strconv.Atoi id = Ok k /\
       In incident (collection w) /\
       Incident.IncidentKey incident = k) /\
  (handlers.StatusCode (fst (handlers.GetIncidentByID id w)) = 200 ->
   exists incident,
     fst (handlers.GetIncidentByID id w)
     = handlers.mkResponse 200 (handlers.SuccessJSON incident)) /\
  ((forall k, strconv.Atoi id = Ok k ->
      forall d, In d (collection w) -> Incident.IncidentKey d <> k) ->
   handlers.StatusCode (fst (handlers.GetIncidentByID id w))
   = if String.eqb id "" then 400 else 500).
Proof.
  unfold handlers.GetIncidentByID, services.GetByID, on_error.
  case_eqb id "".
  { cbn. split; [reflexivity|]. split; [discriminate|]. split; [discriminate|].
    reflexivity. }
  destruct (repository.GetByID id w) as [[existing|e] w'] eqn:HG.
  - destruct (GetByID_found _ _ _ _ HG) as (-> & k & HA & HF).
    apply find_first_In in HF as [Hin Hkey]. apply Z.eqb_eq in Hkey.
    cbn. split; [reflexivity|]. split; [|split].
    + intros incident H. inversion H; subst. eauto.
    + intros _. eauto.
    + intros Hnone. exfalso. exact (Hnone k HA existing Hin Hkey).
  - pose proof (GetByID_pure _ _ _ _ HG) as ->.
    assert (Hwrapped : String.eqb (Error (Wrapf "failed to get incident" e))
                         "incident not found"
                       || String.eqb (Error (Wrapf "failed to get incident" e))
                            "no documents found" = false) by reflexivity.
    rewrite Hwrapped. cbn.
    split; [reflexivity|]. split; [discriminate|]. split; [discriminate|].
    reflexivity.
Qed.

Lemma handlers_GetIncidentByID_answers_witness :
  handlers.StatusCode (fst (handlers.GetIncidentByID "7" one_incident_world)) = 500.
Proof.
  destruct (handlers_GetIncidentByID_answers "7" one_incident_world) as (_ & _ & _ & H).
  apply H. intros k HA d [<-|[]].
  vm_compute in HA. inversion HA; subst. discriminate.
Defined.
